(** * RcppML [svd]: a shallow embedding of [inst/include/RcppML/svd.hpp]

    The class [RcppML::svd<T>] factorises a matrix [A] by alternating least
    squares.  This development embeds its setters, the three per-rank fitters,
    the orchestrators [fit] and [fit_restarts] and the dense and sparse loss
    evaluators, and states the properties of the specification against them.

    Numbers.  The source computes on C++ [double].  Every definition below is
    written once over an interface [Scalar] of the operations the source uses
    and is run at two instances: IEEE binary64 ([float_scalar], the kernel's
    primitive floats, used to evaluate the code on concrete inputs) and the
    real numbers ([real_scalar], used where a statement is about exact
    arithmetic).

    Errors.  [Rcpp::stop] is the outcome [Stop], which carries the message and
    the object as it is when the exception leaves the method.  An access
    outside a matrix or a vector, and an Eigen product or dot product of
    mismatched sizes, is the outcome [OutOfBounds].

    Trace.  Every method also yields the list of [event]s it went through: one
    [EvDiv] per division that the code of the file executes, with its
    denominator, and one [EvIter] per executed body of a fitter's loop.  What
    a function declared elsewhere ([cor]) does inside is not traced. *)

From Stdlib Require Import String.
From Stdlib Require Import List Arith Lia Bool ZArith.
From Stdlib Require Import Sorted.
From Stdlib Require Import PrimFloat Uint63.
From Stdlib Require Import Reals Lra.
Import ListNotations.

Close Scope R_scope.
Open Scope string_scope.
Open Scope list_scope.
Open Scope nat_scope.

(** ** Scalars *)

(** The operations of [double] that the source uses: [+ - * /], [std::sqrt],
    the comparisons [<] and [!=], the conversion of an integer size, and the
    macro [DIV_OFFSET] (line 11). *)
Class Scalar (num : Type) := {
  nzero : num;
  nadd : num -> num -> num;
  nsub : num -> num -> num;
  nmul : num -> num -> num;
  ndiv : num -> num -> num;
  nsqrt : num -> num;
  nltb : num -> num -> bool;
  neqb : num -> num -> bool;
  of_Z : Z -> num;
  DIV_OFFSET : num
}.

Declare Scope num_scope.
Delimit Scope num_scope with num.
Notation "x + y" := (nadd x y) : num_scope.
Notation "x - y" := (nsub x y) : num_scope.
Notation "x * y" := (nmul x y) : num_scope.
Notation "x / y" := (ndiv x y) : num_scope.
Notation "x <? y" := (nltb x y) : num_scope.

(** IEEE binary64.  A size is converted through the unsigned 63-bit integers,
    which is exact below 2^53 as the C++ conversion is. *)
Definition float_of_Z (z : Z) : float :=
  if (z <? 0)%Z then PrimFloat.opp (PrimFloat.of_uint63 (Uint63.of_Z (- z)))
  else PrimFloat.of_uint63 (Uint63.of_Z z).

#[export] Instance float_scalar : Scalar float := {|
  nzero := 0%float;
  nadd := PrimFloat.add;
  nsub := PrimFloat.sub;
  nmul := PrimFloat.mul;
  ndiv := PrimFloat.div;
  nsqrt := PrimFloat.sqrt;
  nltb := PrimFloat.ltb;
  neqb := PrimFloat.eqb;
  of_Z := float_of_Z;
  (* the binary64 value nearest to 1e-15 *)
  DIV_OFFSET := 0x1.203af9ee75616p-50%float
|}.

(** Exact real arithmetic. *)
Definition Rltb (x y : R) : bool := if Rlt_dec x y then true else false.
Definition Reqb (x y : R) : bool := if Req_dec_T x y then true else false.

#[export] Instance real_scalar : Scalar R := {|
  nzero := 0%R;
  nadd := Rplus;
  nsub := Rminus;
  nmul := Rmult;
  ndiv := Rdiv;
  nsqrt := sqrt;
  nltb := Rltb;
  neqb := Reqb;
  of_Z := IZR;
  DIV_OFFSET := (1 / 1000000000000000)%R
|}.

(** ** The option monad of the matrix accessors *)

Definition obind {A B} (o : option A) (f : A -> option B) : option B :=
  match o with Some a => f a | None => None end.

Notation "x <-? o ;; k" := (obind o (fun x => k))
  (at level 61, o at next level, right associativity).

Fixpoint omap {A B} (f : A -> option B) (l : list A) : option (list B) :=
  match l with
  | [] => Some []
  | a :: l' => b <-? f a ;; bs <-? omap f l' ;; Some (b :: bs)
  end.

(** [l[i] := x], refused outside the list. *)
Fixpoint set_nth {A} (l : list A) (i : nat) (x : A) : option (list A) :=
  match l, i with
  | [], _ => None
  | _ :: l', O => Some (x :: l')
  | a :: l', S i' => r <-? set_nth l' i' x ;; Some (a :: r)
  end.

(** ** Dense matrices and vectors (Eigen) *)

Section Dense.
Context {num : Type} {SC : Scalar num}.
Local Open Scope num_scope.

Definition Vector := list num.

(** [Eigen::MatrixXd], column-major as Eigen stores it: the row count and
    the list of columns. *)
Record MatrixXd := mkMatrix { mrows : nat; mdata : list Vector }.

Definition mcols (m : MatrixXd) : nat := length (mdata m).

(** [m.col(j)] *)
Definition col (m : MatrixXd) (j : nat) : option Vector := nth_error (mdata m) j.

(** [m.row(i)] *)
Definition row (m : MatrixXd) (i : nat) : option Vector :=
  if (i <? mrows m)%nat then omap (fun c => nth_error c i) (mdata m) else None.

(** [m(i, j)] *)
Definition coeff (m : MatrixXd) (i j : nat) : option num :=
  c <-? col m j ;; nth_error c i.

(** Column [j] overwritten by [c]. *)
Definition set_col (m : MatrixXd) (j : nat) (c : Vector) : option MatrixXd :=
  cs <-? set_nth (mdata m) j c ;; Some (mkMatrix (mrows m) cs).

(** [m.transpose()] *)
Definition transpose (m : MatrixXd) : option MatrixXd :=
  rs <-? omap (row m) (seq 0 (mrows m)) ;; Some (mkMatrix (mcols m) rs).

(** The accumulation of a dot product, left to right from zero. *)
Definition dot_acc (x y : Vector) : num :=
  fold_left (fun acc p => acc + fst p * snd p) (combine x y) nzero.

(** [x.dot(y)]: the sizes must agree. *)
Definition dot (x y : Vector) : option num :=
  if (length x =? length y)%nat then Some (dot_acc x y) else None.

(** [x.array().square().sum()] and [x.squaredNorm()] *)
Definition sum_squares (x : Vector) : num :=
  fold_left (fun acc a => acc + a * a) x nzero.

(** [x.norm()] *)
Definition norm (x : Vector) : num := nsqrt (sum_squares x).

(** [x.sum()] *)
Definition vsum (x : Vector) : num := fold_left nadd x nzero.

(** [m * x] for a matrix and a column vector. *)
Definition matvec (m : MatrixXd) (x : Vector) : option Vector :=
  if (mcols m =? length x)%nat
  then omap (fun i => r <-? row m i ;; dot r x) (seq 0 (mrows m))
  else None.

(** [x *= s] *)
Definition vscale (x : Vector) (s : num) : Vector := map (fun a => a * s) x.

(** Modelled from the spec: [n_nonzeros] is declared outside this file.
    The spec (4.5) has the divisor of the [mask_zeros] mode be the count of
    the nonzero entries of [A]. *)
Definition n_nonzeros (m : MatrixXd) : nat :=
  fold_left (fun n c => (n + length (filter (fun a => negb (neqb a nzero)) c))%nat)
            (mdata m) O.

End Dense.

Arguments Vector num : clear implicits.
Arguments MatrixXd num : clear implicits.

(** ** Sparse matrices *)

Section Sparse.
Context {num : Type} {SC : Scalar num}.

(** Modelled from the spec: [Rcpp::SparseMatrix] is declared outside this
    file.  The spec gives the container column iteration over the nonzero
    entries, row and column counts and the listing of the nonzero row indices
    of a column; the model is the row count and, per column, the stored
    entries as (row, value) pairs in increasing row order. *)
Record SparseMatrix := mkSparse { sp_rows : nat; sp_data : list (list (nat * num)) }.

Definition sp_cols (m : SparseMatrix) : nat := length (sp_data m).

(** [m.i.size()] and [m.x.size()]: the number of stored entries. *)
Definition sp_nnz (m : SparseMatrix) : nat :=
  fold_left (fun n c => (n + length c)%nat) (sp_data m) O.

(** [SparseMatrix::InnerIterator(m, j)]: the stored entries of column [j]. *)
Definition InnerIterator (m : SparseMatrix) (j : nat) : option (list (nat * num)) :=
  nth_error (sp_data m) j.

(** [m.InnerIndices(j)]: the rows of the stored entries of column [j]. *)
Definition InnerIndices (m : SparseMatrix) (j : nat) : option (list nat) :=
  c <-? InnerIterator m j ;; Some (map fst c).

Definition mem_nat (r : nat) (l : list nat) : bool := existsb (Nat.eqb r) l.

(** [m.emptyInnerIndices(j)]: the rows of column [j] with no stored entry. *)
Definition emptyInnerIndices (m : SparseMatrix) (j : nat) : option (list nat) :=
  idx <-? InnerIndices m j ;;
  Some (filter (fun r => negb (mem_nat r idx)) (seq 0 (sp_rows m))).

(** [SparseMatrix::InnerIteratorInRange(m, j, rs)]: the stored entries of
    column [j] whose row is listed in [rs]. *)
Definition InnerIteratorInRange (m : SparseMatrix) (j : nat) (rs : list nat)
  : option (list (nat * num)) :=
  c <-? InnerIterator m j ;; Some (filter (fun p => mem_nat (fst p) rs) c).

(** [std::set_intersection] of two increasing ranges. *)
Definition set_intersection (xs ys : list nat) : list nat :=
  filter (fun r => mem_nat r ys) xs.

End Sparse.

Arguments SparseMatrix num : clear implicits.

(** ** Outcomes, the trace and the monad of the methods *)

Section Monad.
Context {num : Type}.

Inductive event :=
| EvDiv (den : num)                          (* a division by [den] *)
| EvIter (k : nat) (n : nat) (t : num).      (* body [n] of the loop of column [k], ending with [tol_ = t] *)

Inductive outcome (St X : Type) :=
| Ok (x : X)
| Stop (msg : string) (st : St)
| OutOfBounds.

Definition M (St X : Type) : Type := outcome St X * list event.

Definition ret {St X} (x : X) : M St X := (Ok St X x, []).

Definition bind {St X Y} (m : M St X) (f : X -> M St Y) : M St Y :=
  match m with
  | (Ok _ _ x, tr) => let (r, tr') := f x in (r, tr ++ tr')
  | (Stop _ _ msg st, tr) => (Stop St Y msg st, tr)
  | (OutOfBounds _ _, tr) => (OutOfBounds St Y, tr)
  end.

(** [Rcpp::stop(msg)] on the object [st]. *)
Definition stop {St X} (msg : string) (st : St) : M St X := (Stop St X msg st, []).

(** An Eigen access: out of bounds when the accessor refuses. *)
Definition lift {St X} (o : option X) : M St X :=
  match o with Some x => ret x | None => (OutOfBounds St X, []) end.

Definition emit {St} (e : event) : M St unit := (Ok St unit tt, [e]).

End Monad.

Arguments event num : clear implicits.
Arguments M num St X : clear implicits.
Arguments Ok {St X} x.
Arguments Stop {St X} msg st.
Arguments OutOfBounds {St X}.

Notation "x <- m ;; k" := (bind m (fun x => k))
  (at level 61, m at next level, right associativity).
Notation "' pat <- m ;; k" := (bind m (fun x => match x with pat => k end))
  (at level 61, pat pattern, m at next level, right associativity).

Section MonadOps.
Context {num : Type} {SC : Scalar num} {St : Type}.
Local Open Scope num_scope.

Fixpoint mapM {X Y} (f : X -> M num St Y) (l : list X) : M num St (list Y) :=
  match l with
  | [] => ret []
  | a :: l' => b <- f a ;; bs <- mapM f l' ;; ret (b :: bs)
  end.

Fixpoint foldM {X Y} (f : Y -> X -> M num St Y) (l : list X) (acc : Y) : M num St Y :=
  match l with
  | [] => ret acc
  | a :: l' => acc' <- f acc a ;; foldM f l' acc'
  end.

(** [x / y] on scalars. *)
Definition divide (x y : num) : M num St num := (Ok (x / y), [EvDiv y]).

(** [c /= y] on a column: every entry divided by the one scalar [y]. *)
Definition vdivide (c : Vector num) (y : num) : M num St (Vector num) :=
  (Ok (map (fun a => a / y) c), [EvDiv y]).

End MonadOps.

(** The events of a computation, and its outcome. *)
Definition trace {num St X} (m : M num St X) : list (event num) := snd m.
Definition result {num St X} (m : M num St X) : outcome St X := fst m.

Definition is_iter {num} (e : event num) : bool :=
  match e with EvIter _ _ _ => true | EvDiv _ => false end.

(** The number of loop bodies a trace went through. *)
Definition iterations {num} (tr : list (event num)) : nat :=
  length (filter is_iter tr).

(** The denominators a trace divided by. *)
Fixpoint denominators {num} (tr : list (event num)) : list num :=
  match tr with
  | [] => []
  | EvDiv y :: tr' => y :: denominators tr'
  | EvIter _ _ _ :: tr' => denominators tr'
  end.

(** ** What the file takes from outside *)

(** Functions the class calls and that are declared in other files of the
    library, and the contents of the storage that the methods read before
    assigning it. *)
Class Externals (num : Type) {SC : Scalar num} := {
  (** [cor(x, y)], the convergence measure of two successive estimates *)
  cor : Vector num -> Vector num -> num;
  (** [isAppxSymmetric(A)] on a dense matrix *)
  dense_isAppxSymmetric : MatrixXd num -> bool;
  (** [A.isAppxSymmetric()] on a sparse matrix *)
  sparse_isAppxSymmetric : SparseMatrix num -> bool;
  (** the value the local [double d;] ([d_k]) of the fitter of column [k]
      holds when the loop assigns nothing to it *)
  d_uninit : nat -> num;
  (** the value entry [i] of [Eigen::ArrayXd losses(n)] holds before the
      first [+=]: Eigen does not initialise the array *)
  losses_uninit : nat -> num
}.

(** The matrix type [T] of the template: what the class asks of it. *)
Class Backend (T : Type) := {
  rows : T -> nat;
  cols : T -> nat;
  isAppxSymmetric : T -> bool
}.

Section Object.
Context {num : Type} {SC : Scalar num} {EX : Externals num}.
Local Open Scope num_scope.

#[export] Instance dense_backend : Backend (MatrixXd num) := {|
  rows := mrows; cols := mcols; isAppxSymmetric := dense_isAppxSymmetric
|}.

#[export] Instance sparse_backend : Backend (SparseMatrix num) := {|
  rows := sp_rows; cols := sp_cols; isAppxSymmetric := sparse_isAppxSymmetric
|}.

(** The fields of [svd<T>] that the methods of the file read or write
    (lines 17-40).  [L1] holds [L1[0]] and [L1[1]]. *)
Record svd (T : Type) := mkSvd {
  A : T;
  mask_matrix : SparseMatrix num;
  u : MatrixXd num;
  v : MatrixXd num;
  d : Vector num;
  tol_ : num;
  mse_ : num;
  iter_ : nat;
  best_model_ : nat;
  mask : bool;
  mask_zeros : bool;
  symmetric : bool;
  maxit : nat;
  L1 : num * num;
  tol : num
}.

Arguments mkSvd {T}.
Arguments A {T}.
Arguments mask_matrix {T}.
Arguments u {T}.
Arguments v {T}.
Arguments d {T}.
Arguments tol_ {T}.
Arguments mse_ {T}.
Arguments iter_ {T}.
Arguments best_model_ {T}.
Arguments mask {T}.
Arguments mask_zeros {T}.
Arguments symmetric {T}.
Arguments maxit {T}.
Arguments L1 {T}.
Arguments tol {T}.

Section Fields.
Context {T : Type}.
Implicit Type s : svd T.

Definition with_mask_matrix s x :=
  mkSvd (A s) x (u s) (v s) (d s) (tol_ s) (mse_ s) (iter_ s) (best_model_ s)
        (mask s) (mask_zeros s) (symmetric s) (maxit s) (L1 s) (tol s).
Definition with_u s x :=
  mkSvd (A s) (mask_matrix s) x (v s) (d s) (tol_ s) (mse_ s) (iter_ s) (best_model_ s)
        (mask s) (mask_zeros s) (symmetric s) (maxit s) (L1 s) (tol s).
Definition with_v s x :=
  mkSvd (A s) (mask_matrix s) (u s) x (d s) (tol_ s) (mse_ s) (iter_ s) (best_model_ s)
        (mask s) (mask_zeros s) (symmetric s) (maxit s) (L1 s) (tol s).
Definition with_d s x :=
  mkSvd (A s) (mask_matrix s) (u s) (v s) x (tol_ s) (mse_ s) (iter_ s) (best_model_ s)
        (mask s) (mask_zeros s) (symmetric s) (maxit s) (L1 s) (tol s).
Definition with_tol_ s x :=
  mkSvd (A s) (mask_matrix s) (u s) (v s) (d s) x (mse_ s) (iter_ s) (best_model_ s)
        (mask s) (mask_zeros s) (symmetric s) (maxit s) (L1 s) (tol s).
Definition with_mse_ s x :=
  mkSvd (A s) (mask_matrix s) (u s) (v s) (d s) (tol_ s) x (iter_ s) (best_model_ s)
        (mask s) (mask_zeros s) (symmetric s) (maxit s) (L1 s) (tol s).
Definition with_iter_ s x :=
  mkSvd (A s) (mask_matrix s) (u s) (v s) (d s) (tol_ s) (mse_ s) x (best_model_ s)
        (mask s) (mask_zeros s) (symmetric s) (maxit s) (L1 s) (tol s).
Definition with_best_model_ s x :=
  mkSvd (A s) (mask_matrix s) (u s) (v s) (d s) (tol_ s) (mse_ s) (iter_ s) x
        (mask s) (mask_zeros s) (symmetric s) (maxit s) (L1 s) (tol s).
Definition with_mask s x :=
  mkSvd (A s) (mask_matrix s) (u s) (v s) (d s) (tol_ s) (mse_ s) (iter_ s) (best_model_ s)
        x (mask_zeros s) (symmetric s) (maxit s) (L1 s) (tol s).
Definition with_mask_zeros s x :=
  mkSvd (A s) (mask_matrix s) (u s) (v s) (d s) (tol_ s) (mse_ s) (iter_ s) (best_model_ s)
        (mask s) x (symmetric s) (maxit s) (L1 s) (tol s).
Definition with_maxit s x :=
  mkSvd (A s) (mask_matrix s) (u s) (v s) (d s) (tol_ s) (mse_ s) (iter_ s) (best_model_ s)
        (mask s) (mask_zeros s) (symmetric s) x (L1 s) (tol s).
Definition with_symmetric s x :=
  mkSvd (A s) (mask_matrix s) (u s) (v s) (d s) (tol_ s) (mse_ s) (iter_ s) (best_model_ s)
        (mask s) (mask_zeros s) x (maxit s) (L1 s) (tol s).

End Fields.

(** *** Constructor and setters (lines 62-84) *)

Section Setters.
Context {T : Type} {BT : Backend T}.

(** The object a constructor leaves: the default member initialisers of
    lines 19-40, [d] all ones and [symmetric] as [isSymmetric()] sets it.
    [tol = 1e-4] is passed as [tol0]. *)
Definition initial_svd (a : T) (u0 v0 : MatrixXd num) (tol0 : num) : svd T :=
  mkSvd a (mkSparse 0 []) u0 v0 (repeat (of_Z 1) (mcols u0))
        (of_Z (-1)) nzero 0%nat 0%nat false false (isAppxSymmetric a)
        100%nat (nzero, nzero) tol0.

(** [svd(T& A, Eigen::MatrixXd u, Eigen::MatrixXd v)], lines 62-68.  No
    object exists when a constructor throws. *)
Definition svd_of_model (a : T) (u0 v0 : MatrixXd num) (tol0 : num) : M num unit (svd T) :=
  if negb (rows a =? mrows u0)%nat then stop "dimensions of 'u' and 'A' are not compatible" tt
  else if negb (cols a =? mrows v0)%nat then stop "dimensions of 'v' and 'A' are not compatible" tt
  else if negb (mcols u0 =? mcols v0)%nat then stop "rank of 'u' and 'v' are not equal!" tt
  else ret (initial_svd a u0 v0 tol0).

(** [maskZeros()], lines 72-75. *)
Definition maskZeros (s : svd T) : M num (svd T) (svd T) :=
  if mask s then stop "a masking function has already been specified" s
  else ret (with_mask_zeros s true).

(** [maskMatrix(m)], lines 77-84. *)
Definition maskMatrix (s : svd T) (m : SparseMatrix num) : M num (svd T) (svd T) :=
  if mask s then stop "a masking function has already been specified" s
  else if negb (sp_rows m =? rows (A s))%nat || negb (sp_cols m =? cols (A s))%nat
  then stop "dimensions of masking matrix and 'A' are not equivalent" s
  else if mask_zeros s
  then stop "you already specified to mask zeros. You cannot also supply a masking matrix." s
  else
    let s1 := with_mask_matrix (with_mask s true) m in
    ret (if symmetric s1 then with_symmetric s1 (sparse_isAppxSymmetric m) else s1).

End Setters.

(** *** The per-rank fitters of the dense backend (lines 310-475) *)

Local Abbreviation dsvd := (svd (MatrixXd num)).
Local Abbreviation MD := (M num dsvd).

(** [if (l > 0) x -= l] *)
Definition penalise (l x : num) : num := if nzero <? l then x - l else x.

(** The loop [for (; iter_ < maxit; ++iter_) { body; if (tol_ < tol) break; }]
    shared by the three fitters, here for column [k] and run with
    [fuel = maxit - iter_], the number of times its test can still succeed.
    [dn] is the local [d] of the fitter; [break] leaves [iter_] as it is.
    A body that ran to its end is recorded by [EvIter], where the source
    prints its progress line.  [Rcpp::checkUserInterrupt] is taken not to
    interrupt. *)
Fixpoint als_loop (k : nat) (body : dsvd -> MD (dsvd * num)) (fuel : nat) (dn : num) (s : dsvd)
  : MD (dsvd * num) :=
  match fuel with
  | O => ret (s, dn)
  | S fuel' =>
      sd <- body s ;;
      _ <- emit (EvIter k (S (iter_ (fst sd))) (tol_ (fst sd))) ;;
      if tol_ (fst sd) <? tol (fst sd) then ret sd
      else als_loop k body fuel' (snd sd) (with_iter_ (fst sd) (S (iter_ (fst sd))))
  end.

(** ["unscale" U]: [u.col(k) *= d] after the loop. *)
Definition unscale (k : nat) (sd : dsvd * num) : MD dsvd :=
  c <- lift (col (u (fst sd)) k) ;;
  u' <- lift (set_col (u (fst sd)) k (vscale c (snd sd))) ;;
  ret (with_u (fst sd) u').

(** The body of the loop of [fit_rank_one], lines 314-350. *)
Definition fit_rank_one_body (s : dsvd) : MD (dsvd * num) :=
  u_it <- lift (col (u s) 0) ;;
  uu <- lift (dot u_it u_it) ;;
  let a := uu + DIV_OFFSET in
  _ <- lift (col (v s) 0) ;;
  vraw <- mapM (fun i =>
            ai <- lift (col (A s) i) ;;
            x <- lift (dot u_it ai) ;;
            divide (penalise (snd (L1 s)) x) a)
          (seq 0 (mrows (v s))) ;;
  vcol <- vdivide vraw (norm vraw + DIV_OFFSET) ;;
  v' <- lift (set_col (v s) 0 vcol) ;;
  vv <- lift (dot vcol vcol) ;;
  let a := vv + DIV_OFFSET in
  uraw <- mapM (fun i =>
            ai <- lift (row (A s) i) ;;
            x <- lift (dot vcol ai) ;;
            divide (penalise (fst (L1 s)) x) a)
          (seq 0 (mrows (u s))) ;;
  let dn := norm uraw in
  ucol <- vdivide uraw (dn + DIV_OFFSET) ;;
  u' <- lift (set_col (u s) 0 ucol) ;;
  let t := cor ucol u_it in
  ret (with_tol_ (with_u (with_v s v') u') t, dn).

(** [fit_rank_one()], lines 311-359. *)
Definition fit_rank_one (s : dsvd) : MD dsvd :=
  sd <- als_loop 0 fit_rank_one_body (maxit s - iter_ s) (d_uninit 0) s ;;
  unscale 0 sd.

(** The V half of the body of [fit_rank_two], lines 367-376: the entries of
    column 1 of [v] before scaling. *)
Definition rank_two_update_v (s : dsvd) : MD (Vector num) :=
  u1 <- lift (col (u s) 1) ;;
  u0 <- lift (col (u s) 0) ;;
  x0 <- lift (dot u1 u0) ;;
  let a0 := x0 + DIV_OFFSET in
  x1 <- lift (dot u1 u1) ;;
  let a1 := x1 + DIV_OFFSET in
  _ <- lift (col (v s) 1) ;;
  mapM (fun i =>
          ai <- lift (col (A s) i) ;;
          x <- lift (dot u1 ai) ;;
          u0i <- lift (nth_error u0 i) ;;
          divide (penalise (snd (L1 s)) (x - u0i * a0)) a1)
       (seq 0 (mrows (v s))).

(** The U half, lines 381-390, on the object whose [v] is already updated. *)
Definition rank_two_update_u (s : dsvd) : MD (Vector num) :=
  v1 <- lift (col (v s) 1) ;;
  v0 <- lift (col (v s) 0) ;;
  y0 <- lift (dot v1 v0) ;;
  let a0 := y0 + DIV_OFFSET in
  y1 <- lift (dot v1 v1) ;;
  let a1 := y1 + DIV_OFFSET in
  _ <- lift (col (u s) 1) ;;
  mapM (fun i =>
          ai <- lift (row (A s) i) ;;
          x <- lift (dot v1 ai) ;;
          v0i <- lift (nth_error v0 i) ;;
          divide (penalise (fst (L1 s)) (x - v0i * a0)) a1)
       (seq 0 (mrows (u s))).

(** The body of the loop of [fit_rank_two], lines 365-401. *)
Definition fit_rank_two_body (s : dsvd) : MD (dsvd * num) :=
  u_it <- lift (col (u s) 1) ;;
  vraw <- rank_two_update_v s ;;
  vcol <- vdivide vraw (norm vraw + DIV_OFFSET) ;;
  v' <- lift (set_col (v s) 1 vcol) ;;
  let s1 := with_v s v' in
  uraw <- rank_two_update_u s1 ;;
  let dn := norm uraw in
  ucol <- vdivide uraw (dn + DIV_OFFSET) ;;
  u' <- lift (set_col (u s1) 1 ucol) ;;
  let t := cor ucol u_it in
  ret (with_tol_ (with_u s1 u') t, dn).

(** [fit_rank_two()], lines 362-410. *)
Definition fit_rank_two (s : dsvd) : MD dsvd :=
  sd <- als_loop 1 fit_rank_two_body (maxit s - iter_ s) (d_uninit 1) s ;;
  unscale 1 sd.

(** The inner loop [for (_k = k-1; _k >= 0; --_k) x -= w.dot(p.col(_k)) * q.col(_k)(i)]
    of [fit_rank_k], lines 427-430 and 449-452. *)
Definition deflate (k i : nat) (w : Vector num) (p q : MatrixXd num) (x : num) : MD num :=
  foldM (fun x _k =>
           pk <- lift (col p _k) ;;
           c <- lift (dot w pk) ;;
           qk <- lift (col q _k) ;;
           qki <- lift (nth_error qk i) ;;
           ret (x - c * qki))
        (rev (seq 0 k)) x.

(** The body of the loop of [fit_rank_k(k)], lines 417-466. *)
Definition fit_rank_k_body (k : nat) (s : dsvd) : MD (dsvd * num) :=
  u_it <- lift (col (u s) k) ;;
  uu <- lift (dot u_it u_it) ;;
  let a := uu + DIV_OFFSET in
  _ <- lift (col (v s) k) ;;
  vraw <- mapM (fun i =>
            ai <- lift (col (A s) i) ;;
            x <- lift (dot u_it ai) ;;
            x <- deflate k i u_it (u s) (v s) (penalise (snd (L1 s)) x) ;;
            divide x a)
          (seq 0 (mrows (v s))) ;;
  uu' <- lift (dot u_it u_it) ;;
  vraw' <- vdivide vraw (uu' + DIV_OFFSET) ;;
  vcol <- vdivide vraw' (norm vraw' + DIV_OFFSET) ;;
  v' <- lift (set_col (v s) k vcol) ;;
  vv <- lift (dot vcol vcol) ;;
  let a := vv + DIV_OFFSET in
  uraw <- mapM (fun i =>
            ai <- lift (row (A s) i) ;;
            x <- lift (dot vcol ai) ;;
            x <- deflate k i vcol v' (u s) (penalise (fst (L1 s)) x) ;;
            divide x a)
          (seq 0 (mrows (u s))) ;;
  let dn := norm uraw in
  ucol <- vdivide uraw (dn + DIV_OFFSET) ;;
  u' <- lift (set_col (u s) k ucol) ;;
  let t := cor ucol u_it in
  ret (with_tol_ (with_u (with_v s v') u') t, dn).

(** [fit_rank_k(k)], lines 413-475. *)
Definition fit_rank_k (k : nat) (s : dsvd) : MD dsvd :=
  sd <- als_loop k (fit_rank_k_body k) (maxit s - iter_ s) (d_uninit k) s ;;
  unscale k sd.

(** *** [fit], lines 112-126 *)

(** The dispatch of lines 116-118. *)
Definition fit_rank (k : nat) (s : dsvd) : MD dsvd :=
  match k with
  | 0 => fit_rank_one s
  | 1 => fit_rank_two s
  | _ => fit_rank_k k s
  end.

(** The first loop, over the columns [ks]. *)
Fixpoint fit_ranks (ks : list nat) (s : dsvd) : MD dsvd :=
  match ks with
  | [] => ret s
  | k :: ks' => s' <- fit_rank k s ;; fit_ranks ks' s'
  end.

(** One turn of the second loop: [d(i) = u.col(i).norm(); u.col(i) /= d(i)]. *)
Definition diagonal_step (i : nat) (s : dsvd) : MD dsvd :=
  c <- lift (col (u s) i) ;;
  d' <- lift (set_nth (d s) i (norm c)) ;;
  c' <- vdivide c (norm c) ;;
  u' <- lift (set_col (u s) i c') ;;
  ret (with_u (with_d s d') u').

Fixpoint fit_diagonal (idx : list nat) (s : dsvd) : MD dsvd :=
  match idx with
  | [] => ret s
  | i :: idx' => s' <- diagonal_step i s ;; fit_diagonal idx' s'
  end.

Definition fit (s : dsvd) : MD dsvd :=
  s1 <- fit_ranks (seq 0 (mcols (u s))) s ;;
  fit_diagonal (seq 0 (mcols (u s1))) s1.

(** *** The loss evaluators (lines 174-308) *)

Definition square (x : num) : num := x * x.

(** The mask part of lines 191-195 and 234-242: [uv_i(m[it]) = 0] for the
    masked rows of column [i]. *)
Definition zero_masked {T} (s : svd T) (i : nat) (uv : Vector num) : M num (svd T) (Vector num) :=
  if mask s then
    m <- lift (InnerIndices (mask_matrix s) i) ;;
    foldM (fun uv r => lift (set_nth uv r nzero)) m uv
  else ret uv.

(** The divisor of lines 201-205 and 250-258; [nz] is the count of the
    [mask_zeros] branch. *)
Definition mse_divisor {T} (s : svd T) (nz : nat) : num :=
  if mask s
  then of_Z (Z.of_nat (mcols (v s) * mcols (u s)) - Z.of_nat (sp_nnz (mask_matrix s)))
  else if mask_zeros s then of_Z (Z.of_nat nz)
  else of_Z (Z.of_nat (mcols (v s) * mcols (u s))).

(** One turn of the loop of the dense [mse()], lines 219-246. *)
Definition column_loss_dense (s : dsvd) (u0 : MatrixXd num) (i : nat) : MD num :=
  vi <- lift (col (v s) i) ;;
  uv_i <- lift (matvec u0 vi) ;;
  if mask_zeros s then
    foldM (fun loss iter =>
             a <- lift (coeff (A s) iter i) ;;
             if negb (neqb a nzero)
             then x <- lift (nth_error uv_i iter) ;; ret (loss + square (x - a))
             else ret loss)
          (seq 0 (mrows (A s))) (losses_uninit i)
  else
    uv <- foldM (fun uv iter =>
                   x <- lift (nth_error uv iter) ;;
                   a <- lift (coeff (A s) iter i) ;;
                   lift (set_nth uv iter (x - a)))
                (seq 0 (mrows (A s))) uv_i ;;
    uv <- zero_masked s i uv ;;
    ret (losses_uninit i + sum_squares uv).

(** [svd<Eigen::MatrixXd>::mse()], lines 209-259. *)
Definition mse_dense (s : dsvd) : MD num :=
  u0 <- lift (transpose (u s)) ;;
  losses <- mapM (column_loss_dense s u0) (seq 0 (mcols (v s))) ;;
  divide (vsum losses) (mse_divisor s (n_nonzeros (A s))).

Local Abbreviation ssvd := (svd (SparseMatrix num)).
Local Abbreviation MS := (M num ssvd).

(** One turn of the loop of the sparse [mse()], lines 183-198. *)
Definition column_loss_sparse (s : ssvd) (u0 : MatrixXd num) (i : nat) : MS num :=
  vi <- lift (col (v s) i) ;;
  uv_i <- lift (matvec u0 vi) ;;
  it <- lift (InnerIterator (A s) i) ;;
  if mask_zeros s then
    foldM (fun loss p =>
             x <- lift (nth_error uv_i (fst p)) ;; ret (loss + square (x - snd p)))
          it (losses_uninit i)
  else
    uv <- foldM (fun uv p =>
                   x <- lift (nth_error uv (fst p)) ;;
                   lift (set_nth uv (fst p) (x - snd p)))
                it uv_i ;;
    uv <- zero_masked s i uv ;;
    ret (losses_uninit i + sum_squares uv).

(** [svd<Rcpp::SparseMatrix>::mse()], lines 175-206. *)
Definition mse_sparse (s : ssvd) : MS num :=
  u0 <- lift (transpose (u s)) ;;
  losses <- mapM (column_loss_sparse s u0) (seq 0 (mcols (v s))) ;;
  divide (vsum losses) (mse_divisor s (sp_nnz (A s))).

(** [u0.row(r) * v.col(i)], the product of a row by a column. *)
Definition row_times_col {T} (s : svd T) (u0 : MatrixXd num) (r i : nat) : M num (svd T) num :=
  ur <- lift (row u0 r) ;;
  vi <- lift (col (v s) i) ;;
  lift (dot ur vi).

(** [svd<Eigen::MatrixXd>::mse_masked()], lines 291-308. *)
Definition mse_masked_dense (s : dsvd) : MD num :=
  if negb (mask s)
  then stop "'mse_masked' can only be run when a masking matrix has been specified" s
  else
    u0 <- lift (transpose (u s)) ;;
    losses <- mapM (fun i =>
                m <- lift (InnerIndices (mask_matrix s) i) ;;
                foldM (fun loss r =>
                         x <- row_times_col s u0 r i ;;
                         a <- lift (coeff (A s) r i) ;;
                         ret (loss + square (x - a)))
                      m (losses_uninit i))
              (seq 0 (mcols (v s))) ;;
    divide (vsum losses) (of_Z (Z.of_nat (sp_nnz (mask_matrix s)))).

(** [svd<Rcpp::SparseMatrix>::mse_masked()], lines 262-288. *)
Definition mse_masked_sparse (s : ssvd) : MS num :=
  if negb (mask s)
  then stop "'mse_masked' can only be run when a masking matrix has been specified" s
  else
    u0 <- lift (transpose (u s)) ;;
    losses <- mapM (fun i =>
                m <- lift (InnerIndices (mask_matrix s) i) ;;
                if (0 <? length m)%nat then
                  it <- lift (InnerIteratorInRange (A s) i m) ;;
                  loss <- foldM (fun loss p =>
                                   x <- row_times_col s u0 (fst p) i ;;
                                   ret (loss + square (x - snd p)))
                                it (losses_uninit i) ;;
                  zero_rows <- lift (emptyInnerIndices (A s) i) ;;
                  foldM (fun loss r =>
                           x <- row_times_col s u0 r i ;;
                           ret (loss + square x))
                        (set_intersection zero_rows m) loss
                else ret (losses_uninit i))
              (seq 0 (mcols (v s))) ;;
    divide (vsum losses) (of_Z (Z.of_nat (sp_nnz (mask_matrix s)))).

(** *** [fit_restarts], lines 131-160 *)

(** The locals [u_best], [v_best], [tol_best], [mse_best]. *)
Record best := mkBest {
  u_best : MatrixXd num;
  v_best : MatrixXd num;
  tol_best : num;
  mse_best : num
}.

(** Lines 138-140: [u = u_init[i]; tol_ = 1; iter_ = 0]. *)
Definition restart_reset (s : dsvd) (c : MatrixXd num) : dsvd :=
  with_iter_ (with_tol_ (with_u s c) (of_Z 1)) 0.

(** Lines 138-144: the candidate installed and the counters reset, the two
    checks, the fit and its loss. *)
Definition restart_fit (s : dsvd) (c : MatrixXd num) : MD dsvd :=
  let s1 := restart_reset s c in
  if negb (mrows (u s1) =? mrows (v s1))%nat
  then stop "rank of 'u' is not equal to rank of 'v'" s1
  else if negb (mcols (u s1) =? mrows (A s1))%nat
  then stop "dimensions of 'u' and 'A' are not compatible" s1
  else
    s2 <- fit s1 ;;
    m <- mse_dense s2 ;;
    ret (with_mse_ s2 m).

(** The loop of lines 136-153 from index [i] on.  Besides the object and
    the locals it yields the history of the call: the object as each turn
    has it after line 144, in order.  The history is not a variable of the
    source; the statements about the restarts are made on it. *)
Fixpoint restarts_loop (i : nat) (cs : list (MatrixXd num)) (s : dsvd) (b : best)
  : MD (dsvd * best * list dsvd) :=
  match cs with
  | [] => ret (s, b, [])
  | c :: cs' =>
      s' <- restart_fit s c ;;
      r <- (if (i =? 0)%nat || (mse_ s' <? mse_best b)
            then restarts_loop (S i) cs' (with_best_model_ s' i)
                               (mkBest (u s') (v s') (tol_ s') (mse_ s'))
            else restarts_loop (S i) cs' s' b) ;;
      ret (fst r, s' :: snd r)
  end.

(** Lines 155-158. *)
Definition restore (s : dsvd) (b : best) : dsvd :=
  with_mse_ (with_tol_ (with_v (with_u s (u_best b)) (v_best b)) (tol_best b)) (mse_best b).

(** [fit_restarts(u_init)] with the history of its loop. *)
Definition fit_restarts_runs (s : dsvd) (u_init : list (MatrixXd num))
  : MD (dsvd * list dsvd) :=
  r <- restarts_loop 0 u_init s (mkBest (u s) (v s) (tol_ s) nzero) ;;
  let s' := fst (fst r) in
  if (Z.of_nat (best_model_ s') =? Z.of_nat (length u_init) - 1)%Z
  then ret (s', snd r)
  else ret (restore s' (snd (fst r)), snd r).

(** [fit_restarts(u_init)], lines 131-160. *)
Definition fit_restarts (s : dsvd) (u_init : list (MatrixXd num)) : MD dsvd :=
  r <- fit_restarts_runs s u_init ;; ret (fst r).

End Object.

Arguments svd num T : clear implicits.
Arguments best num : clear implicits.
Arguments mkSvd {num T}.
Arguments A {num T}.
Arguments mask_matrix {num T}.
Arguments u {num T}.
Arguments v {num T}.
Arguments d {num T}.
Arguments tol_ {num T}.
Arguments mse_ {num T}.
Arguments iter_ {num T}.
Arguments best_model_ {num T}.
Arguments mask {num T}.
Arguments mask_zeros {num T}.
Arguments symmetric {num T}.
Arguments maxit {num T}.
Arguments L1 {num T}.
Arguments tol {num T}.
Arguments mkBest {num}.
Arguments u_best {num}.
Arguments v_best {num}.
Arguments tol_best {num}.
Arguments mse_best {num}.

(** ** The other constructors (lines 46-59) *)

Section Constructors.
Context {num : Type} {SC : Scalar num} {EX : Externals num} {T : Type} {BT : Backend T}.

(** [Eigen::MatrixXd(r, c)]: Eigen allocates the coefficients and assigns
    nothing to them.  [mem i j] is what entry [(i, j)] of the storage
    holds. *)
Definition uninitialised (mem : nat -> nat -> num) (r c : nat) : MatrixXd num :=
  mkMatrix r (map (fun j => map (fun i => mem i j) (seq 0 r)) (seq 0 c)).

(** [svd(T& A, Eigen::MatrixXd u)], lines 54-59. *)
Definition svd_of_u (mem : nat -> nat -> num) (a : T) (u0 : MatrixXd num) (tol0 : num)
  : M num unit (svd num T) :=
  if negb (rows a =? mrows u0)%nat then stop "number of rows in 'A' and 'u' are not equal!" tt
  else ret (initial_svd a u0 (uninitialised mem (cols a) (mcols u0)) tol0).

(** [svd(T& A, const unsigned int k, const unsigned int seed)], lines 46-51.
    [random] is [randomMatrix], which is declared outside this file. *)
Definition svd_of_rank (random : nat -> nat -> nat -> MatrixXd num) (mem : nat -> nat -> num)
           (a : T) (k seed : nat) (tol0 : num) : svd num T :=
  with_d (initial_svd a (random (rows a) k seed) (uninitialised mem (cols a) k) tol0)
         (repeat (of_Z 1) k).

End Constructors.

(** ** Concrete settings *)

Section Pearson.
Context {num : Type} {SC : Scalar num}.
Local Open Scope num_scope.

(** Modelled from the spec: [cor] is declared outside this file.  The spec
    (4.1) has it return the Pearson correlation coefficient of the two
    vectors. *)
Definition pearson (x y : Vector num) : num :=
  let n := of_Z (Z.of_nat (length x)) in
  let sx := vsum x in
  let sy := vsum y in
  let sxy := dot_acc x y in
  let sxx := sum_squares x in
  let syy := sum_squares y in
  (n * sxy - sx * sy) / nsqrt ((n * sxx - sx * sx) * (n * syy - sy * sy)).

End Pearson.

(** The setting of the evaluations on doubles: [cor] is [pearson], and the
    storage read before it is assigned holds zeros. *)
#[export] Instance float_externals : Externals float := {|
  cor := pearson;
  dense_isAppxSymmetric := fun _ => false;
  sparse_isAppxSymmetric := fun _ => false;
  d_uninit := fun _ => 0%float;
  losses_uninit := fun _ => 0%float
|}.

(** The same setting with [cor] read as a distance, one minus the
    correlation: the reading under which the exit test [tol_ < tol] of the
    fitters means that the estimate has settled (the specification, 4.1 and
    9, leaves the two readings open). *)
Definition float_externals_distance : Externals float := {|
  cor := fun x y => PrimFloat.sub 1 (pearson x y);
  dense_isAppxSymmetric := fun _ => false;
  sparse_isAppxSymmetric := fun _ => false;
  d_uninit := fun _ => 0%float;
  losses_uninit := fun _ => 0%float
|}.

(** A third setting of the doubles, in which the unassigned array [losses]
    holds zero in its first two entries and one beyond. *)
Definition float_externals_other : Externals float := {|
  cor := pearson;
  dense_isAppxSymmetric := fun _ => false;
  sparse_isAppxSymmetric := fun _ => false;
  d_uninit := fun _ => 0%float;
  losses_uninit := fun i => if (i <? 2)%nat then 0%float else 1%float
|}.

(** The setting of the statements in exact arithmetic that are run on an
    input: the unassigned local [d] holds one. *)
#[export] Instance real_externals : Externals R := {|
  cor := pearson;
  dense_isAppxSymmetric := fun _ => false;
  sparse_isAppxSymmetric := fun _ => false;
  d_uninit := fun _ => 1%R;
  losses_uninit := fun _ => 0%R
|}.

(** ** The quantities the specification names *)

Section Reference.
Context {num : Type} {SC : Scalar num}.
Local Open Scope num_scope.

(** Entry [(i, j)] of the reconstruction U diag(D) V^T of the specification
    (4.5): the sum over the components [l] of [U(i,l) * D(l) * V(j,l)]. *)
Definition reconstruction {T} (s : svd num T) (i j : nat) : option num :=
  ui <-? row (u s) i ;;
  vj <-? row (v s) j ;;
  if ((length ui =? length (d s)) && (length ui =? length vj))%nat
  then Some (fold_left (fun acc p => acc + fst (fst p) * snd (fst p) * snd p)
                       (combine (combine ui (d s)) vj) nzero)
  else None.

(** The sum over the listed entries of [(reconstruction - actual)^2]. *)
Definition squared_error {T} (s : svd num T) (actual : nat -> nat -> option num)
           (entries : list (nat * nat)) : option num :=
  errs <-? omap (fun ij => r <-? reconstruction s (fst ij) (snd ij) ;;
                           a <-? actual (fst ij) (snd ij) ;;
                           Some (square (r - a))) entries ;;
  Some (vsum errs).

(** All the entries of an [m] by [n] matrix, column after column. *)
Definition all_entries (m n : nat) : list (nat * nat) :=
  flat_map (fun j => map (fun i => (i, j)) (seq 0 m)) (seq 0 n).

(** [A(i, j)] of a sparse matrix: the stored value, zero where none is. *)
Definition sp_coeff (m : SparseMatrix num) (i j : nat) : option num :=
  c <-? InnerIterator m j ;;
  if (i <? sp_rows m)%nat
  then Some (match find (fun p => (fst p =? i)%nat) c with
             | Some p => snd p
             | None => nzero
             end)
  else None.

(** The entries a mask matrix lists. *)
Definition masked_entries (m : SparseMatrix num) : list (nat * nat) :=
  flat_map (fun jc => map (fun p => (fst p, fst jc)) (snd jc))
           (combine (seq 0 (sp_cols m)) (sp_data m)).

(** The unmasked loss as the specification words it: the squared error
    over all the entries of [A], divided by rows(V) * cols(U). *)
Definition mse_spec_dense (s : svd num (MatrixXd num)) : option num :=
  e <-? squared_error s (coeff (A s)) (all_entries (mrows (A s)) (mcols (A s))) ;;
  Some (e / of_Z (Z.of_nat (mrows (v s) * mcols (u s)))).

Definition mse_spec_sparse (s : svd num (SparseMatrix num)) : option num :=
  e <-? squared_error s (sp_coeff (A s)) (all_entries (sp_rows (A s)) (sp_cols (A s))) ;;
  Some (e / of_Z (Z.of_nat (mrows (v s) * mcols (u s)))).

(** The masked loss as the specification words it: the squared error over
    the masked entries, divided by their number. *)
Definition mse_masked_spec_dense (s : svd num (MatrixXd num)) : option num :=
  e <-? squared_error s (coeff (A s)) (masked_entries (mask_matrix s)) ;;
  Some (e / of_Z (Z.of_nat (sp_nnz (mask_matrix s)))).

Definition mse_masked_spec_sparse (s : svd num (SparseMatrix num)) : option num :=
  e <-? squared_error s (sp_coeff (A s)) (masked_entries (mask_matrix s)) ;;
  Some (e / of_Z (Z.of_nat (sp_nnz (mask_matrix s)))).

(** The V half of the rank-2 update as the specification words it (4.3):
    entry [i] subtracts [(dot(U col 1, U col 0) + eps) * V(i, 0)]. *)
Definition rank_two_update_v_spec (s : svd num (MatrixXd num)) : option (Vector num) :=
  u1 <-? col (u s) 1 ;;
  u0 <-? col (u s) 0 ;;
  v0 <-? col (v s) 0 ;;
  x0 <-? dot u1 u0 ;;
  x1 <-? dot u1 u1 ;;
  omap (fun i =>
          ai <-? col (A s) i ;;
          x <-? dot u1 ai ;;
          v0i <-? nth_error v0 i ;;
          Some (penalise (snd (L1 s)) (x - (x0 + DIV_OFFSET) * v0i) / (x1 + DIV_OFFSET)))
       (seq 0 (mrows (v s))).

(** The U half as the specification words it: entry [i] subtracts
    [(dot(V col 1, V col 0) + eps) * U(i, 0)]. *)
Definition rank_two_update_u_spec (s : svd num (MatrixXd num)) : option (Vector num) :=
  v1 <-? col (v s) 1 ;;
  v0 <-? col (v s) 0 ;;
  u0 <-? col (u s) 0 ;;
  y0 <-? dot v1 v0 ;;
  y1 <-? dot v1 v1 ;;
  omap (fun i =>
          ai <-? row (A s) i ;;
          x <-? dot v1 ai ;;
          u0i <-? nth_error u0 i ;;
          Some (penalise (fst (L1 s)) (x - (y0 + DIV_OFFSET) * u0i) / (y1 + DIV_OFFSET)))
       (seq 0 (mrows (u s))).

End Reference.

(** ** Inputs of the evaluations on doubles *)

Module Inputs.
Local Open Scope float_scope.

Definition fmatrix := MatrixXd float.
Definition fsparse := SparseMatrix float.

(** The binary64 value nearest to the default [tol = 1e-4]. *)
Definition tol_default : float := 0x1.a36e2eb1c432dp-14.

(** A dense object as the constructor leaves it, with [maxit] set. *)
Definition dense_model (a u0 v0 : fmatrix) (n : nat) : svd float fmatrix :=
  with_maxit (initial_svd a u0 v0 tol_default) n.

Definition sparse_model (a : fsparse) (u0 v0 : fmatrix) : svd float fsparse :=
  initial_svd a u0 v0 tol_default.

(** A 2 by 2 matrix [[a, b], [c, d]] given by its rows. *)
Definition m22 (a b c e : float) : fmatrix := mkMatrix 2 [[a; c]; [b; e]].

(** A column of two entries as a 2 by 1 matrix. *)
Definition c2 (a b : float) : fmatrix := mkMatrix 2 [[a; b]].

(** [A = U V^T] exactly, with [U = [[1, 1], [0, 0]]] and [V] the identity:
    a full-rank model of a square matrix. *)
Definition exact_model : svd float fmatrix :=
  dense_model (m22 1 1 0 0) (m22 1 1 0 0) (m22 1 0 0 1) 100.

Definition exact_model_sparse : svd float fsparse :=
  sparse_model (mkSparse 2 [[(0%nat, 1)]; [(0%nat, 1)]]) (m22 1 1 0 0) (m22 1 0 0 1).

(** A rank-1 model of a 2 by 2 matrix: [U = (1, 2)] and [V = (1, 0)] are
    2 by 1 and [A = U V^T = [[1, 0], [2, 0]]]. *)
Definition rank1_model : svd float fmatrix :=
  dense_model (m22 1 0 2 0) (c2 1 2) (c2 1 0) 100.

Definition rank1_model_sparse : svd float fsparse :=
  sparse_model (mkSparse 2 [[(0%nat, 1); (1%nat, 2)]; []]) (c2 1 2) (c2 1 0).

(** A rank-1 model [U = V = (1, 1)] of the all-ones matrix, entry (0, 0)
    masked. *)
Definition mask00 : fsparse := mkSparse 2 [[(0%nat, 1)]; []].

Definition ones_masked : svd float fmatrix :=
  with_mask_matrix (with_mask (dense_model (m22 1 1 1 1) (c2 1 1) (c2 1 1) 100) true) mask00.

(** The same with a sparse [A] whose entry (0, 0) is not stored. *)
Definition ones_masked_sparse : svd float fsparse :=
  with_mask_matrix
    (with_mask (sparse_model (mkSparse 2 [[(1%nat, 1)]; [(0%nat, 1); (1%nat, 1)]])
                             (c2 1 1) (c2 1 1)) true) mask00.



(** The identity with two components. *)
Definition two_columns : svd float fmatrix :=
  dense_model (m22 1 0 0 1) (m22 1 1 0 1) (m22 0 0 1 0) 1.

(** The identity with the columns of [u] and [v] exchanged. *)
Definition two_columns_swapped : svd float fmatrix :=
  dense_model (m22 1 0 0 1) (m22 0 0 1 0) (m22 1 1 0 1) 1.

(** A 1 by 2 matrix with two components. *)
Definition wide_model : svd float fmatrix :=
  dense_model (mkMatrix 1 [[1]; [1]]) (mkMatrix 1 [[1]; [1]]) (m22 1 0 1 0) 1.

(** The zero matrix, one component, one iteration. *)
Definition zero_model : svd float fmatrix :=
  dense_model (m22 0 0 0 0) (c2 1 2) (c2 0 0) 1.


(** diag(2, 1) with two components and a budget of one iteration. *)
Definition budget_model : svd float fmatrix :=
  dense_model (m22 2 0 0 1) (m22 1 1 2 2) (m22 0 0 0 0) 1.

(** The same from columns (2, 1), (1, 2) of [u]. *)
Definition budget_model_aligned : svd float fmatrix :=
  dense_model (m22 2 0 0 1) (m22 2 1 1 2) (m22 0 0 0 0) 1.

(** A full-rank model of diag(2, 1) and candidates for a restart. *)
Definition square_model (n : nat) : svd float fmatrix :=
  dense_model (m22 2 0 0 1) (m22 1 1 2 2) (m22 0 0 0 0) n.

Definition candidates : list fmatrix :=
  [m22 1 2 3 4; m22 1 1 2 2; m22 1 1 2 2; m22 1 2 3 4].


(** Over the reals: the 2 by 1 model [U = (3, 4)] of the zero matrix, with
    no iteration allowed. *)
Definition real_model : svd R (MatrixXd R) :=
  with_maxit (initial_svd (mkMatrix 2 [[0; 0]; [0; 0]]%R) (mkMatrix 2 [[3; 4]]%R)
                          (mkMatrix 2 [[0; 0]]%R) (1 / 10000)%R) 0.

End Inputs.

(** ** Inputs of other shapes *)

Module Shapes.

(** A rank-1 model of a 3 by 2 matrix, five iterations allowed. *)
Definition tall_model : svd float (MatrixXd float) :=
  Inputs.dense_model (mkMatrix 3 [[1; 2; 3]; [4; 5; 6]]%float) (mkMatrix 3 [[1; 1; 1]]%float)
                     (mkMatrix 2 [[0; 0]]%float) 5.


(** The full-rank model of a sparse 2 by 2 matrix with zeros masked. *)
Definition zeros_masked : svd float (SparseMatrix float) :=
  with_mask_zeros Inputs.exact_model_sparse true.

(** Over the reals: a full-rank model of the sparse 2 by 2 matrix with
    the entries (0, 0) = 1 and (0, 1) = 1. *)
Definition real_sparse : svd R (SparseMatrix R) :=
  initial_svd (mkSparse 2 [[(0, 1%R)]; [(0, 1%R)]])
              (mkMatrix 2 [[1; 0]; [1; 0]]%R) (mkMatrix 2 [[1; 0]; [0; 1]]%R) (1 / 10000)%R.

End Shapes.

(** * The vocabulary of the statements *)

Section TraceVocabulary.
Context {num St : Type}.
Implicit Type P : event num -> Prop.

(** [emits P m]: every event of [m] satisfies [P]. *)
Definition emits P {X} (m : M num St X) : Prop := Forall P (trace m).

(** [m] does not end in [Rcpp::stop]. *)
Definition no_stop {X} (m : M num St X) : Prop :=
  forall msg st, result m <> Stop msg st.

(** No event of the trace is a loop body. *)
Definition no_iter (e : event num) : Prop := is_iter e = false.

(** The loop bodies of a trace are numbered within [(lo, hi]]. *)
Definition numbered (lo hi : nat) (e : event num) : Prop :=
  match e with EvIter _ n _ => lo < n <= hi | EvDiv _ => True end.

End TraceVocabulary.

Section FitVocabulary.
Context {num : Type} {SC : Scalar num} {EX : Externals num}.
Local Abbreviation dsvd := (svd num (MatrixXd num)).
Local Abbreviation MD := (M num dsvd).

(** What no method of the fit changes: the input matrix, [best_model_],
    [maxit] and the row count of [v]. *)
Definition frame (s s' : dsvd) : Prop :=
  A s' = A s /\ best_model_ s' = best_model_ s /\ maxit s' = maxit s
  /\ mrows (v s') = mrows (v s).

(** What a fitter does to the iteration counter and how many bodies it
    runs. *)
Definition fitter_spec (m : dsvd -> MD dsvd) : Prop :=
  forall s,
    Forall (numbered (iter_ s) (maxit s)) (trace (m s))
    /\ iterations (trace (m s)) <= maxit s - iter_ s
    /\ forall s', result (m s) = Ok s' ->
         frame s s'
         /\ iter_ s <= iter_ s'
         /\ (iter_ s <= maxit s -> iter_ s' <= maxit s)
         /\ iterations (trace (m s)) <= iter_ s' - iter_ s + 1.

(** The candidate passes the two checks of lines 141-142. *)
Definition accepted (s : dsvd) (c : MatrixXd num) : Prop :=
  mrows c = mrows (v s) /\ mcols c = mrows (A s).

(** What lines 143-144 do with an accepted candidate. *)
Definition fit_and_score (s : dsvd) (c : MatrixXd num) : M num dsvd dsvd :=
  s2 <- fit (restart_reset s c) ;;
  m <- mse_dense s2 ;;
  ret (with_mse_ s2 m).

(** The loop gets through the candidates [pre] of [s] and holds [s1]. *)
Definition restarts_reach (s : dsvd) (pre : list (MatrixXd num)) (s1 : dsvd) : Prop :=
  exists b h,
    result (restarts_loop 0 pre s (mkBest (u s) (v s) (tol_ s) nzero)) = Ok (s1, b, h).

(** What the loop keeps of a restart when it selects it (lines 148-151). *)
Definition snapshot (s : dsvd) : best num := mkBest (u s) (v s) (tol_ s) (mse_ s).

(** [rs] is the history of restarting from [cs] on [s]: every candidate
    passes the checks and is fitted from the counters reset, the fit is
    scored by [mse], and the next turn starts from the object so obtained,
    whose [best_model_] the selection may have set. *)
Fixpoint restart_chain (s : dsvd) (cs : list (MatrixXd num)) (rs : list dsvd) : Prop :=
  match cs, rs with
  | [], [] => True
  | c :: cs', r :: rs' =>
      accepted s c
      /\ (exists s2 m, result (fit (restart_reset s c)) = Ok s2
                       /\ result (mse_dense s2) = Ok m /\ r = with_mse_ s2 m)
      /\ exists bm, restart_chain (with_best_model_ r bm) cs' rs'
  | _, _ => False
  end.


(** The selection of lines 146-152 read off a history. *)
Fixpoint select (i : nat) (rs : list dsvd) (bm : nat) (b : best num) : nat * best num :=
  match rs with
  | [] => (bm, b)
  | r :: rs' =>
      if (i =? 0) || nltb (mse_ r) (mse_best b)
      then select (S i) rs' i (snapshot r)
      else select (S i) rs' bm b
  end.


End FitVocabulary.

(** ** Shapes, outcomes and setter calls *)

Section ShapeVocabulary.
Context {num : Type} {SC : Scalar num} {EX : Externals num}.
Local Abbreviation dsvd := (svd num (MatrixXd num)).
Local Abbreviation ssvd := (svd num (SparseMatrix num)).

(** Every column of the matrix has [mrows] entries, as every
    [Eigen::MatrixXd] has. *)
Definition wf_matrix (m : MatrixXd num) : Prop :=
  Forall (fun c => length c = mrows m) (mdata m).

(** The shapes the class relies on: [u] is rows(A) by k, [v] is cols(A) by
    k and [d] has k entries. *)
Definition shaped {T} {BT : Backend T} (s : svd num T) : Prop :=
  wf_matrix (u s) /\ wf_matrix (v s)
  /\ mrows (u s) = rows (A s) /\ mrows (v s) = cols (A s)
  /\ mcols (u s) = mcols (v s) /\ length (d s) = mcols (u s).

(** A dense object of these shapes: a rank-[k] model of an [m] by [n]
    matrix. *)
Definition model_of (m n k : nat) (s : dsvd) : Prop :=
  wf_matrix (A s) /\ mrows (A s) = m /\ mcols (A s) = n
  /\ wf_matrix (u s) /\ mrows (u s) = m /\ mcols (u s) = k
  /\ wf_matrix (v s) /\ mrows (v s) = n /\ mcols (v s) = k
  /\ length (d s) = k.

(** What [fit] leaves as it is: the input, the masking state and the
    settings, the stored loss and [best_model_]. *)
Definition settings_kept {T} (s s' : svd num T) : Prop :=
  A s' = A s /\ mask_matrix s' = mask_matrix s /\ mask s' = mask s
  /\ mask_zeros s' = mask_zeros s /\ symmetric s' = symmetric s
  /\ maxit s' = maxit s /\ L1 s' = L1 s /\ tol s' = tol s
  /\ mse_ s' = mse_ s /\ best_model_ s' = best_model_ s.

(** The sizes of the factors and of [d] are the same. *)
Definition shapes_kept {T} (s s' : svd num T) : Prop :=
  mrows (u s') = mrows (u s) /\ mcols (u s') = mcols (u s)
  /\ mrows (v s') = mrows (v s) /\ mcols (v s') = mcols (v s)
  /\ length (d s') = length (d s).

(** What [fit] keeps. *)
Definition kept (s s' : dsvd) : Prop := settings_kept s s' /\ shapes_kept s s'.

(** All the columns but [k] of [u] and of [v], and [d], are the same. *)
Definition others_kept (k : nat) (s s' : dsvd) : Prop :=
  (forall j, j <> k -> col (u s') j = col (u s) j /\ col (v s') j = col (v s) j)
  /\ d s' = d s.

(** How a loop was left: by [break], the exit test passed and the count
    below [hi], or with the count at [hi]. *)
Definition left_at (hi : nat) (s : dsvd) : Prop :=
  (nltb (tol_ s) (tol s) = true /\ iter_ s < hi) \/ iter_ s = hi.

(** The locals of [fit_restarts] hold factors of a rank-[n] model of an
    [n] by [n] matrix. *)
Definition best_of (n : nat) (b : best num) : Prop :=
  wf_matrix (u_best b) /\ mrows (u_best b) = n /\ mcols (u_best b) = n
  /\ wf_matrix (v_best b) /\ mrows (v_best b) = n /\ mcols (v_best b) = n.

(** The stored entries of a sparse matrix lie within its rows. *)
Definition sparse_in_range (m : SparseMatrix num) : Prop :=
  Forall (Forall (fun p : nat * num => fst p < sp_rows m)) (sp_data m).

(** A mask matrix, when one is set, has the dimensions of [A]. *)
Definition mask_fits {T} {BT : Backend T} (s : svd num T) : Prop :=
  mask s = true ->
  sp_rows (mask_matrix s) = rows (A s) /\ sp_cols (mask_matrix s) = cols (A s)
  /\ sparse_in_range (mask_matrix s).

(** A rank-[k] model of a sparse [m] by [n] matrix. *)
Definition sparse_model_of (m n k : nat) (s : ssvd) : Prop :=
  sparse_in_range (A s) /\ sp_rows (A s) = m /\ sp_cols (A s) = n
  /\ wf_matrix (u s) /\ mrows (u s) = m /\ mcols (u s) = k
  /\ wf_matrix (v s) /\ mrows (v s) = n /\ mcols (v s) = k.

End ShapeVocabulary.

Section OutcomeVocabulary.
Context {num St : Type}.

(** [m] returns, with a value that satisfies [Q]. *)
Definition returns {X} (Q : X -> Prop) (m : M num St X) : Prop :=
  exists x, result m = Ok x /\ Q x.

End OutcomeVocabulary.

Section SetterVocabulary.
Context {num : Type} {SC : Scalar num} {EX : Externals num} {T : Type} {BT : Backend T}.

(** A call of one of the two masking setters. *)
Inductive setter_call :=
| CallMaskZeros
| CallMaskMatrix (m : SparseMatrix num).

Definition call_setter (s : svd num T) (c : setter_call) : M num (svd num T) (svd num T) :=
  match c with
  | CallMaskZeros => maskZeros s
  | CallMaskMatrix m => maskMatrix s m
  end.

(** The object after a call whose exception, if any, the caller catches. *)
Definition after (s : svd num T) (m : M num (svd num T) (svd num T)) : svd num T :=
  match result m with
  | Ok s' => s'
  | Stop _ st => st
  | OutOfBounds => s
  end.

(** The object after a sequence of setter calls. *)
Definition run_setters (s : svd num T) (calls : list setter_call) : svd num T :=
  fold_left (fun s c => after s (call_setter s c)) calls s.

(** What [maskMatrix] returns when it returns. *)
Definition masked_by (s : svd num T) (m : SparseMatrix num) : svd num T :=
  with_symmetric (with_mask_matrix (with_mask s true) m)
                 (symmetric s && sparse_isAppxSymmetric m).

(** What one call can change: the masking state and [symmetric]. *)
Definition factors_kept (s s' : svd num T) : Prop :=
  A s' = A s /\ u s' = u s /\ v s' = v s /\ d s' = d s
  /\ tol_ s' = tol_ s /\ mse_ s' = mse_ s /\ iter_ s' = iter_ s
  /\ best_model_ s' = best_model_ s /\ maxit s' = maxit s /\ L1 s' = L1 s /\ tol s' = tol s.

End SetterVocabulary.

Section DensifyVocabulary.
Context {num : Type} {SC : Scalar num} {EX : Externals num}.

(** The value a sparse column holds at row [r]: the stored one, zero where
    none is stored. *)
Definition stored_at (c : list (nat * num)) (r : nat) : num :=
  match find (fun p => (fst p =? r)%nat) c with
  | Some p => snd p
  | None => nzero
  end.

(** The dense matrix of the entries of a sparse one. *)
Definition densify (a : SparseMatrix num) : MatrixXd num :=
  mkMatrix (sp_rows a) (map (fun c => map (stored_at c) (seq 0 (sp_rows a))) (sp_data a)).

(** The stored entries of every column are in strictly increasing row
    order, as the container keeps them. *)
Definition sparse_sorted (a : SparseMatrix num) : Prop :=
  Forall (fun c => StronglySorted lt (map fst c)) (sp_data a).

(** No stored entry is zero. *)
Definition stored_nonzero (a : SparseMatrix num) : Prop :=
  Forall (Forall (fun p : nat * num => neqb (snd p) nzero = false)) (sp_data a).

(** The object with the dense copy of its sparse input. *)
Definition as_dense (s : svd num (SparseMatrix num)) : svd num (MatrixXd num) :=
  mkSvd (densify (A s)) (mask_matrix s) (u s) (v s) (d s) (tol_ s) (mse_ s) (iter_ s)
        (best_model_ s) (mask s) (mask_zeros s) (symmetric s) (maxit s) (L1 s) (tol s).

End DensifyVocabulary.

Section LossVocabulary.
Context {num : Type} {SC : Scalar num} {EX : Externals num}.
Local Open Scope num_scope.

(** [m(i, j)], zero outside the matrix. *)
Definition entry (m : MatrixXd num) (i j : nat) : num := nth i (nth j (mdata m) []) nzero.

(** Entry [(r, i)] of the product of the transpose of [u] by [v]: the
    dot product of column [r] of [u] with column [i] of [v]. *)
Definition transposed_product {T} (s : svd num T) (r i : nat) : num :=
  dot_acc (nth r (mdata (u s)) []) (nth i (mdata (v s)) []).

(** The loss of column [i] over [rows] rows: what the accumulator held
    plus the squares of the differences of that product and [A]. *)
Definition transposed_column_loss (s : svd num (MatrixXd num)) (rows i : nat) : num :=
  losses_uninit i
  + sum_squares (map (fun r => transposed_product s r i - entry (A s) r i) (seq 0 rows)).

End LossVocabulary.

(** * Properties *)

(** ** Lists *)

Lemma last_cons_default {X} (a : X) (l : list X) (d1 d2 : X) :
  last (a :: l) d1 = last (a :: l) d2.
Proof.
  revert a. induction l as [|b l IH]; intros a; [reflexivity|].
  change (last (b :: l) d1 = last (b :: l) d2). apply IH.
Qed.

Lemma nth_error_last {X} (l : list X) (d0 : X) :
  l <> [] -> nth_error l (length l - 1) = Some (last l d0).
Proof.
  induction l as [|a l IH]; intros H; [contradiction|].
  destruct l as [|b l]; [reflexivity|].
  change (last (a :: b :: l) d0) with (last (b :: l) d0).
  rewrite <- IH by discriminate. simpl. rewrite Nat.sub_0_r. reflexivity.
Qed.

Lemma set_nth_length {X} (l l' : list X) i x :
  set_nth l i x = Some l' -> length l' = length l.
Proof.
  revert i l'. induction l as [|a l IH]; intros [|i] l' H; simpl in H; try discriminate.
  - injection H as <-. reflexivity.
  - destruct (set_nth l i x) as [r|] eqn:E; simpl in H; [|discriminate].
    injection H as <-. simpl. f_equal. eauto.
Qed.

Lemma set_nth_same {X} (l l' : list X) i x :
  set_nth l i x = Some l' -> nth_error l' i = Some x.
Proof.
  revert i l'. induction l as [|a l IH]; intros [|i] l' H; simpl in H; try discriminate.
  - injection H as <-. reflexivity.
  - destruct (set_nth l i x) as [r|] eqn:E; simpl in H; [|discriminate].
    injection H as <-. simpl. eauto.
Qed.

Lemma set_nth_other {X} (l l' : list X) i j x :
  set_nth l i x = Some l' -> j <> i -> nth_error l' j = nth_error l j.
Proof.
  revert i j l'. induction l as [|a l IH]; intros [|i] j l' H Hj; simpl in H; try discriminate.
  - injection H as <-. destruct j; [contradiction|reflexivity].
  - destruct (set_nth l i x) as [r|] eqn:E; simpl in H; [|discriminate].
    injection H as <-. destruct j; simpl; [reflexivity|]. eapply IH; eauto.
Qed.

Lemma set_nth_some {X} (l : list X) i x :
  i < length l -> exists l', set_nth l i x = Some l'.
Proof.
  revert i. induction l as [|a l IH]; intros [|i] H; simpl in *; try lia.
  - eauto.
  - destruct (IH i) as [r Hr]; [lia|]. rewrite Hr. simpl. eauto.
Qed.

Lemma set_nth_none {X} (l : list X) i x :
  length l <= i -> set_nth l i x = None.
Proof.
  revert i. induction l as [|a l IH]; intros [|i] H; simpl in *; try lia; try reflexivity.
  rewrite IH by lia. reflexivity.
Qed.

Section MatrixFacts.
Context {num : Type} {SC : Scalar num}.

Lemma set_col_mrows (m m' : MatrixXd num) j c :
  set_col m j c = Some m' -> mrows m' = mrows m.
Proof.
  unfold set_col. destruct (set_nth (mdata m) j c); simpl; [|discriminate].
  intros H. injection H as <-. reflexivity.
Qed.

Lemma set_col_mcols (m m' : MatrixXd num) j c :
  set_col m j c = Some m' -> mcols m' = mcols m.
Proof.
  unfold set_col, mcols. destruct (set_nth (mdata m) j c) eqn:E; simpl; [|discriminate].
  intros H. injection H as <-. simpl. eapply set_nth_length; eauto.
Qed.

Lemma set_col_same (m m' : MatrixXd num) j c :
  set_col m j c = Some m' -> col m' j = Some c.
Proof.
  unfold set_col, col. destruct (set_nth (mdata m) j c) eqn:E; simpl; [|discriminate].
  intros H. injection H as <-. simpl. eapply set_nth_same; eauto.
Qed.

Lemma set_col_other (m m' : MatrixXd num) i j c :
  set_col m i c = Some m' -> j <> i -> col m' j = col m j.
Proof.
  unfold set_col, col. destruct (set_nth (mdata m) i c) eqn:E; simpl; [|discriminate].
  intros H Hj. injection H as <-. simpl. eapply set_nth_other; eauto.
Qed.

Lemma col_in_range (m : MatrixXd num) j c : col m j = Some c -> j < mcols m.
Proof. unfold col, mcols. intros H. apply nth_error_Some. congruence. Qed.

End MatrixFacts.

(** ** The monad: outcomes and traces of a sequence *)

Section MonadFacts.
Context {num St : Type}.
Implicit Type P : event num -> Prop.

Lemma result_bind_Ok {X Y} (m : M num St X) (f : X -> M num St Y) y :
  result (bind m f) = Ok y -> exists x, result m = Ok x /\ result (f x) = Ok y.
Proof.
  destruct m as [[x| |] tr]; simpl; try discriminate.
  destruct (f x) as [r tr'] eqn:E. simpl. intros ->. exists x. rewrite E. auto.
Qed.

Lemma result_bind_step {X Y} (m : M num St X) (f : X -> M num St Y) x :
  result m = Ok x -> result (bind m f) = result (f x).
Proof.
  destruct m as [[x'| |] tr]; simpl; try discriminate.
  intros H. injection H as ->. destruct (f x). reflexivity.
Qed.

Lemma result_bind_Stop {X Y} (m : M num St X) (f : X -> M num St Y) msg st :
  result m = Stop msg st -> result (bind m f) = Stop msg st.
Proof.
  destruct m as [[x| |] tr]; simpl; try discriminate.
  intros H. injection H as -> ->. reflexivity.
Qed.

Lemma trace_bind {X Y} (m : M num St X) (f : X -> M num St Y) :
  trace (bind m f)
  = trace m ++ match result m with Ok x => trace (f x) | _ => [] end.
Proof.
  destruct m as [[x| |] tr]; simpl; try (rewrite app_nil_r; reflexivity).
  destruct (f x). reflexivity.
Qed.

Lemma result_lift_Ok {X} (o : option X) x :
  result (lift (St := St) (num := num) o) = Ok x -> o = Some x.
Proof. destruct o; simpl; congruence. Qed.

Lemma result_ret_Ok {X} (a x : X) :
  result (ret (St := St) (num := num) a) = Ok x -> a = x.
Proof. simpl. congruence. Qed.

Lemma emits_ret P {X} (x : X) : emits (St := St) P (ret x).
Proof. constructor. Qed.

Lemma emits_lift P {X} (o : option X) : emits (St := St) P (lift o).
Proof. destruct o; constructor. Qed.

Lemma emits_stop P {X} msg (st : St) : emits P (stop (X := X) msg st).
Proof. constructor. Qed.

Lemma emits_emit P e : P e -> emits (St := St) P (emit e).
Proof. intros H. repeat constructor. exact H. Qed.

Lemma emits_bind P {X Y} (m : M num St X) (f : X -> M num St Y) :
  emits P m -> (forall x, result m = Ok x -> emits P (f x)) -> emits P (bind m f).
Proof.
  unfold emits. intros Hm Hf. rewrite trace_bind. apply Forall_app. split; [exact Hm|].
  destruct (result m) eqn:E; try constructor. apply Hf. reflexivity.
Qed.

End MonadFacts.

Section MonadOpsFacts.
Context {num : Type} {SC : Scalar num} {St : Type}.
Implicit Type P : event num -> Prop.

Lemma emits_mapM P {X Y} (f : X -> M num St Y) l :
  (forall a, In a l -> emits P (f a)) -> emits P (mapM f l).
Proof.
  induction l as [|a l IH]; intros H; simpl.
  - apply emits_ret.
  - apply emits_bind; [apply H; left; reflexivity|]. intros b _.
    apply emits_bind; [apply IH; intros; apply H; right; assumption|].
    intros bs _. apply emits_ret.
Qed.

Lemma emits_foldM P {X Y} (f : Y -> X -> M num St Y) l acc :
  (forall acc a, emits P (f acc a)) -> emits P (foldM f l acc).
Proof.
  intros H. revert acc. induction l as [|a l IH]; intros acc; simpl.
  - apply emits_ret.
  - apply emits_bind; [apply H|]. intros; apply IH.
Qed.

Lemma emits_divide P (x y : num) : P (EvDiv y) -> emits P (divide (St := St) x y).
Proof. intros H. repeat constructor. exact H. Qed.

Lemma emits_vdivide P (c : Vector num) (y : num) :
  P (EvDiv y) -> emits P (vdivide (St := St) c y).
Proof. intros H. repeat constructor. exact H. Qed.

Lemma result_divide_Ok (x y z : num) :
  result (divide (St := St) x y) = Ok z -> z = ndiv x y.
Proof. simpl. congruence. Qed.

Lemma result_vdivide_Ok (c c' : Vector num) (y : num) :
  result (vdivide (St := St) c y) = Ok c' -> c' = map (fun a => ndiv a y) c.
Proof. simpl. congruence. Qed.

End MonadOpsFacts.

(** ** Traces *)

Section TraceFacts.
Context {num : Type}.

Lemma iterations_nil : iterations (@nil (event num)) = 0.
Proof. reflexivity. Qed.

Lemma iterations_app (tr1 tr2 : list (event num)) :
  iterations (tr1 ++ tr2) = iterations tr1 + iterations tr2.
Proof. unfold iterations. rewrite filter_app, length_app. reflexivity. Qed.

Lemma denominators_app (tr1 tr2 : list (event num)) :
  denominators (tr1 ++ tr2) = denominators tr1 ++ denominators tr2.
Proof.
  induction tr1 as [|[y|k n t] tr1 IH]; simpl; rewrite ?IH; reflexivity.
Qed.

Lemma silent_iterations (tr : list (event num)) :
  Forall no_iter tr -> iterations tr = 0.
Proof.
  unfold iterations. induction 1 as [|e tr He _ IH]; simpl; [reflexivity|].
  rewrite He. exact IH.
Qed.

Lemma no_iter_numbered lo hi (e : event num) : no_iter e -> numbered lo hi e.
Proof. destruct e; simpl; [trivial|discriminate]. Qed.

Lemma numbered_weaken lo hi lo' hi' (e : event num) :
  lo' <= lo -> hi <= hi' -> numbered lo hi e -> numbered lo' hi' e.
Proof. destruct e; simpl; [trivial|lia]. Qed.

Lemma numbered_empty lo hi (tr : list (event num)) :
  hi <= lo -> Forall (numbered lo hi) tr -> iterations tr = 0.
Proof.
  intros Hle H. apply silent_iterations. eapply Forall_impl; [|exact H].
  intros [y|k n t]; simpl; [reflexivity|lia].
Qed.

End TraceFacts.

(** ** The fitters: what they keep and what they emit *)

(** Inversion of a sequence that ended in [Ok]. *)
Ltac inv_ok :=
  repeat match goal with
  | H : result (bind _ _) = Ok _ |- _ =>
      apply result_bind_Ok in H; destruct H as (? & ? & H)
  | H : result (ret _) = Ok _ |- _ => apply result_ret_Ok in H
  | H : result (lift _) = Ok _ |- _ => apply result_lift_Ok in H
  | H : result (vdivide _ _) = Ok _ |- _ => apply result_vdivide_Ok in H
  | H : result (divide _ _) = Ok _ |- _ => apply result_divide_Ok in H
  | H : result _ = Ok _ |- _ => progress cbv zeta in H
  end.

(** An event property through a sequence whose steps are accesses and
    divisions. *)
Ltac emits_steps tac :=
  repeat first
    [ apply emits_ret
    | apply emits_lift
    | apply emits_stop
    | apply emits_bind; [|intros ? ?]
    | apply emits_mapM; intros ? ?
    | apply emits_foldM; intros ? ?
    | apply emits_divide; tac
    | apply emits_vdivide; tac
    | progress cbv zeta ].

Section FitterFacts.
Context {num : Type} {SC : Scalar num} {EX : Externals num}.
Local Abbreviation dsvd := (svd num (MatrixXd num)).

Lemma frame_refl (s : dsvd) : frame s s.
Proof. repeat split. Qed.

Lemma frame_trans (s1 s2 s3 : dsvd) : frame s1 s2 -> frame s2 s3 -> frame s1 s3.
Proof. unfold frame. intuition congruence. Qed.

Lemma fit_rank_one_body_frame s sd :
  result (fit_rank_one_body s) = Ok sd -> frame s (fst sd) /\ iter_ (fst sd) = iter_ s.
Proof.
  unfold fit_rank_one_body. intros H. inv_ok. subst sd. unfold frame. simpl.
  repeat split. eapply set_col_mrows; eauto.
Qed.

Lemma fit_rank_two_body_frame s sd :
  result (fit_rank_two_body s) = Ok sd -> frame s (fst sd) /\ iter_ (fst sd) = iter_ s.
Proof.
  unfold fit_rank_two_body. intros H. inv_ok. subst sd. unfold frame. simpl.
  repeat split. eapply set_col_mrows; eauto.
Qed.

Lemma fit_rank_k_body_frame k s sd :
  result (fit_rank_k_body k s) = Ok sd -> frame s (fst sd) /\ iter_ (fst sd) = iter_ s.
Proof.
  unfold fit_rank_k_body. intros H. inv_ok. subst sd. unfold frame. simpl.
  repeat split. eapply set_col_mrows; eauto.
Qed.

Lemma unscale_frame k sd s' :
  result (unscale k sd) = Ok s' -> frame (fst sd) s' /\ iter_ s' = iter_ (fst sd).
Proof.
  unfold unscale. intros H. inv_ok. subst s'. unfold frame. simpl. repeat split.
Qed.

Lemma deflate_silent k i w p q x : emits no_iter (deflate k i w p q x).
Proof. unfold deflate. emits_steps ltac:(reflexivity). Qed.

Lemma fit_rank_one_body_silent s : emits no_iter (fit_rank_one_body s).
Proof. unfold fit_rank_one_body. emits_steps ltac:(reflexivity). Qed.

Lemma fit_rank_two_body_silent s : emits no_iter (fit_rank_two_body s).
Proof.
  unfold fit_rank_two_body, rank_two_update_v, rank_two_update_u.
  emits_steps ltac:(reflexivity).
Qed.

Lemma fit_rank_k_body_silent k s : emits no_iter (fit_rank_k_body k s).
Proof.
  unfold fit_rank_k_body. emits_steps ltac:(reflexivity); apply deflate_silent.
Qed.

Lemma unscale_silent k sd : emits no_iter (unscale k sd).
Proof. unfold unscale. emits_steps ltac:(reflexivity). Qed.

End FitterFacts.

Section LoopFacts.
Context {num : Type} {SC : Scalar num} {EX : Externals num}.
Local Abbreviation dsvd := (svd num (MatrixXd num)).
Local Abbreviation MD := (M num dsvd).

Variable k : nat.
Variable body : dsvd -> MD (dsvd * num).
Hypothesis body_silent : forall s, emits no_iter (body s).
Hypothesis body_frame :
  forall s sd, result (body s) = Ok sd -> frame s (fst sd) /\ iter_ (fst sd) = iter_ s.

(** One unfolding of the loop, by the outcome of its body. *)
Lemma als_loop_unfold fuel dn s :
  als_loop k body (S fuel) dn s =
  match body s with
  | (Ok sd, tr) =>
      let ev := EvIter k (S (iter_ (fst sd))) (tol_ (fst sd)) in
      if nltb (tol_ (fst sd)) (tol (fst sd)) then (Ok sd, tr ++ [ev])
      else let (r, tr') := als_loop k body fuel (snd sd)
                                    (with_iter_ (fst sd) (S (iter_ (fst sd)))) in
           (r, tr ++ ev :: tr')
  | (Stop msg st, tr) => (Stop msg st, tr)
  | (OutOfBounds, tr) => (OutOfBounds, tr)
  end.
Proof.
  simpl. destruct (body s) as [[sd| |] tr]; simpl; try reflexivity.
  destruct (nltb _ _); simpl; [reflexivity|].
  destruct (als_loop _ _ _ _ _). reflexivity.
Qed.

(** The bodies of the loop are numbered from [iter_ + 1] on, there are at
    most [fuel] of them, and a loop that returns has advanced [iter_] by the
    number of its bodies, or by one less when it left by [break]. *)
Lemma als_loop_spec fuel : forall dn s,
  Forall (numbered (iter_ s) (iter_ s + fuel)) (trace (als_loop k body fuel dn s))
  /\ iterations (trace (als_loop k body fuel dn s)) <= fuel
  /\ forall sd, result (als_loop k body fuel dn s) = Ok sd ->
       frame s (fst sd)
       /\ iter_ s <= iter_ (fst sd) <= iter_ s + fuel
       /\ iterations (trace (als_loop k body fuel dn s)) <= iter_ (fst sd) - iter_ s + 1.
Proof.
  induction fuel as [|fuel IH]; intros dn s.
  - simpl. split; [constructor|]. split; [unfold iterations; simpl; lia|].
    intros sd H. injection H as <-. simpl.
    split; [apply frame_refl|]. unfold iterations; simpl. lia.
  - rewrite als_loop_unfold.
    pose proof (body_silent s) as Hs. pose proof (body_frame s) as Hf.
    unfold emits, trace, result in Hs, Hf.
    destruct (body s) as [[sd| |] tr]; simpl in Hs, Hf.
    2,3: simpl; split;
      [eapply Forall_impl; [|exact Hs]; intros; apply no_iter_numbered; assumption|];
      split; [rewrite (silent_iterations _ Hs); lia|]; discriminate.
    destruct (Hf sd eq_refl) as [Hfr Hit].
    assert (Htr : Forall (numbered (iter_ s) (iter_ s + S fuel)) tr).
    { eapply Forall_impl; [|exact Hs]. intros; apply no_iter_numbered; assumption. }
    cbv zeta. destruct (nltb (tol_ (fst sd)) (tol (fst sd))).
    + simpl. split; [|split].
      * apply Forall_app. split; [exact Htr|]. constructor; [simpl; lia|constructor].
      * rewrite iterations_app, (silent_iterations _ Hs). unfold iterations; simpl. lia.
      * intros sd' H. injection H as <-. split; [exact Hfr|].
        rewrite iterations_app, (silent_iterations _ Hs). unfold iterations; simpl. lia.
    + specialize (IH (snd sd) (with_iter_ (fst sd) (S (iter_ (fst sd))))).
      unfold trace, result in IH.
      destruct (als_loop k body fuel (snd sd) (with_iter_ (fst sd) (S (iter_ (fst sd)))))
        as [r tr'].
      simpl in IH. destruct IH as (IH1 & IH2 & IH3). simpl. split; [|split].
      * apply Forall_app. split; [exact Htr|]. constructor; [simpl; lia|].
        eapply Forall_impl; [|exact IH1]. intros e. apply numbered_weaken; lia.
      * rewrite iterations_app, (silent_iterations _ Hs).
        unfold iterations in *. simpl. lia.
      * intros sd' H. destruct (IH3 sd' H) as (Hfr' & Hit' & Hn).
        split; [|split].
        -- eapply frame_trans; [exact Hfr|]. destruct Hfr' as (? & ? & ? & ?).
           repeat split; assumption.
        -- lia.
        -- rewrite iterations_app, (silent_iterations _ Hs).
           unfold iterations in *. simpl. lia.
Qed.

End LoopFacts.

Section FitFacts.
Context {num : Type} {SC : Scalar num} {EX : Externals num}.
Local Abbreviation dsvd := (svd num (MatrixXd num)).
Local Abbreviation MD := (M num dsvd).

Lemma fitter_of_loop k body d0 :
  (forall s, emits no_iter (body s)) ->
  (forall s sd, result (body s) = Ok sd -> frame s (fst sd) /\ iter_ (fst sd) = iter_ s) ->
  fitter_spec (fun s => sd <- als_loop k body (maxit s - iter_ s) d0 s ;; unscale k sd).
Proof.
  intros Hsilent Hframe s.
  destruct (als_loop_spec k body Hsilent Hframe (maxit s - iter_ s) d0 s) as (H1 & H2 & H3).
  pose proof (unscale_silent k) as Hu.
  assert (Hnum : Forall (numbered (iter_ s) (maxit s))
                        (trace (als_loop k body (maxit s - iter_ s) d0 s))).
  { destruct (le_lt_dec (iter_ s) (maxit s)) as [Hle|Hlt].
    - eapply Forall_impl; [|exact H1]. intros e. apply numbered_weaken; lia.
    - replace (maxit s - iter_ s) with 0 by lia. constructor. }
  rewrite trace_bind. split; [|split].
  - apply Forall_app. split; [exact Hnum|].
    destruct (result (als_loop _ _ _ _ _)); try constructor.
    eapply Forall_impl; [|apply Hu]. intros; apply no_iter_numbered; assumption.
  - rewrite iterations_app.
    destruct (result (als_loop _ _ _ _ _)) as [sd| |];
      [rewrite (silent_iterations _ (Hu sd))|change (iterations (@nil (event num))) with 0..]; lia.
  - intros s' H. apply result_bind_Ok in H. destruct H as (sd & Hsd & Hs').
    destruct (H3 sd Hsd) as (Hfr & Hit & Hn).
    destruct (unscale_frame _ _ _ Hs') as (Hfr' & Hit').
    rewrite iterations_app, Hsd, (silent_iterations _ (Hu sd)).
    split; [eapply frame_trans; eauto|]. lia.
Qed.

Lemma fit_rank_one_spec : fitter_spec fit_rank_one.
Proof.
  apply fitter_of_loop;
    [apply fit_rank_one_body_silent | apply fit_rank_one_body_frame].
Qed.

Lemma fit_rank_two_spec : fitter_spec fit_rank_two.
Proof.
  apply fitter_of_loop;
    [apply fit_rank_two_body_silent | apply fit_rank_two_body_frame].
Qed.

Lemma fit_rank_k_spec k : fitter_spec (fit_rank_k k).
Proof.
  apply fitter_of_loop;
    [apply fit_rank_k_body_silent | apply fit_rank_k_body_frame].
Qed.

Lemma fit_rank_spec k : fitter_spec (fit_rank k).
Proof.
  destruct k as [|[|k]]; simpl;
    [apply fit_rank_one_spec | apply fit_rank_two_spec | apply fit_rank_k_spec].
Qed.

(** The first loop of [fit]: the counter only grows, stays within the
    budget, and the bodies are at most the budget left plus one per column. *)
Lemma fit_ranks_spec ks : forall s,
  Forall (numbered (iter_ s) (maxit s)) (trace (fit_ranks ks s))
  /\ iterations (trace (fit_ranks ks s)) <= maxit s - iter_ s + length ks
  /\ forall s', result (fit_ranks ks s) = Ok s' ->
       frame s s' /\ iter_ s <= iter_ s' /\ (iter_ s <= maxit s -> iter_ s' <= maxit s).
Proof.
  induction ks as [|k ks IH]; intros s.
  - simpl. split; [constructor|]. split; [unfold iterations; simpl; lia|].
    intros s' H. injection H as <-. split; [apply frame_refl|lia].
  - simpl. destruct (fit_rank_spec k s) as (H1 & H2 & H3). rewrite trace_bind.
    destruct (result (fit_rank k s)) as [s1| |] eqn:E.
    + destruct (H3 s1 eq_refl) as (Hfr & Hle & Hmax & Hn).
      destruct (IH s1) as (I1 & I2 & I3).
      assert (Hm : maxit s1 = maxit s) by apply Hfr.
      split; [|split].
      * apply Forall_app. split; [exact H1|].
        eapply Forall_impl; [|exact I1]. intros e. apply numbered_weaken; lia.
      * rewrite iterations_app. lia.
      * intros s' H. rewrite (result_bind_step _ _ _ E) in H.
        destruct (I3 s' H) as (Hfr' & Hle' & Hmax').
        split; [eapply frame_trans; eauto|]. lia.
    + rewrite app_nil_r. split; [exact H1|]. split; [lia|].
      intros s' H. apply result_bind_Ok in H. destruct H as (x & Hx & _). congruence.
    + rewrite app_nil_r. split; [exact H1|]. split; [lia|].
      intros s' H. apply result_bind_Ok in H. destruct H as (x & Hx & _). congruence.
Qed.

Lemma diagonal_step_silent i s : emits no_iter (diagonal_step i s).
Proof. unfold diagonal_step. emits_steps ltac:(reflexivity). Qed.

Lemma diagonal_step_frame i s s' :
  result (diagonal_step i s) = Ok s' -> frame s s' /\ iter_ s' = iter_ s.
Proof.
  unfold diagonal_step. intros H. inv_ok. subst s'. unfold frame. simpl. repeat split.
Qed.

Lemma fit_diagonal_silent idx : forall s, emits no_iter (fit_diagonal idx s).
Proof.
  induction idx as [|i idx IH]; intros s; simpl.
  - apply emits_ret.
  - apply emits_bind; [apply diagonal_step_silent|]. intros; apply IH.
Qed.

Lemma fit_diagonal_frame idx : forall s s',
  result (fit_diagonal idx s) = Ok s' -> frame s s' /\ iter_ s' = iter_ s.
Proof.
  induction idx as [|i idx IH]; intros s s' H; simpl in H.
  - injection H as <-. split; [apply frame_refl|reflexivity].
  - apply result_bind_Ok in H. destruct H as (s1 & H1 & H).
    destruct (diagonal_step_frame _ _ _ H1) as (F1 & I1).
    destruct (IH _ _ H) as (F2 & I2).
    split; [eapply frame_trans; eauto|congruence].
Qed.

Lemma fit_spec s :
  Forall (numbered (iter_ s) (maxit s)) (trace (fit s))
  /\ iterations (trace (fit s)) <= maxit s - iter_ s + mcols (u s)
  /\ forall s', result (fit s) = Ok s' ->
       frame s s' /\ iter_ s <= iter_ s' /\ (iter_ s <= maxit s -> iter_ s' <= maxit s).
Proof.
  unfold fit.
  destruct (fit_ranks_spec (seq 0 (mcols (u s))) s) as (H1 & H2 & H3).
  rewrite length_seq in H2. rewrite trace_bind.
  assert (Hd : forall s1, Forall no_iter (trace (fit_diagonal (seq 0 (mcols (u s1))) s1)))
    by (intros; apply fit_diagonal_silent).
  split; [|split].
  - apply Forall_app. split; [exact H1|].
    destruct (result (fit_ranks _ _)); try constructor.
    eapply Forall_impl; [|apply Hd]. intros; apply no_iter_numbered; assumption.
  - rewrite iterations_app.
    destruct (result (fit_ranks _ _)) as [s1| |];
      [rewrite (silent_iterations _ (Hd s1))|change (iterations (@nil (event num))) with 0..]; lia.
  - intros s' H. apply result_bind_Ok in H. destruct H as (s1 & Hs1 & H).
    destruct (H3 s1 Hs1) as (F1 & L1' & M1).
    destruct (fit_diagonal_frame _ _ _ H) as (F2 & I2).
    split; [eapply frame_trans; eauto|]. lia.
Qed.

End FitFacts.

(** ** The constructor *)

(** An object the constructor returns has the shapes the class relies on:
    [u] has the rows of [A], [v] has as many rows as [A] has columns, and
    [u] and [v] have as many columns as each other. *)
Lemma svd_of_model_Ok {num : Type} {SC : Scalar num} {T : Type} {BT : Backend T}
      (a : T) (u0 v0 : MatrixXd num) (t : num) (s : svd num T) :
  result (svd_of_model a u0 v0 t) = Ok s ->
  s = initial_svd a u0 v0 t
  /\ mrows (u s) = rows (A s) /\ mrows (v s) = cols (A s) /\ mcols (u s) = mcols (v s).
Proof.
  unfold svd_of_model.
  destruct (Nat.eqb_spec (rows a) (mrows u0)) as [H1|]; simpl; [|discriminate].
  destruct (Nat.eqb_spec (cols a) (mrows v0)) as [H2|]; simpl; [|discriminate].
  destruct (Nat.eqb_spec (mcols u0) (mcols v0)) as [H3|]; simpl; [|discriminate].
  intros H. injection H as <-. simpl. auto.
Qed.

(** ** The iteration budget of [fit] *)

(** C9, as the code has it.  Within one call of [fit] the counter [iter_] is
    never reset between the per-rank fitters: the bodies a fitter runs are
    numbered after the count it receives and up to [maxit], and the count it
    leaves is at least the count it received.  A fitter that leaves by
    [break] does not count its last body, so the bodies of one fitter are at
    most the advance of the counter plus one, and the bodies of the whole
    fit are at most the budget left plus one per column.  A fitter that
    receives an exhausted budget runs no body. *)
Theorem fit_iteration_budget {num : Type} {SC : Scalar num} {EX : Externals num}
        (s : svd num (MatrixXd num)) :
  (forall k, Forall (numbered (iter_ s) (maxit s)) (trace (fit_rank k s)))
  /\ (forall k s', result (fit_rank k s) = Ok s' ->
        iter_ s <= iter_ s' /\ maxit s' = maxit s
        /\ (iter_ s <= maxit s -> iter_ s' <= maxit s)
        /\ iterations (trace (fit_rank k s)) <= iter_ s' - iter_ s + 1)
  /\ Forall (numbered (iter_ s) (maxit s)) (trace (fit s))
  /\ iterations (trace (fit s)) <= maxit s - iter_ s + mcols (u s)
  /\ (forall k, maxit s <= iter_ s -> iterations (trace (fit_rank k s)) = 0).
Proof.
  split; [|split; [|split; [|split]]].
  - intros k. apply (fit_rank_spec k s).
  - intros k s' H. destruct (fit_rank_spec k s) as (_ & _ & H3).
    destruct (H3 s' H) as (Hfr & Hle & Hmax & Hn).
    repeat split; try assumption. apply Hfr.
  - apply (fit_spec s).
  - apply (fit_spec s).
  - intros k Hle. destruct (fit_rank_spec k s) as (H1 & _ & _).
    eapply numbered_empty; [|exact H1]. exact Hle.
Qed.

(** The bound of C9 as it was claimed fails: on diag(2, 1) with two columns
    and [maxit = 1] the rank-1 fitter leaves by [break] with [iter_ = 0] and
    the rank-2 fitter runs a body of its own, two bodies in all.  This is so
    with [cor] the correlation, from columns (1, 2) of [u], and with [cor]
    one minus the correlation, from the column (2, 1). *)
Lemma fit_exceeds_maxit :
  (iterations (trace (fit (EX := float_externals) Inputs.budget_model)) = 2
   /\ maxit Inputs.budget_model = 1)
  /\ (iterations (trace (fit (EX := float_externals_distance)
                             Inputs.budget_model_aligned)) = 2
      /\ maxit Inputs.budget_model_aligned = 1).
Proof. vm_compute. repeat split. Qed.

(** The statement at the input above: the rank-1 fitter returns there, and
    a fitter given the exhausted budget [iter_ = maxit] runs no body. *)
Lemma fit_iteration_budget_witness :
  (exists s', result (fit_rank 0 Inputs.budget_model) = Ok s'
              /\ iterations (trace (fit_rank 0 Inputs.budget_model)) <= iter_ s' - 0 + 1)
  /\ iterations (trace (fit_rank 1 (with_iter_ Inputs.budget_model 1))) = 0.
Proof.
  split.
  - destruct (result (fit_rank 0 Inputs.budget_model)) as [s'| |] eqn:E;
      [|vm_compute in E; discriminate..].
    exists s'. split; [reflexivity|].
    apply (proj1 (proj2 (fit_iteration_budget Inputs.budget_model)) 0 s' E).
  - apply (proj2 (proj2 (proj2 (proj2
             (fit_iteration_budget (with_iter_ Inputs.budget_model 1))))) 1).
    vm_compute. apply le_n.
Defined.

(** ** The masking setters *)

(** C7, as the code has it.  [maskMatrix] fails when either masking mode is
    active; [maskZeros] fails when a mask matrix is active, and succeeds
    otherwise, also when [mask_zeros] is already set; a call that fails
    leaves the object as it was. *)
Theorem masking_setters {num : Type} {SC : Scalar num} {EX : Externals num}
        {T : Type} {BT : Backend T} (s : svd num T) (m : SparseMatrix num) :
  (mask s = true ->
     maskZeros s = stop "a masking function has already been specified" s)
  /\ (mask s = false -> maskZeros s = ret (with_mask_zeros s true))
  /\ (mask s = true \/ mask_zeros s = true -> exists msg, maskMatrix s m = stop msg s)
  /\ (forall msg st, result (maskZeros s) = Stop msg st -> st = s)
  /\ (forall msg st, result (maskMatrix s m) = Stop msg st -> st = s).
Proof.
  unfold maskZeros, maskMatrix. repeat split.
  - intros ->. reflexivity.
  - intros ->. reflexivity.
  - intros [H|H].
    + rewrite H. eauto.
    + rewrite H. destruct (mask s); [eauto|].
      destruct (_ || _); eauto.
  - intros msg st. destruct (mask s); simpl; congruence.
  - intros msg st. destruct (mask s); simpl; [congruence|].
    destruct (_ || _); simpl; [congruence|].
    destruct (mask_zeros s); simpl; [congruence|].
    destruct (symmetric _); discriminate.
Qed.

(** C7 as it was claimed fails for a repeated [maskZeros()]: the second call
    finds [mask_zeros] set and returns. *)
Lemma maskZeros_twice :
  (s1 <- maskZeros Inputs.exact_model ;; maskZeros s1)
  = ret (with_mask_zeros Inputs.exact_model true).
Proof. reflexivity. Qed.

(** The statement on an object whose mask matrix is set: both setters fail
    and hand the object back. *)
Lemma masking_setters_witness :
  maskZeros Inputs.ones_masked
  = stop "a masking function has already been specified" Inputs.ones_masked
  /\ exists msg, maskMatrix Inputs.ones_masked Inputs.mask00 = stop msg Inputs.ones_masked.
Proof.
  pose proof (masking_setters Inputs.ones_masked Inputs.mask00) as (H1 & _ & H3 & _).
  split; [apply H1; reflexivity|apply H3; left; reflexivity].
Defined.

(** ** The checks of [fit_restarts] *)

Section RestartFacts.
Context {num : Type} {SC : Scalar num} {EX : Externals num}.
Local Abbreviation dsvd := (svd num (MatrixXd num)).

Lemma restart_fit_accepted s c :
  accepted s c -> restart_fit s c = fit_and_score s c.
Proof.
  intros [Hr Hc]. unfold restart_fit, restart_reset. cbv zeta. simpl.
  rewrite Hr, Hc, !Nat.eqb_refl. reflexivity.
Qed.

Lemma restart_fit_rows s c :
  mrows c <> mrows (v s) ->
  restart_fit s c = stop "rank of 'u' is not equal to rank of 'v'" (restart_reset s c).
Proof.
  intros H. unfold restart_fit, restart_reset. cbv zeta. simpl.
  apply Nat.eqb_neq in H. rewrite H. reflexivity.
Qed.

Lemma restart_fit_cols s c :
  mrows c = mrows (v s) -> mcols c <> mrows (A s) ->
  restart_fit s c = stop "dimensions of 'u' and 'A' are not compatible" (restart_reset s c).
Proof.
  intros Hr H. unfold restart_fit, restart_reset. cbv zeta. simpl.
  apply Nat.eqb_neq in H. rewrite Hr, Nat.eqb_refl, H. reflexivity.
Qed.

Lemma accepted_dec (s : dsvd) c : {accepted s c} + {~ accepted s c}.
Proof.
  unfold accepted.
  destruct (Nat.eq_dec (mrows c) (mrows (v s))); [|right; tauto].
  destruct (Nat.eq_dec (mcols c) (mrows (A s))); [left; tauto|right; tauto].
Qed.

Lemma restart_fit_rejected s c :
  ~ accepted s c -> exists msg, restart_fit s c = stop msg (restart_reset s c).
Proof.
  intros H. destruct (Nat.eq_dec (mrows c) (mrows (v s))) as [Hr|Hr].
  - destruct (Nat.eq_dec (mcols c) (mrows (A s))) as [Hc|Hc].
    + exfalso. apply H. split; assumption.
    + eexists. apply restart_fit_cols; assumption.
  - eexists. apply restart_fit_rows; assumption.
Qed.

Lemma fit_and_score_frame s c s' :
  result (fit_and_score s c) = Ok s' -> frame s s'.
Proof.
  unfold fit_and_score. intros H. inv_ok. subst s'.
  match goal with H : result (fit _) = Ok ?x |- _ =>
    destruct (fit_spec (restart_reset s c)) as (_ & _ & H3);
    destruct (H3 x H) as ((HA & HB & HM & HV) & _) end.
  unfold frame in *. simpl in *. repeat split; assumption.
Qed.

Lemma restart_fit_Ok s c s' :
  result (restart_fit s c) = Ok s' ->
  accepted s c /\ result (fit_and_score s c) = Ok s' /\ frame s s'.
Proof.
  intros H. destruct (accepted_dec s c) as [Ha|Hn].
  - rewrite (restart_fit_accepted _ _ Ha) in H.
    split; [exact Ha|]. split; [exact H|]. eapply fit_and_score_frame; eauto.
  - destruct (restart_fit_rejected _ _ Hn) as [msg E]. rewrite E in H. discriminate.
Qed.

(** The loop accepts every candidate it gets through. *)
Lemma restarts_loop_accepted cs : forall i s b r,
  result (restarts_loop i cs s b) = Ok r ->
  (A (fst (fst r)) = A s /\ mrows (v (fst (fst r))) = mrows (v s))
  /\ Forall (accepted s) cs.
Proof.
  induction cs as [|c cs IH]; intros i s b r H; simpl in H.
  - injection H as <-. repeat split. constructor.
  - apply result_bind_Ok in H. destruct H as (s1 & H1 & H).
    apply result_bind_Ok in H. destruct H as (r1 & Hr1 & H).
    injection H as <-. simpl.
    destruct (restart_fit_Ok _ _ _ H1) as (Ha & _ & (HA & _ & _ & HV)).
    assert (Hrest : (A (fst (fst r1)) = A s1 /\ mrows (v (fst (fst r1))) = mrows (v s1))
                    /\ Forall (accepted s1) cs).
    { destruct ((i =? 0)%nat || nltb (mse_ s1) (mse_best b)); apply IH in Hr1; exact Hr1. }
    destruct Hrest as ((HA' & HV') & Hall).
    split; [split; congruence|]. constructor; [exact Ha|].
    eapply Forall_impl; [|exact Hall].
    unfold accepted. intros x. rewrite HA, HV. trivial.
Qed.

(** A candidate that is refused stops the loop where it is reached. *)
Lemma restarts_loop_stops pre c post msg : forall i s b r,
  result (restarts_loop i pre s b) = Ok r ->
  restart_fit (fst (fst r)) c = stop msg (restart_reset (fst (fst r)) c) ->
  result (restarts_loop i (pre ++ c :: post) s b)
  = Stop msg (restart_reset (fst (fst r)) c).
Proof.
  induction pre as [|p pre IH]; intros i s b r H Hc.
  - simpl in H. injection H as <-. simpl in *. rewrite Hc. reflexivity.
  - simpl in H. apply result_bind_Ok in H. destruct H as (s1 & H1 & H).
    apply result_bind_Ok in H. destruct H as (r1 & Hr1 & H).
    injection H as <-. cbn [fst snd] in Hc.
    cbn [app restarts_loop]. rewrite (result_bind_step _ _ _ H1).
    apply result_bind_Stop.
    destruct ((i =? 0)%nat || nltb (mse_ s1) (mse_best b)) in Hr1 |- *;
      apply (IH _ _ _ _ Hr1 Hc).
Qed.

Lemma fit_restarts_accepted s cs s' :
  result (fit_restarts s cs) = Ok s' -> Forall (accepted s) cs.
Proof.
  unfold fit_restarts, fit_restarts_runs. intros H.
  apply result_bind_Ok in H. destruct H as (r & H & _).
  apply result_bind_Ok in H. destruct H as (r1 & H1 & _).
  eapply restarts_loop_accepted; eauto.
Qed.

End RestartFacts.

(** C10.  [fit_restarts] checks each candidate by [u.rows() == v.rows()] and
    [u.cols() == A.rows()]: a candidate that fails the first or the second
    test stops the call with the message of that test, and one that passes
    both is fitted and scored.  Hence, on an object whose [v] has as many
    rows as [A] has columns, a candidate of shape rows(A) by k stops the call
    when the loop reaches it, unless rows(A) = cols(A) and k = rows(A); and
    a call that returns was given, among the candidates of that shape, only
    ones with rows(A) = cols(A) and k = rows(A). *)
Theorem fit_restarts_shape_check {num : Type} {SC : Scalar num} {EX : Externals num}
        (s : svd num (MatrixXd num)) :
  (forall c, mrows c <> mrows (v s) ->
     restart_fit s c = stop "rank of 'u' is not equal to rank of 'v'" (restart_reset s c))
  /\ (forall c, mrows c = mrows (v s) -> mcols c <> mrows (A s) ->
        restart_fit s c
        = stop "dimensions of 'u' and 'A' are not compatible" (restart_reset s c))
  /\ (forall c, mrows c = mrows (v s) -> mcols c = mrows (A s) ->
        restart_fit s c = fit_and_score s c)
  /\ (forall pre c post s1,
        restarts_reach s pre s1 ->
        mrows (v s) = mcols (A s) -> mrows c = mrows (A s) ->
        ~ (mrows (A s) = mcols (A s) /\ mcols c = mrows (A s)) ->
        exists msg,
          result (fit_restarts s (pre ++ c :: post)) = Stop msg (restart_reset s1 c))
  /\ (forall cs s',
        result (fit_restarts s cs) = Ok s' -> mrows (v s) = mcols (A s) ->
        forall c, In c cs -> mrows c = mrows (A s) ->
                  mrows (A s) = mcols (A s) /\ mcols c = mrows (A s)).
Proof.
  split; [|split; [|split; [|split]]].
  - intros c. apply restart_fit_rows.
  - intros c. apply restart_fit_cols.
  - intros c Hr Hc. apply restart_fit_accepted. split; assumption.
  - intros pre c post s1 (b & h & Hreach) Hv Hr Hn.
    destruct (restarts_loop_accepted _ _ _ _ _ Hreach) as ((HA & HV) & _).
    cbn [fst] in HA, HV.
    destruct (restart_fit_rejected s1 c) as [msg E].
    { unfold accepted. intros [H1 H2]. apply Hn. split; congruence. }
    exists msg. unfold fit_restarts, fit_restarts_runs.
    apply result_bind_Stop, result_bind_Stop.
    apply (restarts_loop_stops pre c post msg 0 s _ _ Hreach). exact E.
  - intros cs s' H Hv c Hin Hr.
    pose proof (fit_restarts_accepted _ _ _ H) as Hall.
    rewrite Forall_forall in Hall. destruct (Hall c Hin) as [H1 H2].
    split; congruence.
Qed.

(** The statement on the rank-1 model of a 2 by 2 matrix, restarted from a
    candidate of the shape of its own [u] (2 by 1): the call stops at the
    first candidate. *)
Lemma fit_restarts_shape_check_witness :
  exists msg,
    result (fit_restarts Inputs.rank1_model [Inputs.c2 1 1])
    = Stop msg (restart_reset Inputs.rank1_model (Inputs.c2 1 1)).
Proof.
  apply (proj1 (proj2 (proj2 (proj2 (fit_restarts_shape_check Inputs.rank1_model))))
           [] (Inputs.c2 1 1) [] Inputs.rank1_model).
  - exists (mkBest (u Inputs.rank1_model) (v Inputs.rank1_model)
                   (tol_ Inputs.rank1_model) nzero), [].
    reflexivity.
  - reflexivity.
  - reflexivity.
  - vm_compute. intros [_ H]. discriminate.
Defined.

(** ** Sums of squares, in exact arithmetic *)

Section RealFacts.
Local Open Scope R_scope.









End RealFacts.

(** ** The final diagonal step *)

Section DiagonalFacts.
Context {num : Type} {SC : Scalar num} {EX : Externals num}.
Local Abbreviation dsvd := (svd num (MatrixXd num)).


Lemma diagonal_step_trace i s c :
  col (u s) i = Some c ->
  denominators (trace (diagonal_step i s))
  = if i <? length (d s) then [norm c] else [].
Proof.
  intros Hc. unfold diagonal_step. rewrite Hc.
  destruct (Nat.ltb_spec i (length (d s))) as [Hlt|Hge].
  - destruct (set_nth_some (d s) i (norm c) Hlt) as [d' Hd].
    cbn. rewrite Hd. cbn.
    destruct (set_col (u s) i (map (fun a => ndiv a (norm c)) c)); reflexivity.
  - cbn. rewrite (set_nth_none (d s) i (norm c) Hge). reflexivity.
Qed.


End DiagonalFacts.

Section UnitNorm.
Local Open Scope R_scope.





End UnitNorm.

(** C4, evaluated.  The final step of [fit] (line 124) divides column [i]
    of [u] by [d(i)], the bare norm of that column: whatever the object, its
    one division has the denominator [norm c] with no offset, where the
    three fitters normalise by a norm plus [DIV_OFFSET].  On the zero 2 by 2
    matrix from [u = (1, 2)] with one iteration, the run of [fit] has seven
    divisions of its own ([cor] apart): six in the rank-1 fitter, by no
    less than [DIV_OFFSET], and the last in the final step, by [d(0) = 0];
    the column of [u] it leaves holds no numbers. *)
Theorem fit_final_division_has_no_offset :
  (forall (num : Type) (SC : Scalar num) (EX : Externals num)
          (s : svd num (MatrixXd num)) i c,
     col (u s) i = Some c ->
     denominators (trace (diagonal_step i s))
     = if i <? length (d s) then [norm c] else [])
  /\ match rev (denominators (trace (fit Inputs.zero_model))) with
     | final :: fitters =>
         PrimFloat.eqb final 0 = true
         /\ length fitters = 6
         /\ forallb (fun y => negb (PrimFloat.ltb y DIV_OFFSET)) fitters = true
     | [] => False
     end
  /\ match result (fit Inputs.zero_model) with
     | Ok s' =>
         match col (u s') 0 with
         | Some [a; b] =>
             d s' = [0%float]
             /\ PrimFloat.eqb a a = false /\ PrimFloat.eqb b b = false
         | _ => False
         end
     | _ => False
     end.
Proof.
  split; [intros num SC EX s i c; apply diagonal_step_trace|].
  vm_compute. repeat split.
Qed.



(** ** The selection of [fit_restarts] *)

Section Selection.
Context {num : Type} {SC : Scalar num} {EX : Externals num}.
Local Abbreviation dsvd := (svd num (MatrixXd num)).

Lemma with_best_model_same (s : dsvd) : with_best_model_ s (best_model_ s) = s.
Proof. destruct s. reflexivity. Qed.

Lemma fit_and_score_Ok s c r :
  result (fit_and_score s c) = Ok r ->
  exists s2 m, result (fit (restart_reset s c)) = Ok s2
               /\ result (mse_dense s2) = Ok m /\ r = with_mse_ s2 m.
Proof.
  unfold fit_and_score. intros H.
  apply result_bind_Ok in H. destruct H as (s2 & H2 & H).
  apply result_bind_Ok in H. destruct H as (m & Hm & H).
  injection H as <-. eauto.
Qed.

(** The loop against its history. *)
Lemma restarts_loop_history cs : forall i s b r,
  result (restarts_loop i cs s b) = Ok r ->
  restart_chain s cs (snd r)
  /\ length (snd r) = length cs
  /\ (best_model_ (fst (fst r)), snd (fst r)) = select i (snd r) (best_model_ s) b
  /\ exists bm, fst (fst r) = with_best_model_ (last (snd r) s) bm.
Proof.
  induction cs as [|c cs IH]; intros i s b r H; simpl in H.
  - injection H as <-. simpl. repeat split.
    exists (best_model_ s). symmetry. apply with_best_model_same.
  - apply result_bind_Ok in H. destruct H as (s1 & H1 & H).
    apply result_bind_Ok in H. destruct H as (r1 & Hr1 & H).
    injection H as <-.
    destruct (restart_fit_Ok _ _ _ H1) as (Ha & Hfs & (_ & HB & _ & _)).
    cbn [fst snd restart_chain select length].
    destruct ((i =? 0) || nltb (mse_ s1) (mse_best b)) eqn:Hsel.
    + destruct (IH _ _ _ _ Hr1) as (Hch & Hlen & Hselect & (bm & Hlast)).
      split; [|split; [|split]].
      * split; [exact Ha|]. split; [apply fit_and_score_Ok; exact Hfs|].
        exists i. exact Hch.
      * rewrite Hlen. reflexivity.
      * exact Hselect.
      * destruct (snd r1) as [|r2 rs2] eqn:Ers.
        -- simpl in *. exists bm. rewrite Hlast. reflexivity.
        -- exists bm. rewrite Hlast.
           change (last (s1 :: r2 :: rs2) s) with (last (r2 :: rs2) s).
           f_equal. apply last_cons_default.
    + destruct (IH _ _ _ _ Hr1) as (Hch & Hlen & Hselect & (bm & Hlast)).
      split; [|split; [|split]].
      * split; [exact Ha|]. split; [apply fit_and_score_Ok; exact Hfs|].
        exists (best_model_ s1). rewrite with_best_model_same. exact Hch.
      * rewrite Hlen. reflexivity.
      * rewrite Hselect, HB. reflexivity.
      * destruct (snd r1) as [|r2 rs2] eqn:Ers.
        -- simpl in *. exists bm. rewrite Hlast. reflexivity.
        -- exists bm. rewrite Hlast.
           change (last (s1 :: r2 :: rs2) s) with (last (r2 :: rs2) s).
           f_equal. apply last_cons_default.
Qed.



End Selection.




(** ** Evaluations of the loss *)

Section NoStop.
Context {num : Type} {SC : Scalar num} {St : Type}.

Lemma no_stop_ret {X} (x : X) : no_stop (num := num) (St := St) (ret x).
Proof. intros msg st. discriminate. Qed.

Lemma no_stop_lift {X} (o : option X) : no_stop (num := num) (St := St) (lift o).
Proof. intros msg st. destruct o; discriminate. Qed.

Lemma no_stop_divide (x y : num) : no_stop (St := St) (divide x y).
Proof. intros msg st. discriminate. Qed.

Lemma no_stop_bind {X Y} (m : M num St X) (f : X -> M num St Y) :
  no_stop m -> (forall x, no_stop (f x)) -> no_stop (bind m f).
Proof.
  intros Hm Hf msg st. destruct m as [[x| |] tr] eqn:E; simpl.
  - pose proof (Hf x msg st) as H. destruct (f x). exact H.
  - exfalso. apply (Hm msg0 st0). reflexivity.
  - discriminate.
Qed.

Lemma no_stop_mapM {X Y} (f : X -> M num St Y) l :
  (forall a, no_stop (f a)) -> no_stop (mapM f l).
Proof.
  intros H. induction l as [|a l IH]; simpl; [apply no_stop_ret|].
  apply no_stop_bind; [apply H|]. intros b.
  apply no_stop_bind; [exact IH|]. intros bs. apply no_stop_ret.
Qed.

Lemma no_stop_foldM {X Y} (f : Y -> X -> M num St Y) l : forall acc,
  (forall acc a, no_stop (f acc a)) -> no_stop (foldM f l acc).
Proof.
  intros acc H. revert acc. induction l as [|a l IH]; intros acc; simpl;
    [apply no_stop_ret|].
  apply no_stop_bind; [apply H|]. intros; apply IH.
Qed.

End NoStop.

Ltac no_stop_steps :=
  repeat first
    [ apply no_stop_ret
    | apply no_stop_lift
    | apply no_stop_divide
    | apply no_stop_bind; [|intros ?]
    | apply no_stop_mapM; intros ?
    | apply no_stop_foldM; intros ? ?
    | match goal with |- no_stop (if ?c then _ else _) => destruct c end
    | progress cbv zeta ].

Section MaskedLoss.
Context {num : Type} {SC : Scalar num} {EX : Externals num}.

Lemma mse_masked_dense_stops (s : svd num (MatrixXd num)) :
  (mask s = false ->
     mse_masked_dense s
     = stop "'mse_masked' can only be run when a masking matrix has been specified" s)
  /\ (mask s = true -> no_stop (mse_masked_dense s)).
Proof.
  unfold mse_masked_dense. split; intros ->; simpl negb; cbv iota; [reflexivity|].
  unfold row_times_col. no_stop_steps.
Qed.

Lemma mse_masked_sparse_stops (s : svd num (SparseMatrix num)) :
  (mask s = false ->
     mse_masked_sparse s
     = stop "'mse_masked' can only be run when a masking matrix has been specified" s)
  /\ (mask s = true -> no_stop (mse_masked_sparse s)).
Proof.
  unfold mse_masked_sparse. split; intros ->; simpl negb; cbv iota; [reflexivity|].
  unfold row_times_col. no_stop_steps.
Qed.

End MaskedLoss.

(** C1, evaluated.  The unmasked [mse()] multiplies the transpose of [u]
    by the columns of [v] and loops over [v.cols()] columns.  On the
    full-rank model with [A = U V^T] exactly, dense or sparse, it returns
    0.5 where the squared error of the reconstruction over all the entries
    is 0; on the rank-1 model of a 2 by 2 matrix, again with [A = U V^T],
    it leaves the bounds of [uv_i].  The accumulators are taken to start
    from zero in both. *)
Theorem mse_is_not_the_reconstruction_error :
  (result (mse_dense Inputs.exact_model) = Ok 0.5%float
   /\ mse_spec_dense Inputs.exact_model = Some 0%float)
  /\ (result (mse_sparse Inputs.exact_model_sparse) = Ok 0.5%float
      /\ mse_spec_sparse Inputs.exact_model_sparse = Some 0%float)
  /\ (result (mse_dense Inputs.rank1_model) = OutOfBounds
      /\ mse_spec_dense Inputs.rank1_model = Some 0%float)
  /\ (result (mse_sparse Inputs.rank1_model_sparse) = OutOfBounds
      /\ mse_spec_sparse Inputs.rank1_model_sparse = Some 0%float).
Proof. vm_compute. repeat split. Qed.

(** C8, evaluated.  [mse_masked()] stops exactly when no mask matrix is
    set, and then leaves the object as it is.  With a mask matrix it
    multiplies the transpose of [u] as [mse()] does: on the rank-1 model
    [U = V = (1, 1)] of the all-ones matrix with entry (0, 0) masked the
    dense evaluator returns 1 where the squared error over the masked entry
    is 0, and with that entry an implicit zero of a sparse [A] the sparse
    evaluator returns 4 where it is 1. *)
Theorem mse_masked_is_not_the_masked_error :
  (forall (s : svd float (MatrixXd float)),
     (mask s = false ->
        mse_masked_dense s
        = stop "'mse_masked' can only be run when a masking matrix has been specified" s)
     /\ (mask s = true -> no_stop (mse_masked_dense s)))
  /\ (forall (s : svd float (SparseMatrix float)),
        (mask s = false ->
           mse_masked_sparse s
           = stop "'mse_masked' can only be run when a masking matrix has been specified" s)
        /\ (mask s = true -> no_stop (mse_masked_sparse s)))
  /\ (result (mse_masked_dense Inputs.ones_masked) = Ok 1%float
      /\ mse_masked_spec_dense Inputs.ones_masked = Some 0%float)
  /\ (result (mse_masked_sparse Inputs.ones_masked_sparse) = Ok 4%float
      /\ mse_masked_spec_sparse Inputs.ones_masked_sparse = Some 1%float).
Proof.
  split; [intros s; apply mse_masked_dense_stops|].
  split; [intros s; apply mse_masked_sparse_stops|].
  vm_compute. repeat split.
Qed.

(** ** The dispatch of [fit] *)

Section Dispatch.
Context {num : Type} {SC : Scalar num} {EX : Externals num}.
Local Abbreviation dsvd := (svd num (MatrixXd num)).


Lemma bind_ext {St X Y} (m : M num St X) (f g : X -> M num St Y) :
  (forall x, f x = g x) -> bind m f = bind m g.
Proof.
  intros H. destruct m as [[x| |] tr]; unfold bind; try reflexivity. rewrite H. reflexivity.
Qed.




End Dispatch.




(** C3, evaluated.  The V half of [fit_rank_two] subtracts
    [u.col(0)(i) * a0], an entry of [u], where the specification has
    [V(i, 0)]; the U half subtracts [v.col(0)(i) * a0], an entry of [v],
    where the specification has [U(i, 0)].  On the identity with columns
    (1, 0), (1, 1) of [u] and first column (0, 1) of [v] the V update of the
    code is (-e, 0.5 - e) and the one of the specification (0.5 - e, -e)
    for a small [e > 0]; with [u] and [v] exchanged the same holds of the U
    update.  On a 1 by 2 matrix the code reads [u.col(0)(1)], outside the
    single row of [u]. *)
Theorem rank_two_deflates_with_the_other_factor :
  match result (rank_two_update_v Inputs.two_columns),
        rank_two_update_v_spec Inputs.two_columns with
  | Ok [a; b], Some [a'; b'] =>
      PrimFloat.ltb a 0 = true /\ PrimFloat.ltb 0.375 b = true
      /\ PrimFloat.ltb 0.375 a' = true /\ PrimFloat.ltb b' 0 = true
  | _, _ => False
  end
  /\ match result (rank_two_update_u Inputs.two_columns_swapped),
            rank_two_update_u_spec Inputs.two_columns_swapped with
     | Ok [a; b], Some [a'; b'] =>
         PrimFloat.ltb a 0 = true /\ PrimFloat.ltb 0.375 b = true
         /\ PrimFloat.ltb 0.375 a' = true /\ PrimFloat.ltb b' 0 = true
     | _, _ => False
     end
  /\ result (rank_two_update_v Inputs.wide_model) = OutOfBounds
  /\ rank_two_update_v_spec Inputs.wide_model <> None.
Proof. vm_compute. repeat split. discriminate. Qed.

(** * Further properties of the code *)

(** ** Accessors that succeed *)

Lemma omap_length {X Y} (f : X -> option Y) l : forall bs,
  omap f l = Some bs -> length bs = length l.
Proof.
  induction l as [|a l IH]; intros bs H; simpl in H.
  - injection H as <-. reflexivity.
  - destruct (f a) as [b|]; simpl in H; [|discriminate].
    destruct (omap f l) as [bs'|]; simpl in H; [|discriminate].
    injection H as <-. simpl. f_equal. apply IH. reflexivity.
Qed.

Lemma omap_some {X Y} (f : X -> option Y) l :
  (forall a, In a l -> exists b, f a = Some b) -> exists bs, omap f l = Some bs.
Proof.
  induction l as [|a l IH]; intros H; simpl; [eauto|].
  destruct (H a) as [b Hb]; [left; reflexivity|]. rewrite Hb. simpl.
  destruct IH as [bs Hbs]; [intros; apply H; right; assumption|].
  rewrite Hbs. simpl. eauto.
Qed.

Lemma omap_Forall {X Y} (f : X -> option Y) (P : Y -> Prop) l : forall bs,
  omap f l = Some bs -> (forall a b, In a l -> f a = Some b -> P b) -> Forall P bs.
Proof.
  induction l as [|a l IH]; intros bs H HP; simpl in H.
  - injection H as <-. constructor.
  - destruct (f a) as [b|] eqn:Hb; simpl in H; [|discriminate].
    destruct (omap f l) as [bs'|]; simpl in H; [|discriminate].
    injection H as <-. constructor.
    + apply (HP a b); [left; reflexivity|exact Hb].
    + apply IH; [reflexivity|]. intros a' b' Ha'. apply HP. right. exact Ha'.
Qed.

Lemma set_nth_Forall {X} (P : X -> Prop) l : forall i x l',
  set_nth l i x = Some l' -> Forall P l -> P x -> Forall P l'.
Proof.
  induction l as [|a l IH]; intros [|i] x l' H Hl Hx; simpl in H; try discriminate.
  - injection H as <-. inversion Hl; subst. constructor; assumption.
  - destruct (set_nth l i x) as [r|] eqn:E; simpl in H; [|discriminate].
    injection H as <-. inversion Hl; subst. constructor; [assumption|]. eapply IH; eauto.
Qed.

Lemma set_nth_in_range {X} (l : list X) : forall i x l',
  set_nth l i x = Some l' -> i < length l.
Proof.
  intros i x l' H. destruct (le_lt_dec (length l) i) as [Hle|Hlt]; [|exact Hlt].
  rewrite (set_nth_none _ _ x Hle) in H. discriminate.
Qed.

Section ShapeFacts.
Context {num : Type} {SC : Scalar num}.

Lemma col_wf (m : MatrixXd num) j c : wf_matrix m -> col m j = Some c -> length c = mrows m.
Proof.
  unfold wf_matrix, col. intros Hwf H. rewrite Forall_forall in Hwf.
  apply Hwf. eapply nth_error_In; eauto.
Qed.

Lemma col_some (m : MatrixXd num) j : j < mcols m -> exists c, col m j = Some c.
Proof.
  unfold col, mcols. intros H. destruct (nth_error (mdata m) j) eqn:E; [eauto|].
  apply nth_error_None in E. lia.
Qed.

Lemma row_some (m : MatrixXd num) i :
  wf_matrix m -> i < mrows m -> exists r, row m i = Some r /\ length r = mcols m.
Proof.
  unfold wf_matrix, row. intros Hwf Hi. apply Nat.ltb_lt in Hi. rewrite Hi.
  apply Nat.ltb_lt in Hi. rewrite Forall_forall in Hwf.
  destruct (omap_some (fun c : Vector num => nth_error c i) (mdata m)) as [r Hr].
  { intros c Hc. destruct (nth_error c i) eqn:E; [eauto|].
    apply nth_error_None in E. rewrite (Hwf c Hc) in E. lia. }
  exists r. split; [exact Hr|]. apply omap_length in Hr. exact Hr.
Qed.

Lemma row_in_range (m : MatrixXd num) i r :
  row m i = Some r -> i < mrows m /\ length r = mcols m.
Proof.
  unfold row. destruct (Nat.ltb_spec i (mrows m)) as [Hi|Hi]; [|discriminate].
  intros H. split; [exact Hi|]. apply omap_length in H. exact H.
Qed.

Lemma set_col_some (m : MatrixXd num) j c : j < mcols m -> exists m', set_col m j c = Some m'.
Proof.
  unfold set_col, mcols. intros H. destruct (set_nth_some (mdata m) j c H) as [l Hl].
  rewrite Hl. simpl. eauto.
Qed.

Lemma set_col_wf (m m' : MatrixXd num) j c :
  wf_matrix m -> length c = mrows m -> set_col m j c = Some m' -> wf_matrix m'.
Proof.
  unfold set_col, wf_matrix. intros Hwf Hc.
  destruct (set_nth (mdata m) j c) as [l|] eqn:E; simpl; [|discriminate].
  intros H. injection H as <-. simpl. eapply set_nth_Forall; eauto.
Qed.

Lemma dot_some (x y : Vector num) : length x = length y -> dot x y = Some (dot_acc x y).
Proof. unfold dot. intros ->. rewrite Nat.eqb_refl. reflexivity. Qed.

Lemma dot_same_length (x y : Vector num) z : dot x y = Some z -> length x = length y.
Proof. unfold dot. destruct (Nat.eqb_spec (length x) (length y)); [trivial|discriminate]. Qed.

Lemma transpose_shape (m t : MatrixXd num) :
  transpose m = Some t -> mrows t = mcols m /\ mcols t = mrows m /\ wf_matrix t.
Proof.
  unfold transpose. destruct (omap (row m) (seq 0 (mrows m))) as [rs|] eqn:E; simpl; [|discriminate].
  intros H. injection H as <-. simpl. split; [reflexivity|]. split.
  - unfold mcols at 1. simpl. apply omap_length in E. rewrite E, length_seq. reflexivity.
  - unfold wf_matrix. simpl. eapply omap_Forall; [exact E|].
    intros i r _ Hr. apply row_in_range in Hr. apply Hr.
Qed.

Lemma transpose_some (m : MatrixXd num) : wf_matrix m -> exists t, transpose m = Some t.
Proof.
  intros Hwf. unfold transpose.
  destruct (omap_some (row m) (seq 0 (mrows m))) as [rs Hrs].
  { intros i Hi. apply in_seq in Hi. destruct (row_some m i Hwf) as (r & Hr & _); [lia|eauto]. }
  rewrite Hrs. simpl. eauto.
Qed.

Lemma matvec_shape (m : MatrixXd num) x y :
  matvec m x = Some y -> mcols m = length x /\ length y = mrows m.
Proof.
  unfold matvec. destruct (Nat.eqb_spec (mcols m) (length x)) as [E|]; [|discriminate].
  intros H. split; [exact E|]. apply omap_length in H. rewrite H, length_seq. reflexivity.
Qed.

Lemma matvec_some (m : MatrixXd num) x :
  wf_matrix m -> mcols m = length x -> exists y, matvec m x = Some y.
Proof.
  intros Hwf E. unfold matvec. rewrite E, Nat.eqb_refl. apply omap_some.
  intros i Hi. apply in_seq in Hi. destruct (row_some m i Hwf) as (r & Hr & Hlen); [lia|].
  rewrite Hr. simpl. rewrite dot_some by congruence. eauto.
Qed.

Lemma uninitialised_shape (mem : nat -> nat -> num) r c :
  wf_matrix (uninitialised mem r c)
  /\ mrows (uninitialised mem r c) = r /\ mcols (uninitialised mem r c) = c.
Proof.
  unfold uninitialised, wf_matrix, mcols. simpl. split; [|split; [reflexivity|]].
  - apply Forall_forall. intros x Hx. apply in_map_iff in Hx. destruct Hx as (j & <- & _).
    rewrite length_map, length_seq. reflexivity.
  - rewrite length_map, length_seq. reflexivity.
Qed.

End ShapeFacts.

(** ** Methods that return *)

Section ReturnsFacts.
Context {num : Type} {SC : Scalar num} {St : Type}.

Lemma returns_ret {X} (Q : X -> Prop) x : Q x -> returns (num := num) (St := St) Q (ret x).
Proof. intros H. exists x. split; [reflexivity|exact H]. Qed.

Lemma returns_bind {X Y} (P : X -> Prop) (Q : Y -> Prop) (m : M num St X) (f : X -> M num St Y) :
  returns P m -> (forall x, P x -> returns Q (f x)) -> returns Q (bind m f).
Proof.
  intros (x & Hx & Px) Hf. destruct (Hf x Px) as (y & Hy & Qy).
  exists y. split; [|exact Qy]. rewrite (result_bind_step _ _ _ Hx). exact Hy.
Qed.

Lemma returns_weaken {X} (P Q : X -> Prop) (m : M num St X) :
  returns P m -> (forall x, P x -> Q x) -> returns Q m.
Proof. intros (x & Hx & Px) H. exists x. auto. Qed.

Lemma returns_lift {X Y} (Q : Y -> Prop) (o : option X) x (f : X -> M num St Y) :
  o = Some x -> returns Q (f x) -> returns Q (bind (lift o) f).
Proof.
  intros -> (y & Hy & Qy). exists y. split; [|exact Qy].
  rewrite (result_bind_step _ _ x); [exact Hy|reflexivity].
Qed.

Lemma returns_vdivide {Y} (Q : Y -> Prop) (c : Vector num) (y : num)
      (f : Vector num -> M num St Y) :
  returns Q (f (map (fun a => ndiv a y) c)) -> returns Q (bind (vdivide c y) f).
Proof.
  intros (z & Hz & Qz). exists z. split; [|exact Qz].
  rewrite (result_bind_step _ _ (map (fun a => ndiv a y) c)); [exact Hz|reflexivity].
Qed.

Lemma returns_emit {Y} (Q : Y -> Prop) (e : event num) (f : unit -> M num St Y) :
  returns Q (f tt) -> returns Q (bind (emit e) f).
Proof.
  intros (z & Hz & Qz). exists z. split; [|exact Qz].
  rewrite (result_bind_step _ _ tt); [exact Hz|reflexivity].
Qed.

Lemma returns_mapM {X Y} (f : X -> M num St Y) l :
  (forall a, In a l -> returns (fun _ => True) (f a)) ->
  returns (fun ys => length ys = length l) (mapM f l).
Proof.
  induction l as [|a l IH]; intros H; simpl.
  - apply returns_ret. reflexivity.
  - eapply returns_bind; [apply H; left; reflexivity|]. intros b _.
    eapply returns_bind; [apply IH; intros; apply H; right; assumption|].
    intros bs Hbs. apply returns_ret. simpl. congruence.
Qed.

Lemma returns_foldM {X Y} (I : Y -> Prop) (f : Y -> X -> M num St Y) l : forall acc,
  I acc -> (forall acc a, In a l -> I acc -> returns I (f acc a)) ->
  returns I (foldM f l acc).
Proof.
  induction l as [|a l IH]; intros acc Hacc H; simpl.
  - apply returns_ret. exact Hacc.
  - eapply returns_bind; [apply H; [left; reflexivity|exact Hacc]|].
    intros acc' Hacc'. apply IH; [exact Hacc'|]. intros; apply H; [right|]; assumption.
Qed.

(** Inversions of the loops that returned. *)
Lemma mapM_Ok {X Y} (f : X -> M num St Y) l : forall ys,
  result (mapM f l) = Ok ys ->
  length ys = length l /\ forall a, In a l -> exists b, result (f a) = Ok b.
Proof.
  induction l as [|a l IH]; intros ys H; simpl in H.
  - injection H as <-. split; [reflexivity|]. intros a [].
  - apply result_bind_Ok in H. destruct H as (b & Hb & H).
    apply result_bind_Ok in H. destruct H as (bs & Hbs & H).
    injection H as <-. destruct (IH _ Hbs) as (Hlen & Hall).
    split; [simpl; congruence|]. intros x [<-|Hx]; [eauto|apply Hall; exact Hx].
Qed.

Lemma foldM_Ok {X Y} (I : Y -> Prop) (P : X -> Prop) (f : Y -> X -> M num St Y) l :
  (forall acc a acc', I acc -> result (f acc a) = Ok acc' -> I acc' /\ P a) ->
  forall acc r, I acc -> result (foldM f l acc) = Ok r -> I r /\ Forall P l.
Proof.
  intros Hf. induction l as [|a l IH]; intros acc r Hacc H; simpl in H.
  - injection H as <-. split; [exact Hacc|constructor].
  - apply result_bind_Ok in H. destruct H as (acc' & H1 & H).
    destruct (Hf _ _ _ Hacc H1) as (Hacc' & Pa).
    destruct (IH _ _ Hacc' H) as (Hr & Hall). split; [exact Hr|]. constructor; assumption.
Qed.

End ReturnsFacts.

(** ** Loops that return *)

Section ReturnsMore.
Context {num : Type} {SC : Scalar num} {St : Type}.

Lemma divide_returns (Q : num -> Prop) (x y : num) :
  Q (ndiv x y) -> returns (St := St) Q (divide x y).
Proof. intros H. exists (ndiv x y). split; [reflexivity|exact H]. Qed.

Lemma lift_returns {X} (Q : X -> Prop) (o : option X) x :
  o = Some x -> Q x -> returns (num := num) (St := St) Q (lift o).
Proof. intros -> H. exists x. split; [reflexivity|exact H]. Qed.

End ReturnsMore.

(** ** The fitters on a well-shaped model *)

Section FitterReturns.
Context {num : Type} {SC : Scalar num} {EX : Externals num}.
Local Abbreviation dsvd := (svd num (MatrixXd num)).
Local Abbreviation MD := (M num dsvd).

Lemma fit_rank_one_body_returns m n k (s : dsvd) :
  model_of m n k s -> 0 < k ->
  returns (fun sd => model_of m n k (fst sd)) (fit_rank_one_body s).
Proof.
  intros (HwA & HrA & HcA & Hwu & Hru & Hcu & Hwv & Hrv & Hcv & Hd) Hk.
  unfold fit_rank_one_body.
  destruct (col_some (u s) 0) as [u_it Hu_it]; [lia|].
  pose proof (col_wf _ _ _ Hwu Hu_it) as Lu.
  eapply returns_lift; [exact Hu_it|].
  eapply returns_lift; [apply dot_some; reflexivity|]. cbv zeta.
  destruct (col_some (v s) 0) as [v_it Hv_it]; [lia|].
  eapply returns_lift; [exact Hv_it|].
  eapply returns_bind.
  { apply returns_mapM. intros i Hi. apply in_seq in Hi.
    destruct (col_some (A s) i) as [ai Hai]; [lia|].
    eapply returns_lift; [exact Hai|].
    eapply returns_lift; [apply dot_some; rewrite (col_wf _ _ _ HwA Hai); lia|].
    apply divide_returns. trivial. }
  intros vraw Hvraw. rewrite length_seq in Hvraw.
  apply returns_vdivide.
  match goal with |- context [set_col (v s) 0 ?c] => set (vcol := c) end.
  assert (Lv : length vcol = mrows (v s)) by (unfold vcol; rewrite length_map; exact Hvraw).
  destruct (set_col_some (v s) 0 vcol) as [v' Hv']; [lia|].
  eapply returns_lift; [exact Hv'|].
  eapply returns_lift; [apply dot_some; reflexivity|]. cbv zeta.
  eapply returns_bind.
  { apply returns_mapM. intros i Hi. apply in_seq in Hi.
    destruct (row_some (A s) i HwA) as (ai & Hai & Lai); [lia|].
    eapply returns_lift; [exact Hai|].
    eapply returns_lift; [apply dot_some; lia|].
    apply divide_returns. trivial. }
  intros uraw Huraw. rewrite length_seq in Huraw.
  apply returns_vdivide.
  match goal with |- context [set_col (u s) 0 ?c] => set (ucol := c) end.
  assert (Lc : length ucol = mrows (u s)) by (unfold ucol; rewrite length_map; exact Huraw).
  destruct (set_col_some (u s) 0 ucol) as [u' Hu']; [lia|].
  eapply returns_lift; [exact Hu'|].
  apply returns_ret. unfold model_of. simpl.
  rewrite (set_col_mrows _ _ _ _ Hu'), (set_col_mcols _ _ _ _ Hu'),
          (set_col_mrows _ _ _ _ Hv'), (set_col_mcols _ _ _ _ Hv').
  repeat split; try assumption;
    [exact (set_col_wf _ _ _ _ Hwu Lc Hu') | exact (set_col_wf _ _ _ _ Hwv Lv Hv')].
Qed.

Lemma deflate_returns k i w (p q : MatrixXd num) x :
  wf_matrix p -> wf_matrix q -> k <= mcols p -> k <= mcols q ->
  length w = mrows p -> i < mrows q ->
  returns (fun _ => True) (deflate k i w p q x).
Proof.
  intros Hwp Hwq Hp Hq Hw Hi. unfold deflate.
  apply returns_foldM; [trivial|]. intros acc j Hj _.
  apply in_rev, in_seq in Hj.
  destruct (col_some p j) as [pk Hpk]; [lia|].
  eapply returns_lift; [exact Hpk|].
  eapply returns_lift; [apply dot_some; rewrite (col_wf _ _ _ Hwp Hpk); exact Hw|].
  destruct (col_some q j) as [qk Hqk]; [lia|].
  eapply returns_lift; [exact Hqk|].
  destruct (nth_error qk i) as [qki|] eqn:E.
  - eapply returns_lift; [reflexivity|]. apply returns_ret. trivial.
  - apply nth_error_None in E. rewrite (col_wf _ _ _ Hwq Hqk) in E. lia.
Qed.

Lemma fit_rank_k_body_returns m n k j (s : dsvd) :
  model_of m n k s -> j < k ->
  returns (fun sd => model_of m n k (fst sd)) (fit_rank_k_body j s).
Proof.
  intros (HwA & HrA & HcA & Hwu & Hru & Hcu & Hwv & Hrv & Hcv & Hd) Hk.
  unfold fit_rank_k_body.
  destruct (col_some (u s) j) as [u_it Hu_it]; [lia|].
  pose proof (col_wf _ _ _ Hwu Hu_it) as Lu.
  eapply returns_lift; [exact Hu_it|].
  eapply returns_lift; [apply dot_some; reflexivity|]. cbv zeta.
  destruct (col_some (v s) j) as [v_it Hv_it]; [lia|].
  eapply returns_lift; [exact Hv_it|].
  eapply returns_bind.
  { apply returns_mapM. intros i Hi. apply in_seq in Hi.
    destruct (col_some (A s) i) as [ai Hai]; [lia|].
    eapply returns_lift; [exact Hai|].
    eapply returns_lift; [apply dot_some; rewrite (col_wf _ _ _ HwA Hai); lia|].
    eapply returns_bind; [apply deflate_returns; try assumption; lia|].
    intros x _. apply divide_returns. trivial. }
  intros vraw Hvraw. rewrite length_seq in Hvraw.
  eapply returns_lift; [apply dot_some; reflexivity|].
  apply returns_vdivide. apply returns_vdivide.
  match goal with |- context [set_col (v s) j ?c] => set (vcol := c) end.
  assert (Lv : length vcol = mrows (v s))
    by (unfold vcol; rewrite !length_map; exact Hvraw).
  destruct (set_col_some (v s) j vcol) as [v' Hv']; [lia|].
  eapply returns_lift; [exact Hv'|].
  eapply returns_lift; [apply dot_some; reflexivity|]. cbv zeta.
  assert (Hwv' : wf_matrix v') by (eapply set_col_wf; eauto).
  pose proof (set_col_mrows _ _ _ _ Hv') as Hrv'.
  pose proof (set_col_mcols _ _ _ _ Hv') as Hcv'.
  eapply returns_bind.
  { apply returns_mapM. intros i Hi. apply in_seq in Hi.
    destruct (row_some (A s) i HwA) as (ai & Hai & Lai); [lia|].
    eapply returns_lift; [exact Hai|].
    eapply returns_lift; [apply dot_some; lia|].
    eapply returns_bind; [apply deflate_returns; try assumption; lia|].
    intros x _. apply divide_returns. trivial. }
  intros uraw Huraw. rewrite length_seq in Huraw.
  apply returns_vdivide.
  match goal with |- context [set_col (u s) j ?c] => set (ucol := c) end.
  assert (Lc : length ucol = mrows (u s)) by (unfold ucol; rewrite length_map; exact Huraw).
  destruct (set_col_some (u s) j ucol) as [u' Hu']; [lia|].
  eapply returns_lift; [exact Hu'|].
  apply returns_ret. unfold model_of. simpl.
  rewrite (set_col_mrows _ _ _ _ Hu'), (set_col_mcols _ _ _ _ Hu'), Hrv', Hcv'.
  repeat split; try assumption. exact (set_col_wf _ _ _ _ Hwu Lc Hu').
Qed.

Lemma fit_rank_two_body_returns n k (s : dsvd) :
  model_of n n k s -> 1 < k ->
  returns (fun sd => model_of n n k (fst sd)) (fit_rank_two_body s).
Proof.
  intros (HwA & HrA & HcA & Hwu & Hru & Hcu & Hwv & Hrv & Hcv & Hd) Hk.
  unfold fit_rank_two_body.
  destruct (col_some (u s) 1) as [u1 Hu1]; [lia|].
  destruct (col_some (u s) 0) as [u0 Hu0]; [lia|].
  pose proof (col_wf _ _ _ Hwu Hu1) as Lu1.
  pose proof (col_wf _ _ _ Hwu Hu0) as Lu0.
  destruct (col_some (v s) 1) as [v1 Hv1]; [lia|].
  destruct (col_some (v s) 0) as [v0 Hv0]; [lia|].
  pose proof (col_wf _ _ _ Hwv Hv0) as Lv0.
  eapply returns_lift; [exact Hu1|].
  eapply returns_bind.
  { unfold rank_two_update_v.
    eapply returns_lift; [exact Hu1|].
    eapply returns_lift; [exact Hu0|].
    eapply returns_lift; [apply dot_some; lia|]. cbv zeta.
    eapply returns_lift; [apply dot_some; reflexivity|]. cbv zeta.
    eapply returns_lift; [exact Hv1|].
    apply returns_mapM. intros i Hi. apply in_seq in Hi.
    destruct (col_some (A s) i) as [ai Hai]; [lia|].
    eapply returns_lift; [exact Hai|].
    eapply returns_lift; [apply dot_some; rewrite (col_wf _ _ _ HwA Hai); lia|].
    destruct (nth_error u0 i) as [u0i|] eqn:E;
      [|apply nth_error_None in E; lia].
    eapply returns_lift; [reflexivity|].
    apply divide_returns. trivial. }
  intros vraw Hvraw. rewrite length_seq in Hvraw.
  apply returns_vdivide.
  match goal with |- context [set_col (v s) 1 ?c] => set (vcol := c) end.
  assert (Lv : length vcol = mrows (v s)) by (unfold vcol; rewrite length_map; exact Hvraw).
  destruct (set_col_some (v s) 1 vcol) as [v' Hv']; [lia|].
  eapply returns_lift; [exact Hv'|]. cbv zeta.
  assert (Hwv' : wf_matrix v') by (eapply set_col_wf; eauto).
  pose proof (set_col_mrows _ _ _ _ Hv') as Hrv'.
  pose proof (set_col_mcols _ _ _ _ Hv') as Hcv'.
  pose proof (set_col_same _ _ _ _ Hv') as Hv1'.
  assert (Hv0' : col v' 0 = Some v0)
    by (rewrite (set_col_other _ _ _ _ _ Hv') by lia; exact Hv0).
  eapply returns_bind.
  { unfold rank_two_update_u. simpl.
    eapply returns_lift; [exact Hv1'|].
    eapply returns_lift; [exact Hv0'|].
    eapply returns_lift; [apply dot_some; lia|]. cbv zeta.
    eapply returns_lift; [apply dot_some; reflexivity|]. cbv zeta.
    eapply returns_lift; [exact Hu1|].
    apply returns_mapM. intros i Hi. apply in_seq in Hi.
    destruct (row_some (A s) i HwA) as (ai & Hai & Lai); [lia|].
    eapply returns_lift; [exact Hai|].
    eapply returns_lift; [apply dot_some; lia|].
    destruct (nth_error v0 i) as [v0i|] eqn:E;
      [|apply nth_error_None in E; lia].
    eapply returns_lift; [reflexivity|].
    apply divide_returns. trivial. }
  intros uraw Huraw. rewrite length_seq in Huraw.
  apply returns_vdivide. simpl.
  match goal with |- context [set_col (u s) 1 ?c] => set (ucol := c) end.
  assert (Lc : length ucol = mrows (u s)) by (unfold ucol; rewrite length_map; exact Huraw).
  destruct (set_col_some (u s) 1 ucol) as [u' Hu']; [lia|].
  eapply returns_lift; [exact Hu'|].
  apply returns_ret. unfold model_of. simpl.
  rewrite (set_col_mrows _ _ _ _ Hu'), (set_col_mcols _ _ _ _ Hu'), Hrv', Hcv'.
  repeat split; try assumption. exact (set_col_wf _ _ _ _ Hwu Lc Hu').
Qed.

Lemma als_loop_returns j body (I : dsvd -> Prop) :
  (forall s, I s -> returns (fun sd => I (fst sd)) (body s)) ->
  (forall s i, I s -> I (with_iter_ s i)) ->
  forall fuel dn s, I s -> returns (fun sd => I (fst sd)) (als_loop j body fuel dn s).
Proof.
  intros Hb Hi. induction fuel as [|fuel IH]; intros dn s Hs; cbn [als_loop].
  - apply returns_ret. exact Hs.
  - eapply returns_bind; [apply Hb; exact Hs|]. intros sd Hsd.
    apply returns_emit. destruct (nltb _ _).
    + apply returns_ret. exact Hsd.
    + apply IH, Hi, Hsd.
Qed.

Lemma unscale_returns m n k j (sd : dsvd * num) :
  model_of m n k (fst sd) -> j < k -> returns (model_of m n k) (unscale j sd).
Proof.
  intros (HwA & HrA & HcA & Hwu & Hru & Hcu & Hwv & Hrv & Hcv & Hd) Hk.
  unfold unscale.
  destruct (col_some (u (fst sd)) j) as [c Hc]; [lia|].
  eapply returns_lift; [exact Hc|].
  destruct (set_col_some (u (fst sd)) j (vscale c (snd sd))) as [u' Hu']; [lia|].
  eapply returns_lift; [exact Hu'|].
  apply returns_ret. unfold model_of. simpl.
  rewrite (set_col_mrows _ _ _ _ Hu'), (set_col_mcols _ _ _ _ Hu').
  assert (Lc : length (vscale c (snd sd)) = mrows (u (fst sd)))
    by (unfold vscale; rewrite length_map; eapply col_wf; eauto).
  repeat split; try assumption. exact (set_col_wf _ _ _ _ Hwu Lc Hu').
Qed.

Lemma fit_rank_returns m n k j (s : dsvd) :
  model_of m n k s -> j < k -> (j = 1 -> m = n) ->
  returns (model_of m n k) (fit_rank j s).
Proof.
  intros Hs Hj Hsq.
  assert (Hloop : forall body,
            (forall s, model_of m n k s -> returns (fun sd => model_of m n k (fst sd)) (body s)) ->
            returns (model_of m n k)
                    (sd <- als_loop j body (maxit s - iter_ s) (d_uninit j) s ;; unscale j sd)).
  { intros body Hb. eapply returns_bind.
    - apply (als_loop_returns j body (model_of m n k)); [exact Hb| |exact Hs].
      intros; assumption.
    - intros sd Hsd. apply unscale_returns; assumption. }
  destruct j as [|[|j]]; simpl.
  - apply Hloop. intros s0 H0. apply fit_rank_one_body_returns; [exact H0|lia].
  - assert (m = n) by auto. subst m.
    apply Hloop. intros s0 H0. apply fit_rank_two_body_returns; [exact H0|lia].
  - apply Hloop. intros s0 H0. apply fit_rank_k_body_returns; [exact H0|lia].
Qed.

Lemma fit_ranks_returns m n k ks : forall (s : dsvd),
  model_of m n k s -> Forall (fun j => j < k /\ (j = 1 -> m = n)) ks ->
  returns (model_of m n k) (fit_ranks ks s).
Proof.
  induction ks as [|j ks IH]; intros s Hs Hks; simpl.
  - apply returns_ret. exact Hs.
  - inversion Hks as [|? ? [Hj Hsq] Hrest]; subst.
    eapply returns_bind; [apply fit_rank_returns; eassumption|].
    intros s1 Hs1. apply IH; assumption.
Qed.

Lemma diagonal_step_returns m n k i (s : dsvd) :
  model_of m n k s -> i < k -> returns (model_of m n k) (diagonal_step i s).
Proof.
  intros (HwA & HrA & HcA & Hwu & Hru & Hcu & Hwv & Hrv & Hcv & Hd) Hk.
  unfold diagonal_step.
  destruct (col_some (u s) i) as [c Hc]; [lia|].
  eapply returns_lift; [exact Hc|].
  destruct (set_nth_some (d s) i (norm c)) as [d' Hd']; [lia|].
  eapply returns_lift; [exact Hd'|].
  apply returns_vdivide.
  match goal with |- context [set_col (u s) i ?x] => set (c' := x) end.
  destruct (set_col_some (u s) i c') as [u' Hu']; [lia|].
  eapply returns_lift; [exact Hu'|].
  apply returns_ret. unfold model_of. simpl.
  rewrite (set_col_mrows _ _ _ _ Hu'), (set_col_mcols _ _ _ _ Hu'),
          (set_nth_length _ _ _ _ Hd').
  assert (Lc : length c' = mrows (u s))
    by (unfold c'; rewrite length_map; eapply col_wf; eauto).
  repeat split; try assumption. exact (set_col_wf _ _ _ _ Hwu Lc Hu').
Qed.

Lemma fit_diagonal_returns m n k idx : forall (s : dsvd),
  model_of m n k s -> Forall (fun i => i < k) idx ->
  returns (model_of m n k) (fit_diagonal idx s).
Proof.
  induction idx as [|i idx IH]; intros s Hs Hidx; simpl.
  - apply returns_ret. exact Hs.
  - inversion Hidx; subst.
    eapply returns_bind; [apply diagonal_step_returns; eassumption|].
    intros s1 Hs1. apply IH; assumption.
Qed.

Lemma fit_returns m n k (s : dsvd) :
  model_of m n k s -> k <= 1 \/ m = n -> returns (model_of m n k) (fit s).
Proof.
  intros Hs Hsq. unfold fit.
  assert (Hk : mcols (u s) = k) by apply Hs.
  eapply returns_bind.
  - apply (fit_ranks_returns m n k); [exact Hs|]. rewrite Hk.
    apply Forall_forall. intros j Hj. apply in_seq in Hj. split; [lia|].
    intros ->. destruct Hsq; [lia|assumption].
  - intros s1 Hs1. apply fit_diagonal_returns; [exact Hs1|].
    assert (Hk1 : mcols (u s1) = k) by apply Hs1. rewrite Hk1.
    apply Forall_forall. intros j Hj. apply in_seq in Hj. lia.
Qed.

End FitterReturns.

(** ** The final diagonal step on a run *)



(** ** What [fit] keeps *)

Section KeptFacts.
Context {num : Type} {SC : Scalar num} {EX : Externals num}.
Local Abbreviation dsvd := (svd num (MatrixXd num)).
Local Abbreviation MD := (M num dsvd).

Lemma kept_refl (s : dsvd) : kept s s.
Proof. repeat split. Qed.

Lemma kept_trans (s1 s2 s3 : dsvd) : kept s1 s2 -> kept s2 s3 -> kept s1 s3.
Proof. unfold kept, settings_kept, shapes_kept. intuition congruence. Qed.

Lemma kept_with_iter_ (s : dsvd) i : kept s (with_iter_ s i).
Proof. repeat split. Qed.

Lemma fit_rank_one_body_kept (s : dsvd) sd :
  result (fit_rank_one_body s) = Ok sd -> kept s (fst sd).
Proof.
  unfold fit_rank_one_body. intros H. inv_ok. subst sd.
  unfold kept, settings_kept, shapes_kept. simpl.
  repeat split; eauto using set_col_mrows, set_col_mcols.
Qed.

Lemma fit_rank_two_body_kept (s : dsvd) sd :
  result (fit_rank_two_body s) = Ok sd -> kept s (fst sd).
Proof.
  unfold fit_rank_two_body. intros H. inv_ok. subst sd.
  unfold kept, settings_kept, shapes_kept. simpl in *.
  repeat split; eauto using set_col_mrows, set_col_mcols.
Qed.

Lemma fit_rank_k_body_kept k (s : dsvd) sd :
  result (fit_rank_k_body k s) = Ok sd -> kept s (fst sd).
Proof.
  unfold fit_rank_k_body. intros H. inv_ok. subst sd.
  unfold kept, settings_kept, shapes_kept. simpl.
  repeat split; eauto using set_col_mrows, set_col_mcols.
Qed.

Lemma unscale_kept k (sd : dsvd * num) s' :
  result (unscale k sd) = Ok s' -> kept (fst sd) s'.
Proof.
  unfold unscale. intros H. inv_ok. subst s'.
  unfold kept, settings_kept, shapes_kept. simpl.
  repeat split; eauto using set_col_mrows, set_col_mcols.
Qed.

Lemma als_loop_kept j (body : dsvd -> MD (dsvd * num)) :
  (forall s sd, result (body s) = Ok sd -> kept s (fst sd)) ->
  forall fuel dn s sd, result (als_loop j body fuel dn s) = Ok sd -> kept s (fst sd).
Proof.
  intros Hb. induction fuel as [|fuel IH]; intros dn s sd H; cbn [als_loop] in H.
  - injection H as <-. apply kept_refl.
  - apply result_bind_Ok in H. destruct H as (sd1 & H1 & H).
    apply result_bind_Ok in H. destruct H as (_ & _ & H).
    apply Hb in H1. destruct (nltb _ _).
    + injection H as <-. exact H1.
    + apply IH in H. eapply kept_trans; [exact H1|].
      eapply kept_trans; [apply kept_with_iter_|exact H].
Qed.

Lemma fit_rank_kept j (s s' : dsvd) : result (fit_rank j s) = Ok s' -> kept s s'.
Proof.
  assert (Hloop : forall body,
            (forall s sd, result (body s) = Ok sd -> kept s (fst sd)) ->
            result (sd <- als_loop j body (maxit s - iter_ s) (d_uninit j) s ;; unscale j sd)
            = Ok s' -> kept s s').
  { intros body Hb H. apply result_bind_Ok in H. destruct H as (sd & H1 & H2).
    eapply kept_trans; [eapply als_loop_kept; eauto|eapply unscale_kept; eauto]. }
  destruct j as [|[|j]]; simpl; apply Hloop.
  - apply fit_rank_one_body_kept.
  - apply fit_rank_two_body_kept.
  - apply fit_rank_k_body_kept.
Qed.

Lemma fit_ranks_kept ks : forall (s s' : dsvd),
  result (fit_ranks ks s) = Ok s' -> kept s s'.
Proof.
  induction ks as [|j ks IH]; intros s s' H; simpl in H.
  - injection H as <-. apply kept_refl.
  - apply result_bind_Ok in H. destruct H as (s1 & H1 & H).
    eapply kept_trans; [eapply fit_rank_kept; eauto|eauto].
Qed.

Lemma diagonal_step_kept i (s s' : dsvd) :
  result (diagonal_step i s) = Ok s' -> kept s s' /\ i < length (d s).
Proof.
  unfold diagonal_step. intros H. inv_ok. subst s'.
  unfold kept, settings_kept, shapes_kept. simpl.
  repeat split; eauto using set_col_mrows, set_col_mcols, set_nth_length, set_nth_in_range.
Qed.

Lemma fit_diagonal_kept idx : forall (s s' : dsvd),
  result (fit_diagonal idx s) = Ok s' ->
  kept s s' /\ Forall (fun i => i < length (d s)) idx.
Proof.
  induction idx as [|i idx IH]; intros s s' H; simpl in H.
  - injection H as <-. split; [apply kept_refl|constructor].
  - apply result_bind_Ok in H. destruct H as (s1 & H1 & H).
    destruct (diagonal_step_kept _ _ _ H1) as (K1 & Hi).
    destruct (IH _ _ H) as (K2 & Hall).
    split; [eapply kept_trans; eauto|]. constructor; [exact Hi|].
    eapply Forall_impl; [|exact Hall]. intros a Ha.
    destruct K1 as (_ & _ & _ & _ & _ & Hd). simpl in Ha. lia.
Qed.

Lemma fit_kept (s s' : dsvd) :
  result (fit s) = Ok s' -> kept s s' /\ mcols (u s) <= length (d s).
Proof.
  unfold fit. intros H. apply result_bind_Ok in H. destruct H as (s1 & H1 & H).
  apply fit_ranks_kept in H1. apply fit_diagonal_kept in H. destruct H as (K2 & Hall).
  split; [eapply kept_trans; eauto|].
  destruct H1 as (_ & _ & Hcu & _ & _ & Hd).
  rewrite Hcu, Hd in Hall. rewrite Forall_forall in Hall.
  destruct (mcols (u s)) as [|k] eqn:E; [lia|].
  specialize (Hall k). rewrite in_seq in Hall. lia.
Qed.

End KeptFacts.

(** ** No configuration error *)

Section NoStopMore.
Context {num : Type} {SC : Scalar num} {St : Type}.

Lemma no_stop_vdivide (c : Vector num) (y : num) : no_stop (St := St) (vdivide c y).
Proof. intros msg st. discriminate. Qed.

Lemma no_stop_emit (e : event num) : no_stop (St := St) (emit e).
Proof. intros msg st. discriminate. Qed.

End NoStopMore.

Ltac no_stop_all :=
  repeat first
    [ apply no_stop_ret
    | apply no_stop_lift
    | apply no_stop_divide
    | apply no_stop_vdivide
    | apply no_stop_emit
    | apply no_stop_bind; [|intros ?]
    | apply no_stop_mapM; intros ?
    | apply no_stop_foldM; intros ? ?
    | match goal with |- no_stop (if ?c then _ else _) => destruct c end
    | progress cbv zeta ].

Section FitNoStop.
Context {num : Type} {SC : Scalar num} {EX : Externals num}.
Local Abbreviation dsvd := (svd num (MatrixXd num)).
Local Abbreviation MD := (M num dsvd).

Lemma als_loop_no_stop j (body : dsvd -> MD (dsvd * num)) :
  (forall s, no_stop (body s)) ->
  forall fuel dn s, no_stop (als_loop j body fuel dn s).
Proof.
  intros Hb. induction fuel as [|fuel IH]; intros dn s; cbn [als_loop].
  - apply no_stop_ret.
  - apply no_stop_bind; [apply Hb|]. intros sd.
    apply no_stop_bind; [apply no_stop_emit|]. intros _.
    destruct (nltb _ _); [apply no_stop_ret|apply IH].
Qed.

Lemma fit_rank_no_stop j (s : dsvd) : no_stop (fit_rank j s).
Proof.
  assert (Hloop : forall body, (forall s, no_stop (body s)) ->
            no_stop (sd <- als_loop j body (maxit s - iter_ s) (d_uninit j) s ;; unscale j sd)).
  { intros body Hb. apply no_stop_bind; [apply als_loop_no_stop; exact Hb|].
    intros sd. unfold unscale. no_stop_all. }
  destruct j as [|[|j]]; simpl; apply Hloop; intros s0.
  - unfold fit_rank_one_body. no_stop_all.
  - unfold fit_rank_two_body, rank_two_update_v, rank_two_update_u. no_stop_all.
  - unfold fit_rank_k_body, deflate. no_stop_all.
Qed.

Lemma fit_no_stop (s : dsvd) : no_stop (fit s).
Proof.
  unfold fit. apply no_stop_bind.
  - generalize (seq 0 (mcols (u s))). intros ks. revert s.
    induction ks as [|j ks IH]; intros s; simpl; [apply no_stop_ret|].
    apply no_stop_bind; [apply fit_rank_no_stop|]. intros; apply IH.
  - intros s1. generalize (seq 0 (mcols (u s1))). intros idx. revert s1.
    induction idx as [|i idx IH]; intros s1; simpl; [apply no_stop_ret|].
    apply no_stop_bind; [unfold diagonal_step; no_stop_all|]. intros; apply IH.
Qed.

Lemma mse_dense_no_stop (s : dsvd) : no_stop (mse_dense s).
Proof. unfold mse_dense, column_loss_dense, zero_masked. no_stop_all. Qed.

Lemma mse_sparse_no_stop (s : svd num (SparseMatrix num)) : no_stop (mse_sparse s).
Proof. unfold mse_sparse, column_loss_sparse, zero_masked. no_stop_all. Qed.

End FitNoStop.

(** ** The dense loss on a well-shaped model *)

Section LossReturns.
Context {num : Type} {SC : Scalar num} {EX : Externals num}.
Local Abbreviation dsvd := (svd num (MatrixXd num)).
Local Abbreviation MD := (M num dsvd).

Lemma coeff_some (m : MatrixXd num) i j :
  wf_matrix m -> i < mrows m -> j < mcols m -> exists a, coeff m i j = Some a.
Proof.
  intros Hwf Hi Hj. unfold coeff. destruct (col_some m j Hj) as [c Hc]. rewrite Hc. simpl.
  destruct (nth_error c i) eqn:E; [eauto|].
  apply nth_error_None in E. rewrite (col_wf _ _ _ Hwf Hc) in E. lia.
Qed.

Lemma coeff_in_range (m : MatrixXd num) i j a : coeff m i j = Some a -> j < mcols m.
Proof.
  unfold coeff. destruct (col m j) eqn:E; simpl; [|discriminate].
  intros _. eapply col_in_range; eauto.
Qed.

Lemma nth_error_some {X} (l : list X) i : i < length l -> exists x, nth_error l i = Some x.
Proof.
  intros H. destruct (nth_error l i) eqn:E; [eauto|]. apply nth_error_None in E. lia.
Qed.

Lemma zero_masked_returns {T} {BT : Backend T} n (s : svd num T) i uv :
  mask_fits s -> rows (A s) = n -> cols (A s) = n -> i < n -> length uv = n ->
  returns (fun uv' => True) (zero_masked s i uv).
Proof.
  intros Hm HrA HcA Hi Huv. unfold zero_masked. destruct (mask s) eqn:E.
  - destruct (Hm E) as (Hr & Hc & Hin).
    destruct (nth_error_some (sp_data (mask_matrix s)) i) as [c Hcol].
    { unfold sp_cols in Hc. lia. }
    assert (Hidx : InnerIndices (mask_matrix s) i = Some (map fst c)).
    { unfold InnerIndices, InnerIterator. rewrite Hcol. reflexivity. }
    eapply returns_lift; [exact Hidx|].
    eapply returns_weaken.
    + apply (returns_foldM (fun uv' : Vector num => length uv' = n)); [exact Huv|].
      intros acc r Hr' Hacc. apply in_map_iff in Hr'. destruct Hr' as (p & <- & Hp).
      unfold sparse_in_range in Hin. rewrite Forall_forall in Hin.
      pose proof (Hin c (nth_error_In _ _ Hcol)) as Hcin. rewrite Forall_forall in Hcin.
      specialize (Hcin p Hp).
      destruct (set_nth_some acc (fst p) nzero) as [l Hl]; [lia|].
      eapply lift_returns; [exact Hl|]. rewrite (set_nth_length _ _ _ _ Hl). exact Hacc.
    + trivial.
  - apply returns_ret. trivial.
Qed.

Lemma column_loss_dense_returns n (s : dsvd) u0 i :
  model_of n n n s -> mask_fits s -> transpose (u s) = Some u0 -> i < n ->
  returns (fun _ => True) (column_loss_dense s u0 i).
Proof.
  intros (HwA & HrA & HcA & Hwu & Hru & Hcu & Hwv & Hrv & Hcv & Hd) Hm Ht Hi.
  destruct (transpose_shape _ _ Ht) as (Hr0 & Hc0 & Hw0).
  unfold column_loss_dense.
  destruct (col_some (v s) i) as [vi Hvi]; [lia|].
  pose proof (col_wf _ _ _ Hwv Hvi) as Lvi.
  eapply returns_lift; [exact Hvi|].
  destruct (matvec_some u0 vi Hw0) as [uv_i Huv]; [lia|].
  destruct (matvec_shape _ _ _ Huv) as (_ & Luv).
  eapply returns_lift; [exact Huv|].
  destruct (mask_zeros s).
  - apply returns_foldM; [trivial|]. intros loss iter Hiter _. apply in_seq in Hiter.
    destruct (coeff_some (A s) iter i HwA) as [a Ha]; [lia|lia|].
    eapply returns_lift; [exact Ha|].
    destruct (negb (neqb a nzero)); [|apply returns_ret; trivial].
    destruct (nth_error_some uv_i iter) as [x Hx]; [lia|].
    eapply returns_lift; [exact Hx|]. apply returns_ret. trivial.
  - eapply returns_bind.
    + apply (returns_foldM (fun uv : Vector num => length uv = n)); [lia|].
      intros uv iter Hiter Huvn. apply in_seq in Hiter.
      destruct (nth_error_some uv iter) as [x Hx]; [lia|].
      eapply returns_lift; [exact Hx|].
      destruct (coeff_some (A s) iter i HwA) as [a Ha]; [lia|lia|].
      eapply returns_lift; [exact Ha|].
      destruct (set_nth_some uv iter (nsub x a)) as [l Hl]; [lia|].
      eapply lift_returns; [exact Hl|]. rewrite (set_nth_length _ _ _ _ Hl). exact Huvn.
    + intros uv Huvn. eapply returns_bind.
      * apply (zero_masked_returns n); assumption.
      * intros uv' _. apply returns_ret. trivial.
Qed.

Lemma mse_dense_returns n (s : dsvd) :
  model_of n n n s -> mask_fits s -> returns (fun _ => True) (mse_dense s).
Proof.
  intros Hs Hm. unfold mse_dense.
  destruct (transpose_some (u s)) as [u0 Hu0]; [apply Hs|].
  eapply returns_lift; [exact Hu0|].
  eapply returns_bind.
  - apply returns_mapM. intros i Hi. apply in_seq in Hi.
    assert (Hk : mcols (v s) = n) by apply Hs.
    eapply column_loss_dense_returns; eauto. lia.
  - intros losses _. apply divide_returns. trivial.
Qed.

(** The loss within bounds: what the shapes must be. *)
Lemma column_loss_dense_Ok (s : dsvd) u0 i x :
  0 < mrows (A s) ->
  result (column_loss_dense s u0 i) = Ok x ->
  i < mcols (A s)
  /\ (forall vi, col (v s) i = Some vi -> mcols u0 = length vi)
  /\ (mask_zeros s = false -> mrows (A s) <= mrows u0).
Proof.
  intros Hm. unfold column_loss_dense. intros H.
  apply result_bind_Ok in H. destruct H as (vi & Hvi & H). apply result_lift_Ok in Hvi.
  apply result_bind_Ok in H. destruct H as (uv_i & Huv & H). apply result_lift_Ok in Huv.
  destruct (matvec_shape _ _ _ Huv) as (Hc & Luv).
  assert (Hseq : seq 0 (mrows (A s)) = 0 :: seq 1 (mrows (A s) - 1)).
  { destruct (mrows (A s)); [lia|]. simpl. rewrite Nat.sub_0_r. reflexivity. }
  destruct (mask_zeros s).
  - split; [|split; [|discriminate]].
    + rewrite Hseq in H. simpl in H.
      apply result_bind_Ok in H. destruct H as (acc & H & _).
      apply result_bind_Ok in H. destruct H as (a & Ha & _).
      apply result_lift_Ok in Ha. eapply coeff_in_range; eauto.
    + intros vi' E. congruence.
  - apply result_bind_Ok in H. destruct H as (uv & Hfold & _).
    assert (Hall : Forall (fun iter => iter < mrows u0 /\ i < mcols (A s))
                          (seq 0 (mrows (A s)))).
    { match type of Hfold with
      | result (foldM ?f _ _) = _ =>
          assert (Hstep : forall acc a acc',
                     length acc = mrows u0 -> result (f acc a) = Ok acc' ->
                     length acc' = mrows u0 /\ (a < mrows u0 /\ i < mcols (A s)))
      end.
      { intros acc a acc' Hacc Hstep.
        apply result_bind_Ok in Hstep. destruct Hstep as (x0 & Hx0 & Hstep).
        apply result_lift_Ok in Hx0.
        apply result_bind_Ok in Hstep. destruct Hstep as (a0 & Ha0 & Hstep).
        apply result_lift_Ok in Ha0. apply result_lift_Ok in Hstep.
        split; [rewrite (set_nth_length _ _ _ _ Hstep); exact Hacc|].
        split; [rewrite <- Hacc; apply nth_error_Some; congruence
               |eapply coeff_in_range; eauto]. }
      exact (proj2 (foldM_Ok _ _ _ _ Hstep _ _ Luv Hfold)). }
    rewrite Forall_forall in Hall. split; [|split].
    + apply (Hall 0). apply in_seq. lia.
    + intros vi' E. congruence.
    + intros _. destruct (Hall (mrows (A s) - 1)) as [Hlt _]; [apply in_seq; lia|]. lia.
Qed.

Lemma mse_dense_Ok m n k (s : dsvd) x :
  model_of m n k s -> 0 < m -> 0 < k ->
  result (mse_dense s) = Ok x ->
  m = n /\ k <= n /\ (mask_zeros s = false -> k = n).
Proof.
  intros (HwA & HrA & HcA & Hwu & Hru & Hcu & Hwv & Hrv & Hcv & Hd) Hm Hk.
  unfold mse_dense. intros H.
  apply result_bind_Ok in H. destruct H as (u0 & Hu0 & H). apply result_lift_Ok in Hu0.
  apply result_bind_Ok in H. destruct H as (losses & Hl & _).
  destruct (transpose_shape _ _ Hu0) as (Hr0 & Hc0 & _).
  destruct (mapM_Ok _ _ _ Hl) as (_ & Hall).
  destruct (Hall (k - 1)) as [b Hb]; [apply in_seq; lia|].
  assert (HmA : 0 < mrows (A s)) by lia.
  destruct (column_loss_dense_Ok _ _ _ _ HmA Hb) as (Hi & Hlen & Hrows).
  destruct (col_some (v s) (k - 1)) as [vi Hvi]; [lia|].
  pose proof (Hlen vi Hvi) as E. rewrite (col_wf _ _ _ Hwv Hvi) in E.
  split; [lia|]. split; [lia|]. intros Hz. specialize (Hrows Hz). lia.
Qed.

End LossReturns.

(** ** From [returns] to the result *)

Section ReturnsResult.
Context {num St : Type}.

Lemma returns_result {X} (P R : X -> Prop) (m : M num St X) :
  returns P m -> (forall x, result m = Ok x -> R x) -> returns (fun x => P x /\ R x) m.
Proof. intros (x & Hx & Px) H. exists x. auto. Qed.

Lemma returns_Ok {X} (P : X -> Prop) (m : M num St X) x :
  returns P m -> result m = Ok x -> P x.
Proof. intros (y & Hy & Py) H. congruence. Qed.

End ReturnsResult.

(** ** Restarts on a well-shaped model *)

Section RestartReturns.
Context {num : Type} {SC : Scalar num} {EX : Externals num}.
Local Abbreviation dsvd := (svd num (MatrixXd num)).
Local Abbreviation MD := (M num dsvd).

Lemma model_of_snapshot n (s : dsvd) : model_of n n n s -> best_of n (snapshot s).
Proof. unfold model_of, best_of. simpl. tauto. Qed.

Lemma mask_fits_kept (s s' : dsvd) : settings_kept s s' -> mask_fits s -> mask_fits s'.
Proof.
  intros (HA & HM & Hm & _) H. unfold mask_fits. rewrite HA, HM, Hm. exact H.
Qed.

Lemma restart_fit_returns n (s : dsvd) c :
  model_of n n n s -> mask_fits s -> wf_matrix c -> mrows c = n -> mcols c = n ->
  returns (fun s' => model_of n n n s' /\ mask_fits s') (restart_fit s c).
Proof.
  intros Hs Hm Hwc Hrc Hcc.
  pose proof Hs as (HwA & HrA & HcA & Hwu & Hru & Hcu & Hwv & Hrv & Hcv & Hd).
  rewrite restart_fit_accepted by (split; lia).
  unfold fit_and_score.
  assert (Hreset : model_of n n n (restart_reset s c)).
  { unfold model_of, restart_reset. simpl. repeat split; assumption. }
  eapply returns_bind.
  - apply returns_result; [apply fit_returns; [exact Hreset|right; reflexivity]|].
    intros s2 H2. exact (proj1 (proj1 (fit_kept _ _ H2))).
  - intros s2 (Hs2 & Hk2). cbv beta in Hk2.
    assert (Hm2 : mask_fits s2).
    { eapply mask_fits_kept; [exact Hk2|]. exact Hm. }
    eapply returns_bind; [apply (mse_dense_returns n); assumption|].
    intros x _. apply returns_ret. split; [exact Hs2|exact Hm2].
Qed.

Lemma restarts_loop_returns n cs : forall i (s : dsvd) b,
  model_of n n n s -> mask_fits s -> best_of n b ->
  Forall (fun c => wf_matrix c /\ mrows c = n /\ mcols c = n) cs ->
  returns (fun r => model_of n n n (fst (fst r)) /\ best_of n (snd (fst r)))
          (restarts_loop i cs s b).
Proof.
  induction cs as [|c cs IH]; intros i s b Hs Hm Hb Hcs; cbn [restarts_loop].
  - apply returns_ret. split; assumption.
  - apply Forall_cons_iff in Hcs. destruct Hcs as ((Hwc & Hrc & Hcc) & Hrest).
    eapply returns_bind; [apply (restart_fit_returns n); assumption|].
    intros s1 (Hs1 & Hm1).
    eapply returns_bind.
    + destruct ((i =? 0) || nltb (mse_ s1) (mse_best b)).
      * apply IH; try assumption. apply (model_of_snapshot n s1 Hs1).
      * apply IH; assumption.
    + intros r Hr. apply returns_ret. exact Hr.
Qed.

Lemma fit_restarts_returns n (s : dsvd) cs :
  model_of n n n s -> mask_fits s ->
  Forall (fun c => wf_matrix c /\ mrows c = n /\ mcols c = n) cs ->
  returns (model_of n n n) (fit_restarts s cs).
Proof.
  intros Hs Hm Hcs. unfold fit_restarts, fit_restarts_runs.
  eapply returns_bind with (P := fun r => model_of n n n (fst r)).
  - eapply returns_bind.
    + apply (restarts_loop_returns n cs 0 s); try assumption.
      unfold best_of. simpl. unfold model_of in Hs. tauto.
    + intros r (Hr & Hb). cbv zeta. destruct (Z.eqb _ _).
      * apply returns_ret. exact Hr.
      * apply returns_ret. cbn [fst].
        unfold model_of, best_of, restore in *. simpl. tauto.
  - intros r Hr. apply returns_ret. exact Hr.
Qed.

(** What a fit that stays within bounds says of the shapes. *)
Lemma seq_S_first k : seq 0 (S k) = 0 :: seq 1 k.
Proof. reflexivity. Qed.

Lemma fit_rank_one_body_Ok (s : dsvd) sd :
  result (fit_rank_one_body s) = Ok sd ->
  wf_matrix (A s) -> wf_matrix (u s) -> 0 < mrows (v s) ->
  mrows (u s) = mrows (A s).
Proof.
  unfold fit_rank_one_body. intros H HwA Hwu Hv.
  apply result_bind_Ok in H. destruct H as (u_it & Hu_it & H). apply result_lift_Ok in Hu_it.
  apply result_bind_Ok in H. destruct H as (uu & _ & H). cbv zeta in H.
  apply result_bind_Ok in H. destruct H as (_ & _ & H).
  apply result_bind_Ok in H. destruct H as (vraw & Hvraw & _).
  destruct (mapM_Ok _ _ _ Hvraw) as (_ & Hall).
  destruct (Hall 0) as [b Hb]; [apply in_seq; lia|].
  apply result_bind_Ok in Hb. destruct Hb as (ai & Hai & Hb). apply result_lift_Ok in Hai.
  apply result_bind_Ok in Hb. destruct Hb as (x & Hx & _). apply result_lift_Ok in Hx.
  apply dot_same_length in Hx.
  rewrite <- (col_wf _ _ _ Hwu Hu_it), <- (col_wf _ _ _ HwA Hai). exact Hx.
Qed.

Lemma fit_first_body (s s' : dsvd) :
  result (fit s) = Ok s' -> 0 < mcols (u s) -> iter_ s < maxit s ->
  exists sd, result (fit_rank_one_body s) = Ok sd.
Proof.
  unfold fit. intros H Hk Hit.
  apply result_bind_Ok in H. destruct H as (s1 & H & _).
  destruct (mcols (u s)) as [|k]; [lia|]. rewrite seq_S_first in H. cbn [fit_ranks] in H.
  apply result_bind_Ok in H. destruct H as (s2 & H & _).
  cbn [fit_rank] in H. unfold fit_rank_one in H.
  apply result_bind_Ok in H. destruct H as (sd & H & _).
  destruct (maxit s - iter_ s) as [|f] eqn:E; [lia|]. cbn [als_loop] in H.
  apply result_bind_Ok in H. destruct H as (sd1 & H & _). eauto.
Qed.

Lemma mse_dense_cols (s : dsvd) x :
  result (mse_dense s) = Ok x -> 0 < mrows (A s) -> mcols (v s) <= mcols (A s).
Proof.
  unfold mse_dense. intros H Hm.
  apply result_bind_Ok in H. destruct H as (u0 & _ & H).
  apply result_bind_Ok in H. destruct H as (losses & Hl & _).
  destruct (mapM_Ok _ _ _ Hl) as (_ & Hall).
  destruct (mcols (v s)) as [|k] eqn:E; [lia|].
  destruct (Hall k) as [b Hb]; [apply in_seq; lia|].
  destruct (column_loss_dense_Ok _ _ _ _ Hm Hb) as (Hi & _). lia.
Qed.

Lemma restart_fit_shapes m n k (s : dsvd) c s' :
  model_of m n k s -> 0 < m -> 0 < maxit s -> wf_matrix c ->
  result (restart_fit s c) = Ok s' -> m = n /\ k = n.
Proof.
  intros (HwA & HrA & HcA & Hwu & Hru & Hcu & Hwv & Hrv & Hcv & Hd) Hm Hit Hwc H.
  destruct (restart_fit_Ok _ _ _ H) as ((Hrc & Hcc) & Hfs & _).
  destruct (fit_and_score_Ok _ _ _ Hfs) as (s2 & x & Hfit & Hmse & _).
  destruct (fit_kept _ _ Hfit) as ((Hset & Hsh) & Hdk).
  destruct Hset as (HA2 & _). destruct Hsh as (_ & _ & _ & Hcv2 & _).
  unfold restart_reset in *. simpl in *.
  assert (Hkn : k <= n).
  { pose proof (mse_dense_cols _ _ Hmse) as Hc. rewrite HA2, Hcv2 in Hc. lia. }
  destruct (fit_first_body _ _ Hfit) as [sd Hsd]; [simpl; lia|simpl; lia|].
  pose proof (fit_rank_one_body_Ok _ _ Hsd) as Hb. simpl in Hb.
  specialize (Hb HwA Hwc). lia.
Qed.

Lemma fit_restarts_shapes m n k (s : dsvd) c cs s' :
  model_of m n k s -> 0 < m -> 0 < maxit s -> wf_matrix c ->
  result (fit_restarts s (c :: cs)) = Ok s' -> m = n /\ k = n.
Proof.
  intros Hs Hm Hit Hwc H. unfold fit_restarts, fit_restarts_runs in H.
  apply result_bind_Ok in H. destruct H as (r & H & _).
  apply result_bind_Ok in H. destruct H as (r1 & H & _).
  cbn [restarts_loop] in H.
  apply result_bind_Ok in H. destruct H as (s1 & H & _).
  eapply restart_fit_shapes; eauto.
Qed.

Lemma fit_rank_two_body_Ok (s : dsvd) sd :
  result (fit_rank_two_body s) = Ok sd ->
  wf_matrix (u s) -> wf_matrix (v s) -> mrows (u s) = mrows (v s).
Proof.
  unfold fit_rank_two_body. intros H Hwu Hwv.
  apply result_bind_Ok in H. destruct H as (u_it & _ & H).
  apply result_bind_Ok in H. destruct H as (vraw & Hvraw & H).
  apply result_bind_Ok in H. destruct H as (vcol & Hvcol & H).
  apply result_vdivide_Ok in Hvcol.
  apply result_bind_Ok in H. destruct H as (v' & Hv' & H). apply result_lift_Ok in Hv'.
  cbv zeta in H.
  apply result_bind_Ok in H. destruct H as (uraw & Huraw & _).
  (* the V half reads entry [i] of column 0 of [u] for every row [i] of [v] *)
  assert (Hle1 : mrows (v s) <= mrows (u s)).
  { unfold rank_two_update_v in Hvraw.
    apply result_bind_Ok in Hvraw. destruct Hvraw as (u1 & _ & Hvraw).
    apply result_bind_Ok in Hvraw. destruct Hvraw as (u0 & Hu0 & Hvraw).
    apply result_lift_Ok in Hu0.
    apply result_bind_Ok in Hvraw. destruct Hvraw as (x0 & _ & Hvraw). cbv zeta in Hvraw.
    apply result_bind_Ok in Hvraw. destruct Hvraw as (x1 & _ & Hvraw). cbv zeta in Hvraw.
    apply result_bind_Ok in Hvraw. destruct Hvraw as (_ & _ & Hvraw).
    destruct (mapM_Ok _ _ _ Hvraw) as (_ & Hall).
    destruct (mrows (v s)) as [|r] eqn:E; [lia|].
    destruct (Hall r) as [b Hb]; [apply in_seq; lia|].
    apply result_bind_Ok in Hb. destruct Hb as (ai & _ & Hb).
    apply result_bind_Ok in Hb. destruct Hb as (x & _ & Hb).
    apply result_bind_Ok in Hb. destruct Hb as (u0i & Hu0i & _).
    apply result_lift_Ok in Hu0i.
    assert (r < length u0) by (apply nth_error_Some; congruence).
    rewrite (col_wf _ _ _ Hwu Hu0) in *. lia. }
  (* the U half reads entry [i] of column 0 of [v] for every row [i] of [u] *)
  assert (Hle2 : mrows (u s) <= mrows (v s)).
  { unfold rank_two_update_u in Huraw. simpl in Huraw.
    apply result_bind_Ok in Huraw. destruct Huraw as (v1 & _ & Huraw).
    apply result_bind_Ok in Huraw. destruct Huraw as (v0 & Hv0 & Huraw).
    apply result_lift_Ok in Hv0.
    apply result_bind_Ok in Huraw. destruct Huraw as (x0 & _ & Huraw). cbv zeta in Huraw.
    apply result_bind_Ok in Huraw. destruct Huraw as (x1 & _ & Huraw). cbv zeta in Huraw.
    apply result_bind_Ok in Huraw. destruct Huraw as (_ & _ & Huraw).
    destruct (mapM_Ok _ _ _ Huraw) as (_ & Hall).
    destruct (mrows (u s)) as [|r] eqn:E; [lia|].
    destruct (Hall r) as [b Hb]; [apply in_seq; lia|].
    apply result_bind_Ok in Hb. destruct Hb as (ai & _ & Hb).
    apply result_bind_Ok in Hb. destruct Hb as (x & _ & Hb).
    apply result_bind_Ok in Hb. destruct Hb as (v0i & Hv0i & _).
    apply result_lift_Ok in Hv0i.
    assert (Hr : r < length v0) by (apply nth_error_Some; congruence).
    rewrite (set_col_other _ _ _ _ _ Hv') in Hv0 by lia.
    rewrite (col_wf _ _ _ Hwv Hv0) in Hr. lia. }
  lia.
Qed.

End RestartReturns.

(** ** The constructors *)

Section ConstructorFacts.
Context {num : Type} {SC : Scalar num} {T : Type} {BT : Backend T}.

Lemma initial_svd_shaped (a : T) (u0 v0 : MatrixXd num) (t : num) :
  rows a = mrows u0 -> cols a = mrows v0 -> mcols u0 = mcols v0 ->
  wf_matrix u0 -> wf_matrix v0 -> shaped (initial_svd a u0 v0 t).
Proof.
  intros H1 H2 H3 Hu Hv. unfold shaped. simpl. rewrite repeat_length. auto 10.
Qed.

End ConstructorFacts.

(** X1.  The constructor from a full model, [svd(A, u, v)], compares
    rows(A) with rows(u), then cols(A) with rows(v), then cols(u) with
    cols(v), and throws with the message of the first comparison that fails.
    When all three agree it returns the object of the default member
    values, whose factors have the shapes the class relies on and whose [d]
    has one entry, equal to one, per column of [u]. *)
Theorem constructor_checks_shapes {num : Type} {SC : Scalar num} {T : Type} {BT : Backend T}
        (a : T) (u0 v0 : MatrixXd num) (t : num) :
  (rows a <> mrows u0 ->
     svd_of_model a u0 v0 t = stop "dimensions of 'u' and 'A' are not compatible" tt)
  /\ (rows a = mrows u0 -> cols a <> mrows v0 ->
        svd_of_model a u0 v0 t = stop "dimensions of 'v' and 'A' are not compatible" tt)
  /\ (rows a = mrows u0 -> cols a = mrows v0 -> mcols u0 <> mcols v0 ->
        svd_of_model a u0 v0 t = stop "rank of 'u' and 'v' are not equal!" tt)
  /\ (rows a = mrows u0 -> cols a = mrows v0 -> mcols u0 = mcols v0 ->
        svd_of_model a u0 v0 t = ret (initial_svd a u0 v0 t)
        /\ d (initial_svd a u0 v0 t) = repeat (of_Z 1) (mcols u0)
        /\ (wf_matrix u0 -> wf_matrix v0 -> shaped (initial_svd a u0 v0 t))).
Proof.
  unfold svd_of_model. split; [|split; [|split]].
  - intros H. apply Nat.eqb_neq in H. rewrite H. reflexivity.
  - intros H1 H2. apply Nat.eqb_neq in H2. rewrite H1, Nat.eqb_refl, H2. reflexivity.
  - intros H1 H2 H3. apply Nat.eqb_neq in H3. rewrite H1, H2, !Nat.eqb_refl, H3. reflexivity.
  - intros H1 H2 H3. split; [|split].
    + rewrite H1, H2, H3, !Nat.eqb_refl. reflexivity.
    + reflexivity.
    + apply initial_svd_shaped; assumption.
Qed.

(** The statement on the 2 by 2 matrix of the full-rank model, and on the
    same matrix with a [u] of one column and a [v] of two. *)
Lemma constructor_checks_shapes_witness :
  (svd_of_model (Inputs.m22 1 1 0 0) (Inputs.m22 1 1 0 0) (Inputs.m22 1 0 0 1)
                Inputs.tol_default
   = ret (initial_svd (Inputs.m22 1 1 0 0) (Inputs.m22 1 1 0 0) (Inputs.m22 1 0 0 1)
                      Inputs.tol_default)
   /\ shaped (initial_svd (Inputs.m22 1 1 0 0) (Inputs.m22 1 1 0 0) (Inputs.m22 1 0 0 1)
                          Inputs.tol_default))
  /\ svd_of_model (Inputs.m22 1 1 0 0) (Inputs.c2 1 2) (Inputs.m22 1 0 0 1)
                  Inputs.tol_default
     = stop "rank of 'u' and 'v' are not equal!" tt.
Proof.
  split.
  - destruct (proj2 (proj2 (proj2
               (constructor_checks_shapes (Inputs.m22 1 1 0 0) (Inputs.m22 1 1 0 0)
                                          (Inputs.m22 1 0 0 1) Inputs.tol_default))))
      as (H1 & _ & H3); [reflexivity..|].
    split; [exact H1|]. apply H3; unfold wf_matrix; simpl; repeat constructor.
  - apply (proj1 (proj2 (proj2
               (constructor_checks_shapes (Inputs.m22 1 1 0 0) (Inputs.c2 1 2)
                                          (Inputs.m22 1 0 0 1) Inputs.tol_default))));
      [reflexivity|reflexivity|]. vm_compute. discriminate.
Defined.

(** X2.  The constructor from an initial [u], [svd(A, u)], throws when
    rows(A) and rows(u) differ; otherwise it allocates [v] as cols(A) by
    cols(u) without assigning its entries, and whatever the storage holds
    the object has the shapes the class relies on.  The constructor from a
    rank, [svd(A, k, seed)], does so too when [randomMatrix] returns a
    rows(A) by k matrix. *)
Theorem constructors_allocate_v {num : Type} {SC : Scalar num} {T : Type} {BT : Backend T}
        (mem : nat -> nat -> num) (a : T) (u0 : MatrixXd num) (t : num)
        (random : nat -> nat -> nat -> MatrixXd num) (k seed : nat) :
  (rows a <> mrows u0 ->
     svd_of_u mem a u0 t = stop "number of rows in 'A' and 'u' are not equal!" tt)
  /\ (rows a = mrows u0 ->
        svd_of_u mem a u0 t
        = ret (initial_svd a u0 (uninitialised mem (cols a) (mcols u0)) t)
        /\ (wf_matrix u0 ->
            shaped (initial_svd a u0 (uninitialised mem (cols a) (mcols u0)) t)))
  /\ (wf_matrix (random (rows a) k seed) ->
      mrows (random (rows a) k seed) = rows a -> mcols (random (rows a) k seed) = k ->
      shaped (svd_of_rank random mem a k seed t)).
Proof.
  unfold svd_of_u. split; [|split].
  - intros H. apply Nat.eqb_neq in H. rewrite H. reflexivity.
  - intros H. split; [rewrite H, Nat.eqb_refl; reflexivity|]. intros Hu.
    destruct (uninitialised_shape mem (cols a) (mcols u0)) as (Hw & Hr & Hc).
    apply initial_svd_shaped; auto.
  - intros Hw Hr Hc. destruct (uninitialised_shape mem (cols a) k) as (Hw' & Hr' & Hc').
    unfold shaped, svd_of_rank. simpl. rewrite repeat_length.
    repeat split; try assumption; congruence.
Qed.

(** The statement on the 2 by 2 identity and [u = (1, 2)], the storage of
    [v] holding ones, and on a [u] of three rows. *)
Lemma constructors_allocate_v_witness :
  shaped (initial_svd (Inputs.m22 1 0 0 1) (Inputs.c2 1 2)
                      (uninitialised (fun _ _ => 1%float) 2 1) Inputs.tol_default)
  /\ svd_of_u (fun _ _ => 1%float) (Inputs.m22 1 0 0 1) (mkMatrix 3 [[1; 1; 1]%float])
              Inputs.tol_default
     = stop "number of rows in 'A' and 'u' are not equal!" tt.
Proof.
  split.
  - destruct (proj1 (proj2 (constructors_allocate_v
                              (fun _ _ => 1%float) (Inputs.m22 1 0 0 1) (Inputs.c2 1 2)
                              Inputs.tol_default (fun _ _ _ => Inputs.c2 0 0) 1 0)))
      as (_ & H); [reflexivity|].
    apply H. unfold wf_matrix. simpl. repeat constructor.
  - apply (proj1 (constructors_allocate_v
                    (fun _ _ => 1%float) (Inputs.m22 1 0 0 1) (mkMatrix 3 [[1; 1; 1]%float])
                    Inputs.tol_default (fun _ _ _ => Inputs.c2 0 0) 1 0)).
    vm_compute. discriminate.
Defined.

(** ** The masking setters, one call after another *)

Section SetterFacts.
Context {num : Type} {SC : Scalar num} {EX : Externals num} {T : Type} {BT : Backend T}.

Lemma with_mask_zeros_same (s : svd num T) :
  mask_zeros s = true -> with_mask_zeros s true = s.
Proof. destruct s. simpl. intros ->. reflexivity. Qed.

Lemma maskMatrix_returns (s : svd num T) m :
  mask s = false -> mask_zeros s = false ->
  sp_rows m = rows (A s) -> sp_cols m = cols (A s) ->
  maskMatrix s m = ret (masked_by s m).
Proof.
  intros Hm Hz Hr Hc. unfold maskMatrix, masked_by.
  rewrite Hm, Hz, Hr, Hc, !Nat.eqb_refl. simpl.
  destruct s as [? ? ? ? ? ? ? ? ? ? ? sym ? ? ?]. simpl. destruct sym; reflexivity.
Qed.

Lemma maskMatrix_dimensions (s : svd num T) m :
  mask s = false -> sp_rows m <> rows (A s) \/ sp_cols m <> cols (A s) ->
  maskMatrix s m = stop "dimensions of masking matrix and 'A' are not equivalent" s.
Proof.
  intros Hm Hd. unfold maskMatrix. rewrite Hm.
  destruct Hd as [Hd|Hd]; apply Nat.eqb_neq in Hd; rewrite Hd; simpl;
    [reflexivity|rewrite orb_true_r; reflexivity].
Qed.

Lemma maskMatrix_after_zeros (s : svd num T) m :
  mask s = false -> mask_zeros s = true ->
  sp_rows m = rows (A s) -> sp_cols m = cols (A s) ->
  maskMatrix s m
  = stop "you already specified to mask zeros. You cannot also supply a masking matrix." s.
Proof.
  intros Hm Hz Hr Hc. unfold maskMatrix. rewrite Hm, Hz, Hr, Hc, !Nat.eqb_refl. reflexivity.
Qed.

Lemma maskMatrix_Ok (s s' : svd num T) m :
  result (maskMatrix s m) = Ok s' ->
  mask s = false /\ mask_zeros s = false
  /\ sp_rows m = rows (A s) /\ sp_cols m = cols (A s) /\ s' = masked_by s m.
Proof.
  intros H. destruct (mask s) eqn:Hm.
  { unfold maskMatrix in H. rewrite Hm in H. discriminate. }
  destruct (Nat.eq_dec (sp_rows m) (rows (A s))) as [Hr|Hr].
  2: { rewrite maskMatrix_dimensions in H by auto. discriminate. }
  destruct (Nat.eq_dec (sp_cols m) (cols (A s))) as [Hc|Hc].
  2: { rewrite maskMatrix_dimensions in H by auto. discriminate. }
  destruct (mask_zeros s) eqn:Hz.
  { rewrite maskMatrix_after_zeros in H by auto. discriminate. }
  rewrite maskMatrix_returns in H by auto. injection H as <-. auto.
Qed.

(** A setter call on an object with a masking mode leaves it as it is. *)
Lemma call_setter_settled (s : svd num T) (c : setter_call) :
  mask s = true \/ mask_zeros s = true -> after s (call_setter s c) = s.
Proof.
  intros H. unfold after. destruct c as [|m]; simpl.
  - unfold maskZeros. destruct (mask s) eqn:Hm; simpl; [reflexivity|].
    destruct H as [H|H]; [discriminate|]. apply with_mask_zeros_same. exact H.
  - destruct (result (maskMatrix s m)) as [s'|msg st|] eqn:E; [| |reflexivity].
    + apply maskMatrix_Ok in E. destruct E as (Hm & Hz & _). destruct H; congruence.
    + unfold maskMatrix in E. destruct (mask s); simpl in E; [congruence|].
      destruct (_ || _); simpl in E; [congruence|].
      destruct (mask_zeros s); simpl in E; [congruence|].
      destruct (symmetric _); discriminate.
Qed.

Lemma run_setters_settled (calls : list setter_call) : forall (s : svd num T),
  mask s = true \/ mask_zeros s = true -> run_setters s calls = s.
Proof.
  induction calls as [|c calls IH]; intros s H; [reflexivity|].
  unfold run_setters in *. simpl. rewrite (call_setter_settled s c H). apply IH. exact H.
Qed.

Lemma call_setter_step (s : svd num T) (c : setter_call) :
  factors_kept s (after s (call_setter s c))
  /\ (mask s = false -> mask_zeros s = false ->
      mask (after s (call_setter s c)) && mask_zeros (after s (call_setter s c)) = false).
Proof.
  destruct (mask s) eqn:Hm.
  { rewrite call_setter_settled by auto. split; [repeat split|congruence]. }
  destruct (mask_zeros s) eqn:Hz.
  { rewrite call_setter_settled by auto. split; [repeat split|congruence]. }
  unfold after. destruct c as [|m]; simpl.
  - unfold maskZeros. rewrite Hm. simpl. split; [repeat split|]. intros _ _. rewrite Hm. reflexivity.
  - destruct (result (maskMatrix s m)) as [s'|msg st|] eqn:E.
    + apply maskMatrix_Ok in E. destruct E as (_ & _ & _ & _ & ->).
      unfold masked_by. simpl. split; [repeat split|]. intros _ _. rewrite Hz. reflexivity.
    + assert (st = s); [|subst st; split; [repeat split|intros _ _; rewrite Hm; reflexivity]].
      unfold maskMatrix in E. rewrite Hm in E. simpl in E.
      destruct (_ || _); simpl in E; [congruence|]. rewrite Hz in E. simpl in E.
      destruct (symmetric _); discriminate.
    + split; [repeat split|intros _ _; rewrite Hm; reflexivity].
Qed.

Lemma factors_kept_trans (s1 s2 s3 : svd num T) :
  factors_kept s1 s2 -> factors_kept s2 s3 -> factors_kept s1 s3.
Proof. unfold factors_kept. intuition congruence. Qed.

Lemma run_setters_exclusive (calls : list setter_call) : forall (s : svd num T),
  factors_kept s (run_setters s calls)
  /\ (mask s && mask_zeros s = false ->
      mask (run_setters s calls) && mask_zeros (run_setters s calls) = false).
Proof.
  induction calls as [|c calls IH]; intros s; [split; [repeat split|trivial]|].
  change (run_setters s (c :: calls))
    with (run_setters (after s (call_setter s c)) calls).
  destruct (call_setter_step s c) as (Hk & Hx).
  destruct (IH (after s (call_setter s c))) as (Hk' & Hx').
  split; [eapply factors_kept_trans; eauto|]. intros H. apply Hx'.
  destruct (mask s) eqn:Hm.
  { rewrite call_setter_settled by auto. rewrite Hm. exact H. }
  destruct (mask_zeros s) eqn:Hz.
  { rewrite call_setter_settled by auto. rewrite Hm, Hz. reflexivity. }
  apply Hx; reflexivity.
Qed.

End SetterFacts.

(** X3.  [maskMatrix(m)] on an object without a mask matrix compares the
    dimensions of [m] with those of [A] before it looks at [mask_zeros]: a
    matrix of other dimensions is refused with the message on dimensions
    also when zeros are masked.  The call returns exactly when no masking
    mode is set and the dimensions agree; it then sets [mask], stores [m],
    and leaves [symmetric] set only if it was set and [m] is symmetric too;
    nothing else changes. *)
Theorem maskMatrix_checks_dimensions {num : Type} {SC : Scalar num} {EX : Externals num}
        {T : Type} {BT : Backend T} (s : svd num T) (m : SparseMatrix num) :
  (mask s = false -> sp_rows m <> rows (A s) \/ sp_cols m <> cols (A s) ->
     maskMatrix s m = stop "dimensions of masking matrix and 'A' are not equivalent" s)
  /\ (forall s', result (maskMatrix s m) = Ok s' <->
        mask s = false /\ mask_zeros s = false
        /\ sp_rows m = rows (A s) /\ sp_cols m = cols (A s) /\ s' = masked_by s m)
  /\ mask (masked_by s m) = true
  /\ mask_matrix (masked_by s m) = m
  /\ mask_zeros (masked_by s m) = mask_zeros s
  /\ symmetric (masked_by s m) = symmetric s && sparse_isAppxSymmetric m
  /\ factors_kept s (masked_by s m).
Proof.
  split; [apply maskMatrix_dimensions|]. split; [|repeat split].
  intros s'. split; [apply maskMatrix_Ok|].
  intros (Hm & Hz & Hr & Hc & ->). rewrite maskMatrix_returns by assumption. reflexivity.
Qed.

(** The statement on the full-rank model of a 2 by 2 matrix and a mask
    matrix of that size, and on one with three rows. *)
Lemma maskMatrix_checks_dimensions_witness :
  result (maskMatrix Inputs.exact_model Inputs.mask00)
  = Ok (masked_by Inputs.exact_model Inputs.mask00)
  /\ maskMatrix Inputs.exact_model (mkSparse 3 [[]; []])
     = stop "dimensions of masking matrix and 'A' are not equivalent" Inputs.exact_model.
Proof.
  split.
  - apply (proj1 (proj2 (maskMatrix_checks_dimensions Inputs.exact_model Inputs.mask00))).
    repeat split.
  - apply (proj1 (maskMatrix_checks_dimensions Inputs.exact_model (mkSparse 3 [[]; []])));
      [reflexivity|]. left. vm_compute. discriminate.
Defined.

(** X4.  The masking state is settled by the first setter that succeeds:
    on an object with [mask] or [mask_zeros] set, no sequence of calls of
    [maskZeros] and [maskMatrix], failed calls caught, changes the object
    at all.  From any object the setters leave [A], the factors, [d], the
    counters and the settings as they are, and if the two modes were not
    both set they are not both set afterwards. *)
Theorem masking_settled_once {num : Type} {SC : Scalar num} {EX : Externals num}
        {T : Type} {BT : Backend T} (s : svd num T) (calls : list setter_call) :
  (mask s = true \/ mask_zeros s = true -> run_setters s calls = s)
  /\ factors_kept s (run_setters s calls)
  /\ (mask s && mask_zeros s = false ->
      mask (run_setters s calls) && mask_zeros (run_setters s calls) = false).
Proof.
  split; [apply run_setters_settled|apply run_setters_exclusive].
Qed.

(** The statement on the full-rank model with zeros masked: a mask matrix
    and a second [maskZeros] leave it as it is. *)
Lemma masking_settled_once_witness :
  run_setters (with_mask_zeros Inputs.exact_model true)
              [CallMaskMatrix Inputs.mask00; CallMaskZeros]
  = with_mask_zeros Inputs.exact_model true.
Proof.
  apply (proj1 (masking_settled_once (with_mask_zeros Inputs.exact_model true)
                  [CallMaskMatrix Inputs.mask00; CallMaskZeros])).
  right. reflexivity.
Defined.

(** X5.  [fit] changes [u], [v], [d], [tol_] and [iter_] only: when it
    returns, the input matrix, the masking state, [symmetric], [maxit],
    [L1], [tol], the stored loss and [best_model_] are as before, [u] and
    [v] have the numbers of rows and columns they had and [d] the length it
    had; and [d] had an entry for every column of [u]. *)
Theorem fit_keeps_settings_and_shapes {num : Type} {SC : Scalar num} {EX : Externals num}
        (s s' : svd num (MatrixXd num)) :
  result (fit s) = Ok s' ->
  settings_kept s s' /\ shapes_kept s s' /\ mcols (u s) <= length (d s).
Proof.
  intros H. destruct (fit_kept _ _ H) as ((H1 & H2) & H3). auto.
Qed.

(** The statement on the rank-1 model of a 3 by 2 matrix. *)
Lemma fit_keeps_settings_and_shapes_witness :
  exists s', result (fit Shapes.tall_model) = Ok s'
             /\ settings_kept Shapes.tall_model s' /\ shapes_kept Shapes.tall_model s'.
Proof.
  destruct (result (fit Shapes.tall_model)) as [s'| |] eqn:E;
    [|vm_compute in E; discriminate..].
  exists s'. split; [reflexivity|].
  destruct (fit_keeps_settings_and_shapes Shapes.tall_model s' E) as (H1 & H2 & _).
  split; assumption.
Defined.

(** ** Where a run stops *)

Section StopFacts.
Context {num : Type} {SC : Scalar num} {EX : Externals num}.
Local Abbreviation dsvd := (svd num (MatrixXd num)).

Lemma result_bind_Stop_inv {St X Y} (m : M num St X) (f : X -> M num St Y) msg st :
  result (bind m f) = Stop msg st ->
  result m = Stop msg st \/ exists x, result m = Ok x /\ result (f x) = Stop msg st.
Proof.
  destruct m as [[x| |] tr]; simpl.
  - destruct (f x) as [r tr'] eqn:E. simpl. intros ->. right. exists x. rewrite E. auto.
  - intros H. left. injection H as -> ->. reflexivity.
  - discriminate.
Qed.

Lemma restart_fit_Stop (s : dsvd) c msg st :
  result (restart_fit s c) = Stop msg st ->
  ~ accepted s c /\ st = restart_reset s c
  /\ (msg = "rank of 'u' is not equal to rank of 'v'"
      \/ msg = "dimensions of 'u' and 'A' are not compatible").
Proof.
  intros H. destruct (Nat.eq_dec (mrows c) (mrows (v s))) as [Hr|Hr].
  - destruct (Nat.eq_dec (mcols c) (mrows (A s))) as [Hc|Hc].
    + exfalso. rewrite restart_fit_accepted in H by (split; assumption).
      revert H. unfold fit_and_score.
      assert (Hns : no_stop (s2 <- fit (restart_reset s c);;
                             m <- mse_dense s2;; ret (with_mse_ s2 m))).
      { apply no_stop_bind; [apply fit_no_stop|]. intros s2.
        apply no_stop_bind; [apply mse_dense_no_stop|]. intros m. apply no_stop_ret. }
      apply Hns.
    + rewrite restart_fit_cols in H by assumption. injection H as <- <-.
      split; [unfold accepted; tauto|]. split; [reflexivity|]. right. reflexivity.
  - rewrite restart_fit_rows in H by assumption. injection H as <- <-.
    split; [unfold accepted; tauto|]. split; [reflexivity|]. left. reflexivity.
Qed.

Lemma restarts_loop_Stop cs : forall i (s : dsvd) b msg st,
  result (restarts_loop i cs s b) = Stop msg st ->
  exists pre c post r,
    cs = pre ++ c :: post
    /\ result (restarts_loop i pre s b) = Ok r
    /\ ~ accepted (fst (fst r)) c /\ st = restart_reset (fst (fst r)) c
    /\ (msg = "rank of 'u' is not equal to rank of 'v'"
        \/ msg = "dimensions of 'u' and 'A' are not compatible").
Proof.
  induction cs as [|c cs IH]; intros i s b msg st H; [discriminate|].
  cbn [restarts_loop] in H. apply result_bind_Stop_inv in H.
  destruct H as [H|(s1 & H1 & H)].
  - apply restart_fit_Stop in H. destruct H as (Hn & -> & Hmsg).
    exists [], c, cs, (s, b, []). repeat split; assumption.
  - apply result_bind_Stop_inv in H. destruct H as [H|(r & _ & H)]; [|discriminate].
    assert (Hrest : exists pre c' post r,
               cs = pre ++ c' :: post
               /\ result (restarts_loop i (c :: pre) s b) = Ok r
               /\ ~ accepted (fst (fst r)) c' /\ st = restart_reset (fst (fst r)) c'
               /\ (msg = "rank of 'u' is not equal to rank of 'v'"
                   \/ msg = "dimensions of 'u' and 'A' are not compatible")).
    { destruct ((i =? 0) || nltb (mse_ s1) (mse_best b)) eqn:Hsel;
        apply IH in H; destruct H as (pre & c' & post & r & -> & Hr & Hn & -> & Hmsg);
        exists pre, c', post, (fst r, s1 :: snd r);
        (split; [reflexivity|]); (split; [|repeat split; assumption]);
        cbn [restarts_loop]; rewrite (result_bind_step _ _ _ H1), Hsel;
        rewrite (result_bind_step _ _ _ Hr); reflexivity. }
    destruct Hrest as (pre & c' & post & r & -> & Hr & Hrest).
    exists (c :: pre), c', post, r. split; [reflexivity|]. split; assumption.
Qed.

End StopFacts.

(** X6.  The only configuration errors of the fit come from the two checks
    of [fit_restarts]: [fit] and the dense and sparse [mse] never end in
    [Rcpp::stop], and when [fit_restarts] does, it is at a candidate that
    fails one of the two checks, reached after the candidates before it
    were fitted, with the message of one of the checks, and the object is
    left with that candidate as [u] and the counters reset. *)
Theorem only_the_checks_stop {num : Type} {SC : Scalar num} {EX : Externals num}
        (s : svd num (MatrixXd num)) :
  no_stop (fit s)
  /\ no_stop (mse_dense s)
  /\ (forall ss : svd num (SparseMatrix num), no_stop (mse_sparse ss))
  /\ forall cs msg st,
       result (fit_restarts s cs) = Stop msg st ->
       exists pre c post s1,
         cs = pre ++ c :: post
         /\ restarts_reach s pre s1
         /\ ~ accepted s1 c /\ st = restart_reset s1 c
         /\ (msg = "rank of 'u' is not equal to rank of 'v'"
             \/ msg = "dimensions of 'u' and 'A' are not compatible").
Proof.
  split; [apply fit_no_stop|]. split; [apply mse_dense_no_stop|].
  split; [intros; apply mse_sparse_no_stop|].
  intros cs msg st H. unfold fit_restarts, fit_restarts_runs in H.
  apply result_bind_Stop_inv in H. destruct H as [H|(r & _ & H)]; [|discriminate].
  apply result_bind_Stop_inv in H. destruct H as [H|(r & _ & H)].
  - apply restarts_loop_Stop in H.
    destruct H as (pre & c & post & [[s1 b] h] & -> & Hr & Hn & -> & Hmsg).
    exists pre, c, post, s1. split; [reflexivity|].
    split; [exists b, h; exact Hr|]. repeat split; assumption.
  - cbv zeta in H. destruct (Z.eqb _ _); discriminate.
Qed.

(** The statement on the rank-1 model of a 2 by 2 matrix restarted from a
    candidate of two rows and one column: the call stops at the check on
    the columns. *)
Lemma only_the_checks_stop_witness :
  exists msg st pre c post s1,
    result (fit_restarts Inputs.rank1_model [Inputs.c2 1 1]) = Stop msg st
    /\ [Inputs.c2 1 1] = pre ++ c :: post
    /\ restarts_reach Inputs.rank1_model pre s1
    /\ ~ accepted s1 c /\ st = restart_reset s1 c.
Proof.
  destruct (result (fit_restarts Inputs.rank1_model [Inputs.c2 1 1]))
    as [s'|msg st|] eqn:E; [vm_compute in E; discriminate| |vm_compute in E; discriminate].
  destruct (proj2 (proj2 (proj2 (only_the_checks_stop Inputs.rank1_model))) _ msg st E)
    as (pre & c & post & s1 & H1 & H2 & H3 & H4 & _).
  exists msg, st, pre, c, post, s1. repeat split; assumption.
Defined.

(** X7.  A fitter that is entered with no iteration left ([maxit <= iter_])
    runs no body and still executes its last statement, [u.col(k) *= d],
    with the local [d] that nothing was assigned to: it returns the object
    with column [k] of [u] multiplied by that value and nothing else
    changed, having divided nothing. *)
Theorem fitter_without_budget {num : Type} {SC : Scalar num} {EX : Externals num}
        (s : svd num (MatrixXd num)) (k : nat) (c : Vector num) :
  maxit s <= iter_ s -> col (u s) k = Some c ->
  exists u', set_col (u s) k (vscale c (d_uninit k)) = Some u'
             /\ fit_rank k s = ret (with_u s u').
Proof.
  intros Hb Hc.
  destruct (set_col_some (u s) k (vscale c (d_uninit k))) as [u' Hu'].
  { eapply col_in_range; eauto. }
  exists u'. split; [exact Hu'|].
  assert (H : (sd <- ret (s, d_uninit k) ;; unscale k sd) = ret (with_u s u')).
  { unfold unscale. simpl. rewrite Hc. simpl. rewrite Hu'. reflexivity. }
  destruct k as [|[|k]]; simpl; unfold fit_rank_one, fit_rank_two, fit_rank_k;
    replace (maxit s - iter_ s) with 0 by lia; exact H.
Qed.

(** The statement on the model over the reals with [maxit = 0] and the
    unassigned [d] holding one. *)
Lemma fitter_without_budget_witness :
  fit_rank 0 Inputs.real_model
  = ret (with_u Inputs.real_model (mkMatrix 2 [[3 * 1; 4 * 1]%R])).
Proof.
  destruct (fitter_without_budget Inputs.real_model 0 [3; 4]%R) as (u' & Hu' & H).
  - simpl. lia.
  - reflexivity.
  - injection Hu' as <-. exact H.
Defined.

(** ** What [fit_restarts] restores *)

Section RestoreFacts.
Context {num : Type} {SC : Scalar num} {EX : Externals num}.
Local Abbreviation dsvd := (svd num (MatrixXd num)).

Lemma restore_own (s : dsvd) :
  restore s (mkBest (u s) (v s) (tol_ s) nzero) = with_mse_ s nzero.
Proof. destruct s. reflexivity. Qed.

End RestoreFacts.

(** X8.  [fit_restarts] puts back [u], [v], [tol_] and [mse_] of the
    restart it selects, and nothing else: on return [d] and [iter_] are
    those of the last restart, whichever restart [best_model_] names. *)
Theorem fit_restarts_keeps_last_d {num : Type} {SC : Scalar num} {EX : Externals num}
        (s s' : svd num (MatrixXd num)) (cands : list (MatrixXd num))
        (runs : list (svd num (MatrixXd num))) :
  cands <> [] ->
  result (fit_restarts_runs s cands) = Ok (s', runs) ->
  d s' = d (last runs s) /\ iter_ s' = iter_ (last runs s)
  /\ nth_error runs (length cands - 1) = Some (last runs s).
Proof.
  intros Hne H. unfold fit_restarts_runs in H. apply result_bind_Ok in H.
  destruct H as ([[s1 b1] rs] & Hloop & H). cbv zeta in H. cbn [fst snd] in H.
  destruct (restarts_loop_history _ _ _ _ _ Hloop) as (_ & Hlen & _ & (bm & Hlast)).
  cbn [fst snd] in Hlen, Hlast.
  assert (Hrs : rs <> []).
  { intros ->. destruct cands; [contradiction|discriminate]. }
  destruct (Z.eqb _ _); injection H as <- <-; subst s1; simpl;
    (split; [reflexivity|]); (split; [reflexivity|]);
    rewrite <- Hlen; apply nth_error_last; exact Hrs.
Qed.

(** The statement on the square model restarted from four candidates: the
    second restart is selected, and [d] on return is the one of the fourth,
    which is not the one of the second. *)
Lemma fit_restarts_keeps_last_d_witness :
  match result (fit_restarts_runs (Inputs.square_model 4) Inputs.candidates) with
  | Ok (s', runs) =>
      best_model_ s' = 1
      /\ (exists r3, nth_error runs 3 = Some r3 /\ d s' = d r3 /\ iter_ s' = iter_ r3)
      /\ (exists r1, nth_error runs 1 = Some r1 /\ u s' = u r1 /\ d s' <> d r1)
  | _ => False
  end.
Proof.
  destruct (result (fit_restarts_runs (Inputs.square_model 4) Inputs.candidates))
    as [[s' runs]| |] eqn:E; [|vm_compute in E; discriminate..].
  assert (Hne : Inputs.candidates <> []) by discriminate.
  destruct (fit_restarts_keeps_last_d (Inputs.square_model 4) s' Inputs.candidates runs Hne E)
    as (Hd & Hi & Hlast).
  vm_compute in E. injection E as <- <-.
  split; [reflexivity|]. split.
  - eexists. split; [exact Hlast|]. split; [exact Hd|exact Hi].
  - eexists. split; [reflexivity|]. split; [reflexivity|]. vm_compute. discriminate.
Defined.

(** X9.  [fit_restarts] with an empty list fits nothing and still runs its
    last statement, since [best_model_] never equals [length - 1] when the
    length is zero: it returns the object with the stored loss overwritten
    by zero and everything else, [best_model_] included, as it was. *)
Theorem fit_restarts_empty {num : Type} {SC : Scalar num} {EX : Externals num}
        (s : svd num (MatrixXd num)) :
  fit_restarts s [] = ret (with_mse_ s nzero).
Proof.
  unfold fit_restarts, fit_restarts_runs. simpl.
  destruct (Z.eqb_spec (Z.of_nat (best_model_ s)) (-1)) as [E|E]; [lia|].
  simpl. rewrite restore_own. reflexivity.
Qed.

(** X10.  On a well-formed rank-[k] model of an [m] by [n] matrix ([u] is
    [m] by [k], [v] is [n] by [k], [d] has [k] entries) [fit] stays within
    the bounds of every matrix and vector and returns, provided [k <= 1] or
    the matrix is square; the object it returns is again such a model. *)
Theorem fit_within_bounds {num : Type} {SC : Scalar num} {EX : Externals num}
        (m n k : nat) (s : svd num (MatrixXd num)) :
  model_of m n k s -> k <= 1 \/ m = n ->
  exists s', result (fit s) = Ok s' /\ model_of m n k s'.
Proof. intros Hs Hk. exact (fit_returns m n k s Hs Hk). Qed.

Lemma tall_model_shape : model_of 3 2 1 Shapes.tall_model.
Proof. unfold model_of, wf_matrix. simpl. repeat split; repeat constructor. Qed.

(** The statement on the rank-1 model of a 3 by 2 matrix. *)
Lemma fit_within_bounds_witness :
  exists s', result (fit Shapes.tall_model) = Ok s' /\ model_of 3 2 1 s'.
Proof.
  apply (fit_within_bounds 3 2 1 Shapes.tall_model).
  - exact tall_model_shape.
  - left. lia.
Defined.

(** X11.  [fit_rank_two] reads entry [i] of column 0 of [u] for every row
    [i] of [v], and entry [i] of column 0 of [v] for every row [i] of [u]:
    entered with an iteration left on factors whose row counts differ (a
    matrix [A] that is not square), it leaves the bounds of one of the two
    columns. *)
Theorem rank_two_needs_square {num : Type} {SC : Scalar num} {EX : Externals num}
        (s : svd num (MatrixXd num)) :
  wf_matrix (u s) -> wf_matrix (v s) -> iter_ s < maxit s ->
  mrows (u s) <> mrows (v s) ->
  result (fit_rank_two s) = OutOfBounds.
Proof.
  intros Hwu Hwv Hit Hne.
  destruct (result (fit_rank_two s)) as [s'|msg st|] eqn:E; [| |reflexivity].
  - exfalso. apply Hne. unfold fit_rank_two in E.
    apply result_bind_Ok in E. destruct E as (sd & H & _).
    destruct (maxit s - iter_ s) as [|f] eqn:Ef; [lia|]. cbn [als_loop] in H.
    apply result_bind_Ok in H. destruct H as (sd1 & H & _).
    eapply fit_rank_two_body_Ok; eauto.
  - exfalso. exact (fit_rank_no_stop 1 s msg st E).
Qed.

(** The statement on the 1 by 2 matrix with two components. *)
Lemma rank_two_needs_square_witness :
  result (fit_rank_two Inputs.wide_model) = OutOfBounds.
Proof.
  apply rank_two_needs_square.
  - unfold wf_matrix. simpl. repeat constructor.
  - unfold wf_matrix. simpl. repeat constructor.
  - simpl. lia.
  - simpl. lia.
Defined.

(** X12.  The dense [mse()] on a well-formed rank-[k] model of an [m] by
    [n] matrix with [m, k > 0], zeros not masked and the mask matrix, if
    any, of the dimensions of [A]: it stays within bounds and returns
    exactly when the matrix is square and the rank is full ([m = n = k]);
    otherwise the product of the transpose of [u] by a column of [v], or an
    access to [uv_i] or to [A], is out of bounds. *)
Theorem mse_within_bounds {num : Type} {SC : Scalar num} {EX : Externals num}
        (m n k : nat) (s : svd num (MatrixXd num)) :
  model_of m n k s -> 0 < m -> 0 < k -> mask_zeros s = false -> mask_fits s ->
  ((exists x, result (mse_dense s) = Ok x) <-> m = n /\ k = n)
  /\ (~ (m = n /\ k = n) -> result (mse_dense s) = OutOfBounds).
Proof.
  intros Hs Hm Hk Hz Hfit.
  assert (Hiff : (exists x, result (mse_dense s) = Ok x) <-> m = n /\ k = n).
  { split.
    - intros [x Hx]. destruct (mse_dense_Ok m n k s x Hs Hm Hk Hx) as (H1 & _ & H3). auto.
    - intros [-> ->]. destruct (mse_dense_returns n s Hs Hfit) as (x & Hx & _). eauto. }
  split; [exact Hiff|]. intros Hn.
  destruct (result (mse_dense s)) as [x|msg st|] eqn:E; [| |reflexivity].
  - exfalso. apply Hn, Hiff. eauto.
  - exfalso. exact (mse_dense_no_stop s msg st E).
Qed.

Lemma exact_model_shape : model_of 2 2 2 Inputs.exact_model.
Proof. unfold model_of, wf_matrix. simpl. repeat split; repeat constructor. Qed.

Lemma rank1_model_shape : model_of 2 2 1 Inputs.rank1_model.
Proof. unfold model_of, wf_matrix. simpl. repeat split; repeat constructor. Qed.

(** The statement on the full-rank model of a 2 by 2 matrix, where the loss
    is returned, and on a rank-1 model of a 2 by 2 matrix, where it is
    not. *)
Lemma mse_within_bounds_witness :
  (exists x, result (mse_dense Inputs.exact_model) = Ok x)
  /\ result (mse_dense Inputs.rank1_model) = OutOfBounds.
Proof.
  split.
  - apply (proj1 (mse_within_bounds 2 2 2 Inputs.exact_model exact_model_shape
                    ltac:(lia) ltac:(lia) eq_refl ltac:(discriminate))).
    split; reflexivity.
  - apply (proj2 (mse_within_bounds 2 2 1 Inputs.rank1_model rank1_model_shape
                    ltac:(lia) ltac:(lia) eq_refl ltac:(discriminate))).
    intros [_ H]. discriminate.
Defined.

(** X13.  [fit_restarts] with at least one candidate, on a well-formed
    rank-[k] model of an [m] by [n] matrix with [m > 0], [maxit > 0] and
    the mask matrix, if any, of the dimensions of [A]: the call returns
    exactly when the matrix is square, the rank is full and every candidate
    is [n] by [n]; the object it returns is again such a model. *)
Theorem fit_restarts_within_bounds {num : Type} {SC : Scalar num} {EX : Externals num}
        (m n k : nat) (s : svd num (MatrixXd num)) (c : MatrixXd num)
        (cs : list (MatrixXd num)) :
  model_of m n k s -> 0 < m -> 0 < maxit s -> mask_fits s ->
  Forall wf_matrix (c :: cs) ->
  ((exists s', result (fit_restarts s (c :: cs)) = Ok s')
   <-> m = n /\ k = n /\ Forall (fun c => mrows c = n /\ mcols c = n) (c :: cs))
  /\ (forall s', result (fit_restarts s (c :: cs)) = Ok s' -> model_of m n k s').
Proof.
  intros Hs Hm Hit Hfit Hwf.
  assert (Hwc : wf_matrix c) by (inversion Hwf; assumption).
  assert (Hnec : forall s', result (fit_restarts s (c :: cs)) = Ok s' ->
                  m = n /\ k = n /\ Forall (fun c => mrows c = n /\ mcols c = n) (c :: cs)).
  { intros s' H.
    destruct (fit_restarts_shapes m n k s c cs s' Hs Hm Hit Hwc H) as (-> & ->).
    split; [reflexivity|]. split; [reflexivity|].
    pose proof (fit_restarts_accepted _ _ _ H) as Hacc.
    eapply Forall_impl; [|exact Hacc]. unfold accepted. intros x [H1 H2].
    destruct Hs as (_ & HrA & _ & _ & _ & _ & _ & Hrv & _). split; congruence. }
  assert (Hsuf : m = n /\ k = n /\ Forall (fun c => mrows c = n /\ mcols c = n) (c :: cs) ->
                 returns (model_of m n k) (fit_restarts s (c :: cs))).
  { intros (-> & -> & Hall). apply fit_restarts_returns; [exact Hs|exact Hfit|].
    rewrite Forall_forall in *. intros x Hx. destruct (Hall x Hx). auto. }
  split; [split|].
  - intros [s' H]. eapply Hnec; eauto.
  - intros H. destruct (Hsuf H) as (s' & Hs' & _). eauto.
  - intros s' H. exact (returns_Ok _ _ _ (Hsuf (Hnec s' H)) H).
Qed.

Lemma square_model_shape n : model_of 2 2 2 (Inputs.square_model n).
Proof. unfold model_of, wf_matrix. simpl. repeat split; repeat constructor. Qed.

(** The statement on the square full-rank model restarted from four 2 by 2
    candidates, where the call returns, and on the rank-1 model of a 2 by 2
    matrix, where it does not. *)
Lemma fit_restarts_within_bounds_witness :
  (exists s', result (fit_restarts (Inputs.square_model 4) Inputs.candidates) = Ok s')
  /\ ~ (exists s', result (fit_restarts Inputs.rank1_model Inputs.candidates) = Ok s').
Proof.
  assert (Hwf : Forall wf_matrix Inputs.candidates).
  { unfold wf_matrix. simpl. repeat constructor. }
  split.
  - apply (proj1 (fit_restarts_within_bounds 2 2 2 (Inputs.square_model 4) _ _
                    (square_model_shape 4) ltac:(lia) ltac:(simpl; lia) ltac:(discriminate)
                    Hwf)).
    split; [reflexivity|]. split; [reflexivity|]. simpl. repeat constructor.
  - intros H.
    apply (proj1 (fit_restarts_within_bounds 2 2 1 Inputs.rank1_model _ _
                    rank1_model_shape ltac:(lia) ltac:(simpl; lia) ltac:(discriminate)
                    Hwf)) in H.
    destruct H as (_ & H & _). discriminate.
Defined.

(** ** The rank-1 fit and the initial [v] *)

Section IgnoresV.
Context {num : Type} {SC : Scalar num} {EX : Externals num}.
Local Abbreviation dsvd := (svd num (MatrixXd num)).

Lemma bind_ret {St X Y} (x : X) (f : X -> M num St Y) : bind (ret x) f = f x.
Proof. unfold bind, ret. destruct (f x). reflexivity. Qed.

(** The body of the rank-1 fitter assigns column 0 of [v] before it reads
    it: on a [v] of one column the entries it finds do not matter. *)
Lemma fit_rank_one_body_ignores_v (s : dsvd) (r : nat) (c1 c2 : Vector num) :
  fit_rank_one_body (with_v s (mkMatrix r [c1]))
  = fit_rank_one_body (with_v s (mkMatrix r [c2])).
Proof. reflexivity. Qed.

Lemma one_column (m : MatrixXd num) : mcols m = 1 -> exists c, m = mkMatrix (mrows m) [c].
Proof.
  destruct m as [r [|c [|c' l]]]; unfold mcols; simpl; intros H; try discriminate.
  exists c. reflexivity.
Qed.

Lemma fit_ignores_v (s : dsvd) (v1 v2 : MatrixXd num) :
  0 < mcols (u s) -> iter_ s < maxit s ->
  mrows v1 = mrows v2 -> mcols v1 = 1 -> mcols v2 = 1 ->
  fit (with_v s v1) = fit (with_v s v2).
Proof.
  intros Hk Hit Hr H1 H2.
  destruct (one_column v1 H1) as [c1 E1]. destruct (one_column v2 H2) as [c2 E2].
  rewrite E1, E2, Hr. unfold fit.
  change (mcols (u (with_v s (mkMatrix (mrows v2) [c1])))) with (mcols (u s)).
  change (mcols (u (with_v s (mkMatrix (mrows v2) [c2])))) with (mcols (u s)).
  destruct (mcols (u s)) as [|k]; [lia|]. rewrite seq_S_first. cbn [fit_ranks fit_rank].
  unfold fit_rank_one.
  change (maxit (with_v s (mkMatrix (mrows v2) [c1])) - iter_ (with_v s (mkMatrix (mrows v2) [c1])))
    with (maxit s - iter_ s).
  change (maxit (with_v s (mkMatrix (mrows v2) [c2])) - iter_ (with_v s (mkMatrix (mrows v2) [c2])))
    with (maxit s - iter_ s).
  destruct (maxit s - iter_ s) as [|f] eqn:Ef; [lia|]. cbn [als_loop].
  rewrite (fit_rank_one_body_ignores_v s (mrows v2) c1 c2). reflexivity.
Qed.

Lemma fit_rank_exhausted (s : dsvd) k :
  maxit s <= iter_ s -> fit_rank k s = unscale k (s, d_uninit k).
Proof.
  intros Hb.
  destruct k as [|[|k]]; simpl; unfold fit_rank_one, fit_rank_two, fit_rank_k;
    replace (maxit s - iter_ s) with 0 by lia; cbn [als_loop]; apply bind_ret.
Qed.

Lemma fit_ranks_exhausted ks : forall (s s' : dsvd),
  maxit s <= iter_ s -> result (fit_ranks ks s) = Ok s' -> v s' = v s.
Proof.
  induction ks as [|k ks IH]; intros s s' Hb H; simpl in H.
  - injection H as <-. reflexivity.
  - apply result_bind_Ok in H. destruct H as (s1 & H1 & H).
    rewrite fit_rank_exhausted in H1 by exact Hb.
    unfold unscale in H1. inv_ok. subst s1. simpl in *.
    apply IH in H; [exact H|exact Hb].
Qed.

Lemma fit_diagonal_keeps_v idx : forall (s s' : dsvd),
  result (fit_diagonal idx s) = Ok s' -> v s' = v s.
Proof.
  induction idx as [|i idx IH]; intros s s' H; simpl in H.
  - injection H as <-. reflexivity.
  - apply result_bind_Ok in H. destruct H as (s1 & H1 & H).
    apply IH in H. rewrite H. unfold diagonal_step in H1. inv_ok. subst s1. reflexivity.
Qed.

End IgnoresV.

(** X14.  The rank-1 fitter assigns every entry of column 0 of [v] before
    it reads one.  So on an object whose [v] has one column and that has an
    iteration left, [fit] does not depend on what [v] holds: the constructor
    [svd(A, u)], which leaves [v] unassigned, is safe to fit from.  With no
    iteration left [fit] returns [v] as it found it. *)
Theorem rank_one_fit_ignores_v {num : Type} {SC : Scalar num} {EX : Externals num}
        (s : svd num (MatrixXd num)) (v1 v2 : MatrixXd num) :
  (0 < mcols (u s) -> iter_ s < maxit s ->
   mrows v1 = mrows v2 -> mcols v1 = 1 -> mcols v2 = 1 ->
   fit (with_v s v1) = fit (with_v s v2))
  /\ (maxit s <= iter_ s -> forall s', result (fit s) = Ok s' -> v s' = v s).
Proof.
  split; [apply fit_ignores_v|].
  intros Hb s' H. unfold fit in H. apply result_bind_Ok in H. destruct H as (s1 & H1 & H).
  apply fit_diagonal_keeps_v in H. apply fit_ranks_exhausted in H1; [congruence|exact Hb].
Qed.

(** The statement on the objects [svd(A, u)] leaves for the 2 by 2 identity
    and [u = (1, 2)], the storage of [v] holding zeros or ones. *)
Lemma rank_one_fit_ignores_v_witness :
  fit (initial_svd (T := MatrixXd float) (Inputs.m22 1 0 0 1) (Inputs.c2 1 2)
                   (uninitialised (fun _ _ => 0%float) 2 1) Inputs.tol_default)
  = fit (initial_svd (T := MatrixXd float) (Inputs.m22 1 0 0 1) (Inputs.c2 1 2)
                     (uninitialised (fun _ _ => 1%float) 2 1) Inputs.tol_default).
Proof.
  apply (proj1 (rank_one_fit_ignores_v
                  (initial_svd (T := MatrixXd float) (Inputs.m22 1 0 0 1) (Inputs.c2 1 2)
                               (Inputs.c2 0 0) Inputs.tol_default)
                  (uninitialised (fun _ _ => 0%float) 2 1)
                  (uninitialised (fun _ _ => 1%float) 2 1))).
  - vm_compute. lia.
  - vm_compute. lia.
  - reflexivity.
  - reflexivity.
  - reflexivity.
Defined.

(** ** Construct, mask, fit, score *)

Section Pipeline.
Context {num : Type} {SC : Scalar num} {EX : Externals num}.
Local Abbreviation dsvd := (svd num (MatrixXd num)).

Lemma mse_masked_dense_returns n (s : dsvd) :
  model_of n n n s -> mask s = true -> mask_fits s ->
  returns (fun _ => True) (mse_masked_dense s).
Proof.
  intros Hs Hmask Hfit.
  pose proof Hs as (HwA & HrA & HcA & Hwu & Hru & Hcu & Hwv & Hrv & Hcv & Hd).
  destruct (Hfit Hmask) as (Hr & Hc & Hin). cbn [rows cols dense_backend] in Hr, Hc.
  unfold mse_masked_dense. rewrite Hmask. simpl negb. cbv iota.
  destruct (transpose_some (u s) Hwu) as [u0 Hu0].
  destruct (transpose_shape _ _ Hu0) as (Hr0 & Hc0 & Hw0).
  eapply returns_lift; [exact Hu0|].
  eapply returns_bind.
  - apply returns_mapM. intros i Hi. apply in_seq in Hi.
    destruct (nth_error_some (sp_data (mask_matrix s)) i) as [c Hcol].
    { unfold sp_cols in Hc. lia. }
    assert (Hidx : InnerIndices (mask_matrix s) i = Some (map fst c)).
    { unfold InnerIndices, InnerIterator. rewrite Hcol. reflexivity. }
    eapply returns_lift; [exact Hidx|].
    apply returns_foldM; [trivial|]. intros loss r Hr' _.
    apply in_map_iff in Hr'. destruct Hr' as (p & <- & Hp).
    unfold sparse_in_range in Hin. rewrite Forall_forall in Hin.
    pose proof (Hin c (nth_error_In _ _ Hcol)) as Hcin. rewrite Forall_forall in Hcin.
    specialize (Hcin p Hp).
    unfold row_times_col.
    destruct (row_some u0 (fst p) Hw0) as (ur & Hur & Lur); [lia|].
    destruct (col_some (v s) i) as [vi Hvi]; [lia|].
    eapply returns_bind with (P := fun _ => True).
    + eapply returns_lift; [exact Hur|].
      eapply returns_lift; [exact Hvi|].
      eapply lift_returns; [apply dot_some; rewrite (col_wf _ _ _ Hwv Hvi); lia|trivial].
    + intros x _. destruct (coeff_some (A s) (fst p) i HwA) as [a Ha]; [lia|lia|].
      eapply returns_lift; [exact Ha|]. apply returns_ret. trivial.
  - intros losses _. apply divide_returns. trivial.
Qed.

Lemma model_of_masked_by n (s : dsvd) m :
  model_of n n n s -> sp_rows m = mrows (A s) -> sp_cols m = mcols (A s) ->
  sparse_in_range m ->
  model_of n n n (masked_by s m) /\ mask_fits (masked_by s m) /\ mask (masked_by s m) = true.
Proof.
  intros Hs Hr Hc Hin. split; [exact Hs|]. split; [|reflexivity].
  intros _. simpl. auto.
Qed.

End Pipeline.

(** X15.  The methods compose within bounds on a square matrix with a
    full-rank model: the object the constructor [svd(A, u, v)] returns for
    an [n] by [n] matrix and [n] by [n] factors can be given a mask matrix
    of that size, fitted, and scored by [mse()] and by [mse_masked()], and
    every one of these calls returns. *)
Theorem construct_mask_fit_score {num : Type} {SC : Scalar num} {EX : Externals num}
        (n : nat) (a u0 v0 : MatrixXd num) (t : num) (m : SparseMatrix num) :
  wf_matrix a -> wf_matrix u0 -> wf_matrix v0 ->
  mrows a = n -> mcols a = n -> mcols u0 = n -> mcols v0 = n ->
  mrows u0 = n -> mrows v0 = n ->
  sp_rows m = n -> sp_cols m = n -> sparse_in_range m ->
  exists s s1 s2 x y,
    result (svd_of_model a u0 v0 t) = Ok s
    /\ result (maskMatrix s m) = Ok s1
    /\ result (fit s1) = Ok s2
    /\ result (mse_dense s2) = Ok x
    /\ result (mse_masked_dense s2) = Ok y.
Proof.
  intros Hwa Hwu Hwv Hra Hca Hcu Hcv Hru Hrv Hrm Hcm Hin.
  assert (Hs : model_of n n n (initial_svd a u0 v0 t)).
  { unfold model_of. simpl. rewrite repeat_length. repeat split; assumption. }
  exists (initial_svd a u0 v0 t), (masked_by (initial_svd a u0 v0 t) m).
  destruct (model_of_masked_by n (initial_svd a u0 v0 t) m Hs) as (Hs1 & Hfit1 & Hm1);
    [simpl; congruence|simpl; congruence|exact Hin|].
  destruct (fit_returns n n n _ Hs1 (or_intror eq_refl)) as (s2 & H2 & Hs2).
  destruct (fit_kept _ _ H2) as ((Hset & _) & _).
  assert (Hfit2 : mask_fits s2) by (eapply mask_fits_kept; eauto).
  assert (Hm2 : mask s2 = true).
  { destruct Hset as (_ & _ & Hm & _). rewrite Hm. exact Hm1. }
  destruct (mse_dense_returns n s2 Hs2 Hfit2) as (x & Hx & _).
  destruct (mse_masked_dense_returns n s2 Hs2 Hm2 Hfit2) as (y & Hy & _).
  exists s2, x, y. split; [|split; [|split; [|split]]]; try assumption.
  - unfold svd_of_model. simpl. rewrite Hra, Hca, Hcu, Hcv, Hru, Hrv, !Nat.eqb_refl. reflexivity.
  - rewrite maskMatrix_returns; [reflexivity|reflexivity|reflexivity| |]; simpl; congruence.
Qed.

(** The statement on diag(2, 1) with two components and the entry (0, 0)
    masked. *)
Lemma construct_mask_fit_score_witness :
  exists s s1 s2 x y,
    result (svd_of_model (Inputs.m22 2 0 0 1) (Inputs.m22 1 1 2 2) (Inputs.m22 0 0 0 0)
                         Inputs.tol_default) = Ok s
    /\ result (maskMatrix s Inputs.mask00) = Ok s1
    /\ result (fit s1) = Ok s2
    /\ result (mse_dense s2) = Ok x
    /\ result (mse_masked_dense s2) = Ok y.
Proof.
  apply (construct_mask_fit_score 2); try reflexivity;
    unfold wf_matrix, sparse_in_range; simpl; repeat constructor.
Defined.

(** ** The sparse loss on a well-shaped model *)

Section SparseLoss.
Context {num : Type} {SC : Scalar num} {EX : Externals num}.
Local Abbreviation ssvd := (svd num (SparseMatrix num)).

Lemma stored_in_range (a : SparseMatrix num) i it p :
  sparse_in_range a -> InnerIterator a i = Some it -> In p it -> fst p < sp_rows a.
Proof.
  unfold sparse_in_range, InnerIterator. intros Hin Hit Hp.
  rewrite Forall_forall in Hin. pose proof (Hin it (nth_error_In _ _ Hit)) as H.
  rewrite Forall_forall in H. apply H. exact Hp.
Qed.

Lemma InnerIterator_some (a : SparseMatrix num) i :
  i < sp_cols a -> exists it, InnerIterator a i = Some it.
Proof. unfold InnerIterator, sp_cols. apply nth_error_some. Qed.

Lemma column_loss_sparse_returns n (s : ssvd) u0 i :
  sparse_model_of n n n s -> mask_fits s -> transpose (u s) = Some u0 -> i < n ->
  returns (fun _ => True) (column_loss_sparse s u0 i).
Proof.
  intros (HiA & HrA & HcA & Hwu & Hru & Hcu & Hwv & Hrv & Hcv) Hm Ht Hi.
  destruct (transpose_shape _ _ Ht) as (Hr0 & Hc0 & Hw0).
  unfold column_loss_sparse.
  destruct (col_some (v s) i) as [vi Hvi]; [lia|].
  pose proof (col_wf _ _ _ Hwv Hvi) as Lvi.
  eapply returns_lift; [exact Hvi|].
  destruct (matvec_some u0 vi Hw0) as [uv_i Huv]; [lia|].
  destruct (matvec_shape _ _ _ Huv) as (_ & Luv).
  eapply returns_lift; [exact Huv|].
  destruct (InnerIterator_some (A s) i) as [it Hit]; [lia|].
  eapply returns_lift; [exact Hit|].
  destruct (mask_zeros s).
  - apply returns_foldM; [trivial|]. intros loss p Hp _.
    pose proof (stored_in_range _ _ _ _ HiA Hit Hp) as Hrow.
    destruct (nth_error_some uv_i (fst p)) as [x Hx]; [lia|].
    eapply returns_lift; [exact Hx|]. apply returns_ret. trivial.
  - eapply returns_bind.
    + apply (returns_foldM (fun uv : Vector num => length uv = n)); [lia|].
      intros uv p Hp Huvn.
      pose proof (stored_in_range _ _ _ _ HiA Hit Hp) as Hrow.
      destruct (nth_error_some uv (fst p)) as [x Hx]; [lia|].
      eapply returns_lift; [exact Hx|].
      destruct (set_nth_some uv (fst p) (nsub x (snd p))) as [l Hl]; [lia|].
      eapply lift_returns; [exact Hl|]. rewrite (set_nth_length _ _ _ _ Hl). exact Huvn.
    + intros uv Huvn. eapply returns_bind.
      * apply (zero_masked_returns n); assumption.
      * intros uv' _. apply returns_ret. trivial.
Qed.

Lemma mse_sparse_returns n (s : ssvd) :
  sparse_model_of n n n s -> mask_fits s -> returns (fun _ => True) (mse_sparse s).
Proof.
  intros Hs Hm. unfold mse_sparse.
  destruct (transpose_some (u s)) as [u0 Hu0]; [apply Hs|].
  eapply returns_lift; [exact Hu0|].
  eapply returns_bind.
  - apply returns_mapM. intros i Hi. apply in_seq in Hi.
    assert (Hk : mcols (v s) = n) by apply Hs.
    eapply column_loss_sparse_returns; eauto. lia.
  - intros losses _. apply divide_returns. trivial.
Qed.

Lemma row_times_col_returns {T} (s : svd num T) n u0 r i :
  wf_matrix u0 -> mrows u0 = n -> mcols u0 = n ->
  wf_matrix (v s) -> mrows (v s) = n -> mcols (v s) = n ->
  r < n -> i < n -> returns (fun _ => True) (row_times_col s u0 r i).
Proof.
  intros Hw0 Hr0 Hc0 Hwv Hrv Hcv Hr Hi. unfold row_times_col.
  destruct (row_some u0 r Hw0) as (ur & Hur & Lur); [lia|].
  destruct (col_some (v s) i) as [vi Hvi]; [lia|].
  eapply returns_lift; [exact Hur|].
  eapply returns_lift; [exact Hvi|].
  eapply lift_returns; [apply dot_some; rewrite (col_wf _ _ _ Hwv Hvi); lia|trivial].
Qed.

Lemma mse_masked_sparse_returns n (s : ssvd) :
  sparse_model_of n n n s -> mask s = true -> mask_fits s ->
  returns (fun _ => True) (mse_masked_sparse s).
Proof.
  intros (HiA & HrA & HcA & Hwu & Hru & Hcu & Hwv & Hrv & Hcv) Hmask Hfit.
  destruct (Hfit Hmask) as (Hr & Hc & Hin). cbn [rows cols sparse_backend] in Hr, Hc.
  unfold mse_masked_sparse. rewrite Hmask. simpl negb. cbv iota.
  destruct (transpose_some (u s) Hwu) as [u0 Hu0].
  destruct (transpose_shape _ _ Hu0) as (Hr0 & Hc0 & Hw0).
  eapply returns_lift; [exact Hu0|].
  eapply returns_bind.
  - apply returns_mapM. intros i Hi. apply in_seq in Hi.
    destruct (InnerIterator_some (mask_matrix s) i) as [c Hcol]; [lia|].
    assert (Hidx : InnerIndices (mask_matrix s) i = Some (map fst c)).
    { unfold InnerIndices. rewrite Hcol. reflexivity. }
    eapply returns_lift; [exact Hidx|].
    destruct (0 <? length (map fst c)); [|apply returns_ret; trivial].
    destruct (InnerIterator_some (A s) i) as [it Hit]; [lia|].
    assert (Hrange : InnerIteratorInRange (A s) i (map fst c)
                     = Some (filter (fun p => mem_nat (fst p) (map fst c)) it)).
    { unfold InnerIteratorInRange. rewrite Hit. reflexivity. }
    eapply returns_lift; [exact Hrange|].
    eapply returns_bind with (P := fun _ => True).
    + apply returns_foldM; [trivial|]. intros loss p Hp _.
      apply filter_In in Hp. destruct Hp as (Hp & _).
      pose proof (stored_in_range _ _ _ _ HiA Hit Hp) as Hrow.
      eapply returns_bind with (P := fun _ => True).
      * apply (row_times_col_returns s n); try assumption; lia.
      * intros x _. apply returns_ret. trivial.
    + intros loss _.
      assert (Hempty : emptyInnerIndices (A s) i
                       = Some (filter (fun r => negb (mem_nat r (map fst it)))
                                      (seq 0 (sp_rows (A s))))).
      { unfold emptyInnerIndices, InnerIndices. rewrite Hit. reflexivity. }
      eapply returns_lift; [exact Hempty|].
      apply returns_foldM; [trivial|]. intros loss' r Hr' _.
      unfold set_intersection in Hr'. apply filter_In in Hr'. destruct Hr' as (Hr' & _).
      apply filter_In in Hr'. destruct Hr' as (Hr' & _). apply in_seq in Hr'.
      eapply returns_bind with (P := fun _ => True).
      * apply (row_times_col_returns s n); try assumption; lia.
      * intros x _. apply returns_ret. trivial.
  - intros losses _. apply divide_returns. trivial.
Qed.

Lemma mse_sparse_Ok m n k (s : ssvd) x :
  sparse_model_of m n k s -> 0 < k ->
  result (mse_sparse s) = Ok x -> m = n /\ k <= n.
Proof.
  intros (HiA & HrA & HcA & Hwu & Hru & Hcu & Hwv & Hrv & Hcv) Hk.
  unfold mse_sparse. intros H.
  apply result_bind_Ok in H. destruct H as (u0 & Hu0 & H). apply result_lift_Ok in Hu0.
  apply result_bind_Ok in H. destruct H as (losses & Hl & _).
  destruct (transpose_shape _ _ Hu0) as (Hr0 & Hc0 & _).
  destruct (mapM_Ok _ _ _ Hl) as (_ & Hall).
  destruct (Hall (k - 1)) as [b Hb]; [apply in_seq; lia|].
  unfold column_loss_sparse in Hb.
  apply result_bind_Ok in Hb. destruct Hb as (vi & Hvi & Hb). apply result_lift_Ok in Hvi.
  apply result_bind_Ok in Hb. destruct Hb as (uv_i & Huv & Hb). apply result_lift_Ok in Huv.
  apply result_bind_Ok in Hb. destruct Hb as (it & Hit & _). apply result_lift_Ok in Hit.
  destruct (matvec_shape _ _ _ Huv) as (Hc & _).
  rewrite (col_wf _ _ _ Hwv Hvi) in Hc.
  assert (k - 1 < sp_cols (A s)).
  { unfold InnerIterator in Hit. unfold sp_cols. apply nth_error_Some. congruence. }
  lia.
Qed.

End SparseLoss.

(** X17.  The sparse [mse()] and [mse_masked()] on a rank-[k] model of a
    sparse [m] by [n] matrix whose stored entries lie within its rows, the
    mask matrix, if any, of the dimensions of [A]: on a square matrix with
    a full-rank model both stay within bounds and return; and [mse()]
    returns only if the matrix is square and the rank is at most [n]. *)
Theorem sparse_loss_within_bounds {num : Type} {SC : Scalar num} {EX : Externals num}
        (m n k : nat) (s : svd num (SparseMatrix num)) :
  sparse_model_of m n k s -> mask_fits s ->
  (m = n -> k = n ->
     (exists x, result (mse_sparse s) = Ok x)
     /\ (mask s = true -> exists y, result (mse_masked_sparse s) = Ok y))
  /\ (0 < k -> forall x, result (mse_sparse s) = Ok x -> m = n /\ k <= n).
Proof.
  intros Hs Hfit. split.
  - intros -> ->. split.
    + destruct (mse_sparse_returns n s Hs Hfit) as (x & Hx & _). eauto.
    + intros Hm. destruct (mse_masked_sparse_returns n s Hs Hm Hfit) as (y & Hy & _). eauto.
  - intros Hk x Hx. eapply mse_sparse_Ok; eauto.
Qed.

Lemma exact_model_sparse_shape : sparse_model_of 2 2 2 Inputs.exact_model_sparse.
Proof.
  unfold sparse_model_of, sparse_in_range, wf_matrix. simpl.
  repeat split; repeat constructor.
Qed.

(** The statement on the full-rank model of a sparse 2 by 2 matrix. *)
Lemma sparse_loss_within_bounds_witness :
  exists x, result (mse_sparse Inputs.exact_model_sparse) = Ok x.
Proof.
  apply (proj1 (sparse_loss_within_bounds 2 2 2 Inputs.exact_model_sparse
                  exact_model_sparse_shape ltac:(discriminate)) eq_refl eq_refl).
Defined.

(** ** The dense and the sparse loss *)

Section Agreement.
Context {num : Type} {SC : Scalar num} {EX : Externals num}.

Lemma set_nth_id {X} (l : list X) : forall i x, nth_error l i = Some x -> set_nth l i x = Some l.
Proof.
  induction l as [|a l IH]; intros [|i] x H; simpl in *; try discriminate.
  - injection H as <-. reflexivity.
  - rewrite (IH _ _ H). reflexivity.
Qed.

Lemma stored_at_head r (val : num) it : stored_at ((r, val) :: it) r = val.
Proof. unfold stored_at. simpl. rewrite Nat.eqb_refl. reflexivity. Qed.

Lemma stored_at_tail r r' (val : num) it :
  r' <> r -> stored_at ((r', val) :: it) r = stored_at it r.
Proof.
  intros H. unfold stored_at. simpl. apply Nat.eqb_neq in H. rewrite H. reflexivity.
Qed.

Lemma stored_at_above (it : list (nat * num)) r :
  Forall (fun p => r < fst p) it -> stored_at it r = nzero.
Proof.
  unfold stored_at. induction 1 as [|p it Hp _ IH]; simpl; [reflexivity|].
  destruct (Nat.eqb_spec (fst p) r); [lia|exact IH].
Qed.

Lemma sorted_tail_above (r : nat) (val : num) it :
  StronglySorted lt (map fst ((r, val) :: it)) ->
  StronglySorted lt (map fst it) /\ Forall (fun p => r < fst p) it.
Proof.
  simpl. intros H. inversion H as [|? ? Hs Hall]; subst. split; [exact Hs|].
  rewrite Forall_map in Hall. exact Hall.
Qed.

(** One column of [A]: the rows from [j] on, as the dense loop subtracts
    them, against the stored entries from row [j] on, as the sparse loop
    does. *)
Lemma subtract_column_agrees {St1 St2} (a_of : nat -> option num) cnt :
  (forall x : num, nsub x nzero = x) ->
  forall j (it : list (nat * num)) (uv uv' : Vector num),
    StronglySorted lt (map fst it) ->
    Forall (fun p => j <= fst p < j + cnt) it ->
    (forall r, j <= r < j + cnt -> a_of r = Some (stored_at it r)) ->
    result (foldM (num := num) (St := St1)
                  (fun uv iter =>
                     x <- lift (nth_error uv iter) ;;
                     a <- lift (a_of iter) ;;
                     lift (set_nth uv iter (nsub x a)))
                  (seq j cnt) uv) = Ok uv' ->
    result (foldM (num := num) (St := St2)
                  (fun uv p =>
                     x <- lift (nth_error uv (fst p)) ;;
                     lift (set_nth uv (fst p) (nsub x (snd p))))
                  it uv) = Ok uv'.
Proof.
  intros sub_zero. induction cnt as [|cnt IH]; intros j it uv uv' Hs Hin Ha H.
  - simpl in H. injection H as <-.
    destruct it as [|p it]; [reflexivity|]. inversion Hin; subst. lia.
  - cbn [seq foldM] in H.
    apply result_bind_Ok in H. destruct H as (uv1 & H1 & H).
    apply result_bind_Ok in H1. destruct H1 as (x & Hx & H1). apply result_lift_Ok in Hx.
    apply result_bind_Ok in H1. destruct H1 as (a & Haj & H1). apply result_lift_Ok in Haj.
    apply result_lift_Ok in H1.
    rewrite Ha in Haj by lia. injection Haj as <-.
    destruct it as [|[r val] it].
    + (* nothing stored from row [j] on *)
      unfold stored_at in H1. simpl in H1. rewrite sub_zero, (set_nth_id _ _ _ Hx) in H1.
      injection H1 as <-.
      apply (IH (S j) [] uv uv'); [constructor|constructor| |exact H].
      intros r Hr. apply Ha. lia.
    + destruct (sorted_tail_above _ _ _ Hs) as (Hs' & Habove).
      inversion Hin as [|? ? Hr Hin']; subst. simpl in Hr.
      destruct (Nat.eq_dec r j) as [->|Hne].
      * (* the first stored entry is at row [j] *)
        rewrite stored_at_head in H1.
        cbn [foldM fst snd]. rewrite (result_bind_step _ _ uv1).
        2: { rewrite (result_bind_step _ _ x); [|rewrite Hx; reflexivity].
             rewrite H1. reflexivity. }
        apply (IH (S j) it uv1 uv'); [exact Hs'| | |exact H].
        -- rewrite Forall_forall in *. intros p Hp.
           pose proof (Hin' p Hp). pose proof (Habove p Hp). lia.
        -- intros r Hr'. rewrite Ha by lia. f_equal. apply stored_at_tail. lia.
      * (* the first stored entry is further down *)
        rewrite stored_at_above in H1.
        2: { constructor; [simpl; lia|]. eapply Forall_impl; [|exact Habove].
             simpl. intros p Hp. lia. }
        rewrite sub_zero, (set_nth_id _ _ _ Hx) in H1. injection H1 as <-.
        apply (IH (S j) ((r, val) :: it) uv uv'); [exact Hs| | |exact H].
        -- constructor; [simpl; lia|]. rewrite Forall_forall in *. intros p Hp.
           pose proof (Hin' p Hp). pose proof (Habove p Hp). lia.
        -- intros r' Hr'. apply Ha. lia.
Qed.

(** The same for the [mask_zeros] mode, where the dense loop skips the
    zeros of [A] and the sparse loop visits the stored entries. *)
Lemma accumulate_column_agrees {St1 St2} (a_of : nat -> option num) (uv_i : Vector num) cnt :
  neqb (nzero : num) nzero = true ->
  forall j (it : list (nat * num)) (loss loss' : num),
    StronglySorted lt (map fst it) ->
    Forall (fun p => j <= fst p < j + cnt) it ->
    Forall (fun p : nat * num => neqb (snd p) nzero = false) it ->
    (forall r, j <= r < j + cnt -> a_of r = Some (stored_at it r)) ->
    result (foldM (num := num) (St := St1)
                  (fun loss iter =>
                     a <- lift (a_of iter) ;;
                     if negb (neqb a nzero)
                     then x <- lift (nth_error uv_i iter) ;; ret (nadd loss (square (nsub x a)))
                     else ret loss)
                  (seq j cnt) loss) = Ok loss' ->
    result (foldM (num := num) (St := St2)
                  (fun loss p =>
                     x <- lift (nth_error uv_i (fst p)) ;;
                     ret (nadd loss (square (nsub x (snd p)))))
                  it loss) = Ok loss'.
Proof.
  intros zero_is_zero. induction cnt as [|cnt IH]; intros j it loss loss' Hs Hin Hnz Ha H.
  - simpl in H. injection H as <-.
    destruct it as [|p it]; [reflexivity|]. inversion Hin; subst. lia.
  - cbn [seq foldM] in H.
    apply result_bind_Ok in H. destruct H as (loss1 & H1 & H).
    apply result_bind_Ok in H1. destruct H1 as (a & Haj & H1). apply result_lift_Ok in Haj.
    rewrite Ha in Haj by lia. injection Haj as <-.
    destruct it as [|[r val] it].
    + unfold stored_at in H1. simpl in H1. rewrite zero_is_zero in H1. simpl in H1.
      injection H1 as <-.
      apply (IH (S j) [] loss loss'); [constructor|constructor|constructor| |exact H].
      intros r Hr. apply Ha. lia.
    + destruct (sorted_tail_above _ _ _ Hs) as (Hs' & Habove).
      inversion Hin as [|? ? Hr Hin']; subst. simpl in Hr.
      inversion Hnz as [|? ? Hval Hnz']; subst. simpl in Hval.
      destruct (Nat.eq_dec r j) as [->|Hne].
      * rewrite stored_at_head, Hval in H1. simpl in H1.
        apply result_bind_Ok in H1. destruct H1 as (x & Hx & H1). apply result_lift_Ok in Hx.
        injection H1 as <-.
        cbn [foldM fst snd]. rewrite (result_bind_step _ _ (nadd loss (square (nsub x val)))).
        2: { rewrite (result_bind_step _ _ x); [reflexivity|rewrite Hx; reflexivity]. }
        apply (IH (S j) it _ loss'); [exact Hs'| |exact Hnz'| |exact H].
        -- rewrite Forall_forall in *. intros p Hp.
           pose proof (Hin' p Hp). pose proof (Habove p Hp). lia.
        -- intros r Hr'. rewrite Ha by lia. f_equal. apply stored_at_tail. lia.
      * rewrite stored_at_above in H1.
        2: { constructor; [simpl; lia|]. eapply Forall_impl; [|exact Habove].
             simpl. intros p Hp. lia. }
        rewrite zero_is_zero in H1. simpl in H1. injection H1 as <-.
        apply (IH (S j) ((r, val) :: it) loss loss'); [exact Hs| |exact Hnz| |exact H].
        -- constructor; [simpl; lia|]. rewrite Forall_forall in *. intros p Hp.
           pose proof (Hin' p Hp). pose proof (Habove p Hp). lia.
        -- intros r' Hr'. apply Ha. lia.
Qed.

(** The nonzero entries of the dense copy of a column are the stored
    ones. *)
Lemma nonzeros_of_column cnt :
  neqb (nzero : num) nzero = true ->
  forall j (it : list (nat * num)),
  StronglySorted lt (map fst it) ->
  Forall (fun p => j <= fst p < j + cnt) it ->
  Forall (fun p : nat * num => neqb (snd p) nzero = false) it ->
  length (filter (fun a => negb (neqb a nzero)) (map (stored_at it) (seq j cnt)))
  = length it.
Proof.
  intros zero_is_zero. induction cnt as [|cnt IH]; intros j it Hs Hin Hnz.
  - destruct it as [|p it]; [reflexivity|]. inversion Hin; subst. lia.
  - cbn [seq map filter]. destruct it as [|[r val] it].
    + unfold stored_at at 1. simpl find. cbv iota. rewrite zero_is_zero. simpl negb. cbv iota.
      apply (IH (S j) []); constructor.
    + destruct (sorted_tail_above _ _ _ Hs) as (Hs' & Habove).
      inversion Hin as [|? ? Hr Hin']; subst. simpl in Hr.
      inversion Hnz as [|? ? Hval Hnz']; subst. simpl in Hval.
      destruct (Nat.eq_dec r j) as [->|Hne].
      * rewrite stored_at_head, Hval. simpl negb. cbv iota. simpl length. f_equal.
        rewrite <- (IH (S j) it Hs'); [|
          rewrite Forall_forall in *; intros p Hp;
          pose proof (Hin' p Hp); pose proof (Habove p Hp); lia|exact Hnz'].
        f_equal. f_equal. apply map_ext_in. intros r Hr'. apply in_seq in Hr'.
        apply stored_at_tail. lia.
      * rewrite stored_at_above.
        2: { constructor; [simpl; lia|]. eapply Forall_impl; [|exact Habove].
             simpl. intros p Hp. lia. }
        rewrite zero_is_zero. simpl negb. cbv iota.
        apply (IH (S j) ((r, val) :: it)); [exact Hs| |exact Hnz].
        constructor; [simpl; lia|]. rewrite Forall_forall in *. intros p Hp.
        pose proof (Hin' p Hp). pose proof (Habove p Hp). lia.
Qed.

Lemma nonzeros_of_columns (m : nat) (cs : list (list (nat * num))) :
  neqb (nzero : num) nzero = true ->
  Forall (Forall (fun p : nat * num => fst p < m)) cs ->
  Forall (fun c => StronglySorted lt (map fst c)) cs ->
  Forall (Forall (fun p : nat * num => neqb (snd p) nzero = false)) cs ->
  forall acc,
    fold_left (fun n c => n + length (filter (fun a => negb (neqb a nzero)) c))
              (map (fun c => map (stored_at c) (seq 0 m)) cs) acc
    = fold_left (fun n (c : list (nat * num)) => n + length c) cs acc.
Proof.
  intros zero_is_zero. induction cs as [|c cs IH]; intros Hin Hs Hnz acc; [reflexivity|].
  apply Forall_cons_iff in Hin. destruct Hin as (Hc & Hin).
  apply Forall_cons_iff in Hs. destruct Hs as (Hsc & Hs).
  apply Forall_cons_iff in Hnz. destruct Hnz as (Hnc & Hnz).
  cbn [map fold_left].
  rewrite (nonzeros_of_column m zero_is_zero 0 c); [apply IH; assumption|exact Hsc| |exact Hnc].
  eapply Forall_impl; [|exact Hc]. simpl. intros p Hp. lia.
Qed.

Lemma n_nonzeros_densify (a : SparseMatrix num) :
  neqb (nzero : num) nzero = true ->
  sparse_in_range a -> sparse_sorted a -> stored_nonzero a ->
  n_nonzeros (densify a) = sp_nnz a.
Proof.
  intros zero_is_zero Hin Hs Hnz. unfold n_nonzeros, sp_nnz, densify. cbn [mdata].
  apply nonzeros_of_columns; assumption.
Qed.

Lemma coeff_densify (a : SparseMatrix num) i it r :
  InnerIterator a i = Some it -> r < sp_rows a ->
  coeff (densify a) r i = Some (stored_at it r).
Proof.
  unfold InnerIterator, coeff, col, densify. simpl. intros Hit Hr.
  rewrite (map_nth_error _ _ _ Hit). simpl.
  rewrite (map_nth_error _ r (seq 0 (sp_rows a)) (d := r)); [reflexivity|].
  rewrite nth_error_seq. apply Nat.ltb_lt in Hr. rewrite Hr. reflexivity.
Qed.

Lemma mapM_agrees {St1 St2 X Y} (f : X -> M num St1 Y) (g : X -> M num St2 Y) l :
  (forall a b, In a l -> result (f a) = Ok b -> result (g a) = Ok b) ->
  forall ys, result (mapM f l) = Ok ys -> result (mapM g l) = Ok ys.
Proof.
  induction l as [|a l IH]; intros Hfg ys H; simpl in *.
  - injection H as <-. reflexivity.
  - apply result_bind_Ok in H. destruct H as (b & Hb & H).
    apply result_bind_Ok in H. destruct H as (bs & Hbs & H). injection H as <-.
    rewrite (result_bind_step _ _ b) by (apply Hfg; [left; reflexivity|exact Hb]).
    rewrite (result_bind_step _ _ bs); [reflexivity|].
    apply IH; [|exact Hbs]. intros; apply Hfg; [right|]; assumption.
Qed.

Lemma zero_masked_agrees (s : svd num (SparseMatrix num)) i uv w :
  result (zero_masked (as_dense s) i uv) = Ok w -> result (zero_masked s i uv) = Ok w.
Proof.
  unfold zero_masked. simpl. destruct (mask s); [|intros H; injection H as <-; reflexivity].
  intros H.
  apply result_bind_Ok in H. destruct H as (m & Hm & H). apply result_lift_Ok in Hm.
  rewrite Hm. rewrite (result_bind_step _ _ m) by reflexivity.
  clear Hm. revert uv H. induction m as [|r m IH]; intros uv H; simpl in *.
  - injection H as <-. reflexivity.
  - apply result_bind_Ok in H. destruct H as (uv1 & H1 & H). apply result_lift_Ok in H1.
    rewrite (result_bind_step _ _ uv1) by (rewrite H1; reflexivity). apply IH. exact H.
Qed.

Lemma column_loss_agrees (s : svd num (SparseMatrix num)) u0 i b :
  sparse_in_range (A s) -> sparse_sorted (A s) ->
  (mask_zeros s = false -> forall y : num, nsub y nzero = y) ->
  (mask_zeros s = true -> neqb (nzero : num) nzero = true /\ stored_nonzero (A s)) ->
  0 < sp_rows (A s) ->
  result (column_loss_dense (as_dense s) u0 i) = Ok b ->
  result (column_loss_sparse s u0 i) = Ok b.
Proof.
  intros Hin Hs Hsub Hnz Hm H.
  destruct (column_loss_dense_Ok (as_dense s) u0 i b Hm H) as (Hi & _).
  assert (Hi' : i < sp_cols (A s)).
  { revert Hi. unfold mcols, sp_cols, as_dense, densify. simpl. rewrite length_map. trivial. }
  destruct (InnerIterator_some (A s) i Hi') as [it Hit].
  assert (Hsorted : StronglySorted lt (map fst it)).
  { unfold sparse_sorted in Hs. rewrite Forall_forall in Hs. apply Hs.
    eapply nth_error_In; exact Hit. }
  assert (Hrange : Forall (fun p : nat * num => 0 <= fst p < 0 + sp_rows (A s)) it).
  { unfold sparse_in_range in Hin. rewrite Forall_forall in Hin.
    eapply Forall_impl; [|apply (Hin it); eapply nth_error_In; exact Hit].
    simpl. intros p Hp. lia. }
  assert (Ha : forall r, 0 <= r < 0 + sp_rows (A s) ->
                 coeff (densify (A s)) r i = Some (stored_at it r)).
  { intros r Hr. apply coeff_densify; [exact Hit|lia]. }
  unfold column_loss_dense in H. unfold column_loss_sparse. simpl in H.
  apply result_bind_Ok in H. destruct H as (vi & Hvi & H). apply result_lift_Ok in Hvi.
  apply result_bind_Ok in H. destruct H as (uv_i & Huv & H). apply result_lift_Ok in Huv.
  rewrite (result_bind_step _ _ vi) by (rewrite Hvi; reflexivity).
  rewrite (result_bind_step _ _ uv_i) by (rewrite Huv; reflexivity).
  rewrite (result_bind_step _ _ it) by (rewrite Hit; reflexivity).
  destruct (mask_zeros s) eqn:Hz.
  - assert (Hnz' : Forall (fun p : nat * num => neqb (snd p) nzero = false) it).
    { destruct (Hnz eq_refl) as (_ & Hall). unfold stored_nonzero in Hall.
      rewrite Forall_forall in Hall. apply Hall. eapply nth_error_In; exact Hit. }
    exact (accumulate_column_agrees (St1 := svd num (MatrixXd num))
             (fun iter => coeff (densify (A s)) iter i) uv_i (sp_rows (A s))
             (proj1 (Hnz eq_refl)) 0 it _ b Hsorted Hrange Hnz' Ha H).
  - apply result_bind_Ok in H. destruct H as (uv & Hfold & H).
    apply result_bind_Ok in H. destruct H as (w & Hw & H).
    apply (subtract_column_agrees (St2 := svd num (SparseMatrix num))
             (fun iter => coeff (densify (A s)) iter i) (sp_rows (A s)) (Hsub eq_refl)
             0 it uv_i uv Hsorted Hrange Ha) in Hfold.
    rewrite (result_bind_step _ _ uv) by exact Hfold.
    rewrite (result_bind_step _ _ w) by (apply zero_masked_agrees; exact Hw).
    injection H as <-. reflexivity.
Qed.

(** The two evaluators on arrays [losses] that held the same. *)
Lemma mse_agrees_on_shared_accumulators (s : svd num (SparseMatrix num)) (x : num) :
  sparse_in_range (A s) -> sparse_sorted (A s) ->
  (mask_zeros s = false -> forall y : num, nsub y nzero = y) ->
  (mask_zeros s = true -> neqb (nzero : num) nzero = true /\ stored_nonzero (A s)) ->
  0 < sp_rows (A s) ->
  result (mse_dense (as_dense s)) = Ok x -> result (mse_sparse s) = Ok x.
Proof.
  intros Hin Hs Hsub Hnz Hm H. unfold mse_dense in H. unfold mse_sparse.
  change (u (as_dense s)) with (u s) in H. change (v (as_dense s)) with (v s) in H.
  apply result_bind_Ok in H. destruct H as (u0 & Hu0 & H). apply result_lift_Ok in Hu0.
  apply result_bind_Ok in H. destruct H as (losses & Hl & H).
  rewrite (result_bind_step _ _ u0) by (rewrite Hu0; reflexivity).
  rewrite (result_bind_step _ _ losses).
  2: { eapply mapM_agrees; [|exact Hl]. intros i b _. apply column_loss_agrees; assumption. }
  apply result_divide_Ok in H. subst x. unfold divide, result. cbn [fst]. f_equal. f_equal.
  unfold mse_divisor. simpl. destruct (mask s); [reflexivity|].
  destruct (mask_zeros s); [|reflexivity].
  destruct (Hnz eq_refl) as (Hz & Hall).
  rewrite n_nonzeros_densify by assumption. reflexivity.
Qed.

End Agreement.

Section Accumulators.
Context {num : Type} {SC : Scalar num}.

Lemma mapM_ext_in {St X Y} (f g : X -> M num St Y) l :
  (forall a, In a l -> f a = g a) -> mapM f l = mapM g l.
Proof.
  induction l as [|a l IH]; intros H; simpl; [reflexivity|].
  rewrite (H a) by (left; reflexivity).
  rewrite IH by (intros; apply H; right; assumption). reflexivity.
Qed.

(** Of what its array [losses] held, the sparse [mse()] reads the entries
    of the columns of [v] only. *)
Lemma mse_sparse_accumulators (EX1 EX2 : Externals num) (s : svd num (SparseMatrix num)) :
  (forall i, i < mcols (v s) ->
     losses_uninit (Externals := EX1) i = losses_uninit (Externals := EX2) i) ->
  mse_sparse (EX := EX1) s = mse_sparse (EX := EX2) s.
Proof.
  intros H. unfold mse_sparse. apply bind_ext. intros u0.
  rewrite (mapM_ext_in (column_loss_sparse (EX := EX1) s u0)
                       (column_loss_sparse (EX := EX2) s u0)); [reflexivity|].
  intros i Hi. apply in_seq in Hi. unfold column_loss_sparse.
  rewrite H by lia. reflexivity.
Qed.

End Accumulators.

(** X18.  The two backends of [mse()] agree when their arrays [losses],
    which each of them allocates and does not initialise (lines 179 and
    214), held the same in the entries of the columns of [v]: on a sparse
    matrix whose stored entries are in increasing row order within its
    rows, whenever the dense [mse()] returns on the dense copy of the
    matrix, the sparse [mse()] returns the same value.  [EXd] is the setting
    of the dense call and [EXs] that of the sparse one.  Without
    [mask_zeros] this needs [x - 0 = x] of the arithmetic (the dense loop
    subtracts the zeros too); with [mask_zeros] it needs that no stored
    entry is zero (the dense loop skips the zeros, the sparse loop visits
    what is stored). *)
Theorem dense_and_sparse_mse_agree {num : Type} {SC : Scalar num}
        (EXd EXs : Externals num) (s : svd num (SparseMatrix num)) (x : num) :
  (forall i, i < mcols (v s) ->
     losses_uninit (Externals := EXd) i = losses_uninit (Externals := EXs) i) ->
  sparse_in_range (A s) -> sparse_sorted (A s) ->
  (mask_zeros s = false -> forall y : num, nsub y nzero = y) ->
  (mask_zeros s = true -> neqb (nzero : num) nzero = true /\ stored_nonzero (A s)) ->
  0 < sp_rows (A s) ->
  result (mse_dense (EX := EXd) (as_dense s)) = Ok x ->
  result (mse_sparse (EX := EXs) s) = Ok x.
Proof.
  intros Hl Hin Hs Hsub Hnz Hm H.
  rewrite <- (mse_sparse_accumulators EXd EXs s Hl).
  exact (mse_agrees_on_shared_accumulators s x Hin Hs Hsub Hnz Hm H).
Qed.

(** The statement on doubles with zeros masked, the two arrays differing
    beyond the columns of [v], and over the reals without masking. *)
Lemma dense_and_sparse_mse_agree_witness :
  (exists x, result (mse_dense (EX := float_externals) (as_dense Shapes.zeros_masked)) = Ok x
             /\ result (mse_sparse (EX := float_externals_other) Shapes.zeros_masked) = Ok x)
  /\ (exists x, result (mse_dense (as_dense Shapes.real_sparse)) = Ok x
                /\ result (mse_sparse Shapes.real_sparse) = Ok x).
Proof.
  split.
  - destruct (result (mse_dense (EX := float_externals) (as_dense Shapes.zeros_masked)))
      as [x| |] eqn:E; [|vm_compute in E; discriminate..].
    exists x. split; [reflexivity|].
    apply (dense_and_sparse_mse_agree float_externals float_externals_other
             Shapes.zeros_masked x); try exact E.
    + intros i Hi. change (mcols (v Shapes.zeros_masked)) with 2 in Hi.
      simpl. apply Nat.ltb_lt in Hi. rewrite Hi. reflexivity.
    + unfold sparse_in_range. simpl. repeat constructor.
    + unfold sparse_sorted. simpl. repeat constructor.
    + discriminate.
    + intros _. split; [reflexivity|]. unfold stored_nonzero. simpl. repeat constructor.
    + simpl. lia.
  - destruct (result (mse_dense (as_dense Shapes.real_sparse))) as [x| |] eqn:E;
      [|cbv in E; discriminate..].
    exists x. split; [reflexivity|].
    apply (dense_and_sparse_mse_agree real_externals real_externals Shapes.real_sparse x);
      try exact E.
    + reflexivity.
    + unfold sparse_in_range. simpl. repeat constructor.
    + unfold sparse_sorted. simpl. repeat constructor.
    + intros _ y. simpl. apply Rminus_0_r.
    + discriminate.
    + simpl. lia.
Defined.

(** ** The column a fitter writes *)

Section OwnColumn.
Context {num : Type} {SC : Scalar num} {EX : Externals num}.
Local Abbreviation dsvd := (svd num (MatrixXd num)).
Local Abbreviation MD := (M num dsvd).

Lemma others_kept_refl k (s : dsvd) : others_kept k s s.
Proof. split; [intros; split; reflexivity|reflexivity]. Qed.

Lemma others_kept_trans k (s1 s2 s3 : dsvd) :
  others_kept k s1 s2 -> others_kept k s2 s3 -> others_kept k s1 s3.
Proof.
  intros (H1 & D1) (H2 & D2). split; [|congruence].
  intros j Hj. destruct (H1 j Hj), (H2 j Hj). split; congruence.
Qed.

Lemma set_cols_others k (s : dsvd) vc uc v' u' t :
  set_col (v s) k vc = Some v' -> set_col (u s) k uc = Some u' ->
  others_kept k s (with_tol_ (with_u (with_v s v') u') t).
Proof.
  intros Hv Hu. split; [|reflexivity]. intros j Hj. simpl.
  split; [exact (set_col_other _ _ _ _ _ Hu Hj)|exact (set_col_other _ _ _ _ _ Hv Hj)].
Qed.

Lemma fit_rank_one_body_others (s : dsvd) sd :
  result (fit_rank_one_body s) = Ok sd -> others_kept 0 s (fst sd).
Proof.
  unfold fit_rank_one_body. intros H. inv_ok. subst. eapply set_cols_others; eauto.
Qed.

Lemma fit_rank_two_body_others (s : dsvd) sd :
  result (fit_rank_two_body s) = Ok sd -> others_kept 1 s (fst sd).
Proof.
  unfold fit_rank_two_body. intros H. inv_ok. subst. simpl in *.
  eapply set_cols_others; eauto.
Qed.

Lemma fit_rank_k_body_others k (s : dsvd) sd :
  result (fit_rank_k_body k s) = Ok sd -> others_kept k s (fst sd).
Proof.
  unfold fit_rank_k_body. intros H. inv_ok. subst. eapply set_cols_others; eauto.
Qed.

Lemma als_loop_others k (body : dsvd -> MD (dsvd * num)) :
  (forall s sd, result (body s) = Ok sd -> others_kept k s (fst sd)) ->
  forall fuel dn s sd, result (als_loop k body fuel dn s) = Ok sd -> others_kept k s (fst sd).
Proof.
  intros Hb. induction fuel as [|fuel IH]; intros dn s sd H; cbn [als_loop] in H.
  - injection H as <-. apply others_kept_refl.
  - apply result_bind_Ok in H. destruct H as (sd1 & H1 & H).
    apply result_bind_Ok in H. destruct H as (_ & _ & H).
    apply Hb in H1. destruct (nltb _ _).
    + injection H as <-. exact H1.
    + apply IH in H. eapply others_kept_trans; [exact H1|exact H].
Qed.

End OwnColumn.

(** X19.  A fitter writes one column of [u] and one column of [v], its
    own: when the fitter of column [k] returns, every other column of [u]
    and of [v] is as it was, and so is [d].  The deflation of the later
    fitters reads the earlier columns and never changes them. *)
Theorem fitter_owns_its_column {num : Type} {SC : Scalar num} {EX : Externals num}
        (k : nat) (s s' : svd num (MatrixXd num)) :
  result (fit_rank k s) = Ok s' ->
  (forall j, j <> k -> col (u s') j = col (u s) j /\ col (v s') j = col (v s) j)
  /\ d s' = d s.
Proof.
  assert (Hloop : forall body,
            (forall s sd, result (body s) = Ok sd -> others_kept k s (fst sd)) ->
            result (sd <- als_loop k body (maxit s - iter_ s) (d_uninit k) s ;; unscale k sd)
            = Ok s' -> others_kept k s s').
  { intros body Hb H. apply result_bind_Ok in H. destruct H as (sd & H1 & H2).
    eapply others_kept_trans; [eapply als_loop_others; eauto|].
    unfold unscale in H2. inv_ok. subst s'. split; [|reflexivity].
    intros j Hj. simpl. split; [|reflexivity].
    match goal with Hs : set_col _ k _ = Some _ |- _ => exact (set_col_other _ _ _ _ _ Hs Hj) end. }
  destruct k as [|[|k]]; simpl; apply Hloop.
  - apply fit_rank_one_body_others.
  - apply fit_rank_two_body_others.
  - apply fit_rank_k_body_others.
Qed.

(** The statement on diag(2, 1) with two components: the rank-1 fitter
    leaves the second columns alone. *)
Lemma fitter_owns_its_column_witness :
  exists s', result (fit_rank 0 Inputs.budget_model) = Ok s'
             /\ col (u s') 1 = col (u Inputs.budget_model) 1
             /\ col (v s') 1 = col (v Inputs.budget_model) 1.
Proof.
  destruct (result (fit_rank 0 Inputs.budget_model)) as [s'| |] eqn:E;
    [|vm_compute in E; discriminate..].
  exists s'. split; [reflexivity|].
  destruct (fitter_owns_its_column 0 Inputs.budget_model s' E) as (H & _).
  apply (H 1). discriminate.
Defined.

(** X20.  The general fitter [fit_rank_k(k)] stays within bounds on every
    well-formed rank-[r] model of an [m] by [n] matrix and every column
    [k < r], square or not, and returns such a model: its deflation reads
    row [i] of [v] in the V half and row [i] of [u] in the U half.  It is
    the special case [fit_rank_two] that restricts [fit] with two or more
    components to square matrices. *)
Theorem general_fitter_within_bounds {num : Type} {SC : Scalar num} {EX : Externals num}
        (m n r k : nat) (s : svd num (MatrixXd num)) :
  model_of m n r s -> k < r ->
  exists s', result (fit_rank_k k s) = Ok s' /\ model_of m n r s'.
Proof.
  intros Hs Hk. unfold fit_rank_k. eapply returns_bind.
  - apply (als_loop_returns k (fit_rank_k_body k) (model_of m n r)); [| |exact Hs].
    + intros s0 H0. apply fit_rank_k_body_returns; assumption.
    + intros; assumption.
  - intros sd Hsd. apply unscale_returns; assumption.
Qed.

Lemma wide_model_shape : model_of 1 2 2 Inputs.wide_model.
Proof. unfold model_of, wf_matrix. simpl. repeat split; repeat constructor. Qed.

(** The statement on the 1 by 2 matrix with two components, column 1. *)
Lemma general_fitter_within_bounds_witness :
  exists s', result (fit_rank_k 1 Inputs.wide_model) = Ok s' /\ model_of 1 2 2 s'.
Proof.
  apply (general_fitter_within_bounds 1 2 2 1 Inputs.wide_model wide_model_shape). lia.
Defined.

(** ** How the loops are left *)

Section ExitFacts.
Context {num : Type} {SC : Scalar num} {EX : Externals num}.
Local Abbreviation dsvd := (svd num (MatrixXd num)).
Local Abbreviation MD := (M num dsvd).

Lemma als_loop_exit k (body : dsvd -> MD (dsvd * num)) :
  (forall s sd, result (body s) = Ok sd -> iter_ (fst sd) = iter_ s) ->
  forall fuel dn s sd,
    result (als_loop k body fuel dn s) = Ok sd -> left_at (iter_ s + fuel) (fst sd).
Proof.
  intros Hb. induction fuel as [|fuel IH]; intros dn s sd H; cbn [als_loop] in H.
  - injection H as <-. right. simpl. lia.
  - apply result_bind_Ok in H. destruct H as (sd1 & H1 & H).
    apply result_bind_Ok in H. destruct H as (_ & _ & H).
    apply Hb in H1. destruct (nltb (tol_ (fst sd1)) (tol (fst sd1))) eqn:Ht.
    + injection H as <-. left. split; [exact Ht|lia].
    + apply IH in H. simpl in H. rewrite H1 in H.
      replace (iter_ s + S fuel) with (S (iter_ s) + fuel) by lia. exact H.
Qed.

Lemma fit_rank_exit k (s s' : dsvd) :
  iter_ s <= maxit s -> result (fit_rank k s) = Ok s' -> left_at (maxit s) s'.
Proof.
  intros Hle H.
  assert (Hloop : forall body,
            (forall s sd, result (body s) = Ok sd -> iter_ (fst sd) = iter_ s) ->
            result (sd <- als_loop k body (maxit s - iter_ s) (d_uninit k) s ;; unscale k sd)
            = Ok s' -> left_at (maxit s) s').
  { intros body Hb H0. apply result_bind_Ok in H0. destruct H0 as (sd & Hsd & Hun).
    apply (als_loop_exit k body Hb) in Hsd.
    replace (iter_ s + (maxit s - iter_ s)) with (maxit s) in Hsd by lia.
    unfold unscale in Hun. inv_ok. subst s'. exact Hsd. }
  destruct k as [|[|k]]; simpl in H; apply Hloop in H; try exact H.
  - intros s0 sd H0. apply (fit_rank_one_body_frame s0 sd H0).
  - intros s0 sd H0. apply (fit_rank_two_body_frame s0 sd H0).
  - intros s0 sd H0. apply (fit_rank_k_body_frame (S (S k)) s0 sd H0).
Qed.

Lemma fit_ranks_exit ks : forall (s s' : dsvd),
  ks <> [] -> iter_ s <= maxit s -> result (fit_ranks ks s) = Ok s' ->
  left_at (maxit s) s'.
Proof.
  induction ks as [|k ks IH]; intros s s' Hne Hle H; [contradiction|].
  simpl in H. apply result_bind_Ok in H. destruct H as (s1 & H1 & H).
  destruct (fit_rank_spec k s) as (_ & _ & H3).
  destruct (H3 s1 H1) as ((_ & _ & Hm & _) & Hge & Hmax & _).
  destruct ks as [|k' ks].
  - simpl in H. injection H as <-. apply (fit_rank_exit k s s1 Hle H1).
  - rewrite <- Hm. apply IH; [discriminate|rewrite Hm; auto|exact H].
Qed.

Lemma fit_diagonal_keeps_exit idx : forall (s s' : dsvd),
  result (fit_diagonal idx s) = Ok s' ->
  tol_ s' = tol_ s /\ tol s' = tol s /\ iter_ s' = iter_ s.
Proof.
  induction idx as [|i idx IH]; intros s s' H; simpl in H.
  - injection H as <-. auto.
  - apply result_bind_Ok in H. destruct H as (s1 & H1 & H).
    apply IH in H. destruct H as (E1 & E2 & E3). rewrite E1, E2, E3.
    unfold diagonal_step in H1. inv_ok. subst s1. auto.
Qed.

End ExitFacts.

(** X21.  The exit of the fit.  A fitter that is entered with
    [iter_ <= maxit] and returns has either left its loop by [break], in
    which case the test [tol_ < tol] holds of the values it leaves and
    [iter_] is below [maxit], or it has brought [iter_] to [maxit]; and so
    has [fit] on an object with at least one column of [u]. *)
Theorem fit_exit_condition {num : Type} {SC : Scalar num} {EX : Externals num}
        (s s' : svd num (MatrixXd num)) :
  iter_ s <= maxit s ->
  (forall k, result (fit_rank k s) = Ok s' ->
     (nltb (tol_ s') (tol s') = true /\ iter_ s' < maxit s) \/ iter_ s' = maxit s)
  /\ (0 < mcols (u s) -> result (fit s) = Ok s' ->
      (nltb (tol_ s') (tol s') = true /\ iter_ s' < maxit s) \/ iter_ s' = maxit s).
Proof.
  intros Hle. split.
  - intros k H. exact (fit_rank_exit k s s' Hle H).
  - intros Hk H. unfold fit in H. apply result_bind_Ok in H. destruct H as (s1 & H1 & H).
    apply fit_ranks_exit in H1; [|destruct (mcols (u s)); [lia|discriminate]|exact Hle].
    destruct (fit_diagonal_keeps_exit _ _ _ H) as (E1 & E2 & E3).
    unfold left_at in H1. rewrite E1, E2, E3. exact H1.
Qed.

(** The statement on the rank-1 model of a 3 by 2 matrix with five
    iterations. *)
Lemma fit_exit_condition_witness :
  exists s', result (fit Shapes.tall_model) = Ok s'
             /\ ((PrimFloat.ltb (tol_ s') (tol s') = true /\ iter_ s' < 5) \/ iter_ s' = 5).
Proof.
  destruct (result (fit Shapes.tall_model)) as [s'| |] eqn:E;
    [|vm_compute in E; discriminate..].
  exists s'. split; [reflexivity|].
  apply (proj2 (fit_exit_condition Shapes.tall_model s' ltac:(simpl; lia))).
  - vm_compute. lia.
  - exact E.
Defined.

(** ** [fit] on a matrix that is not square *)

Section NonSquare.
Context {num : Type} {SC : Scalar num} {EX : Externals num}.
Local Abbreviation dsvd := (svd num (MatrixXd num)).

(** With no iteration left the fitters only unscale, which stays within
    the columns of [u]. *)
Lemma fit_ranks_exhausted_returns m n k ks : forall (s : dsvd),
  model_of m n k s -> maxit s <= iter_ s -> Forall (fun j => j < k) ks ->
  returns (model_of m n k) (fit_ranks ks s).
Proof.
  induction ks as [|j ks IH]; intros s Hs Hb Hks; simpl.
  - apply returns_ret. exact Hs.
  - apply Forall_cons_iff in Hks. destruct Hks as (Hj & Hks).
    rewrite fit_rank_exhausted by exact Hb.
    eapply returns_bind.
    + apply returns_result; [apply (unscale_returns m n k j (s, d_uninit j)); assumption|].
      intros s1 H1. exact (unscale_frame _ _ _ H1).
    + intros s1 (Hs1 & (_ & _ & Hm & _) & Hi). cbn [fst] in Hm, Hi.
      apply IH; [exact Hs1|lia|exact Hks].
Qed.

End NonSquare.

(** X22.  [fit] on a matrix that is not square, with two or more
    components.  The rank-1 fitter returns; if it leaves an iteration
    ([iter_ < maxit], as after a [break]) the rank-2 fitter runs a body and
    [fit] ends out of bounds; if it has used the whole budget, the other
    fitters run no body and [fit] returns.  So [fit] returns exactly when
    the first component has consumed every iteration. *)
Theorem fit_on_a_matrix_not_square {num : Type} {SC : Scalar num} {EX : Externals num}
        (m n k : nat) (s : svd num (MatrixXd num)) :
  model_of m n k s -> 2 <= k -> m <> n -> iter_ s <= maxit s ->
  exists s1,
    result (fit_rank_one s) = Ok s1
    /\ ((exists s', result (fit s) = Ok s') <-> iter_ s1 = maxit s)
    /\ (iter_ s1 < maxit s -> result (fit s) = OutOfBounds).
Proof.
  intros Hs Hk Hne Hle.
  destruct (fit_rank_returns m n k 0 s Hs) as (s1 & H1 & Hs1); [lia|lia|].
  change (fit_rank 0 s) with (fit_rank_one s) in H1.
  destruct (fit_rank_one_spec s) as (_ & _ & H3).
  destruct (H3 s1 H1) as ((_ & _ & Hm & _) & Hge & Hmax & _). specialize (Hmax Hle).
  pose proof Hs1 as (_ & _ & _ & Hwu & Hru & Hcu & Hwv & Hrv & Hcv & _).
  assert (Hseq : seq 0 (mcols (u s)) = 0 :: 1 :: seq 2 (k - 2)).
  { destruct Hs as (_ & _ & _ & _ & _ & -> & _).
    destruct k as [|[|k]]; [lia|lia|]. simpl. rewrite Nat.sub_0_r. reflexivity. }
  assert (Hfit : forall s', result (fit s) = Ok s' -> iter_ s1 = maxit s).
  { intros s' H. unfold fit in H. apply result_bind_Ok in H. destruct H as (s2 & H2 & _).
    rewrite Hseq in H2. cbn [fit_ranks fit_rank] in H2.
    rewrite (result_bind_step _ _ _ H1) in H2.
    apply result_bind_Ok in H2. destruct H2 as (s3 & H2 & _).
    destruct (le_lt_dec (maxit s1) (iter_ s1)) as [Hge'|Hlt]; [lia|].
    exfalso. apply Hne. unfold fit_rank_two in H2.
    apply result_bind_Ok in H2. destruct H2 as (sd & H2 & _).
    destruct (maxit s1 - iter_ s1) as [|f] eqn:Ef; [lia|]. cbn [als_loop] in H2.
    apply result_bind_Ok in H2. destruct H2 as (sd1 & H2 & _).
    pose proof (fit_rank_two_body_Ok _ _ H2 Hwu Hwv). lia. }
  exists s1. split; [exact H1|]. split; [split|].
  - intros [s' H]. eapply Hfit; eauto.
  - intros Hex. unfold fit. rewrite Hseq. cbn [fit_ranks fit_rank].
    assert (Hret : returns (model_of m n k) (s' <- fit_rank_one s ;; fit_ranks (1 :: seq 2 (k - 2)) s')).
    { eapply returns_bind with (P := fun x => x = s1); [exists s1; auto|].
      intros x ->. apply fit_ranks_exhausted_returns; [exact Hs1|lia|].
      constructor; [lia|]. apply Forall_forall. intros j Hj. apply in_seq in Hj. lia. }
    destruct Hret as (s2 & H2 & Hs2).
    destruct (fit_diagonal_returns m n k (seq 0 (mcols (u s2))) s2 Hs2) as (s' & H' & _).
    { assert (Hc2 : mcols (u s2) = k) by apply Hs2. rewrite Hc2.
      apply Forall_forall. intros j Hj. apply in_seq in Hj. lia. }
    exists s'. rewrite (result_bind_step _ _ _ H2). exact H'.
  - intros Hlt. destruct (result (fit s)) as [s'|msg st|] eqn:E; [| |reflexivity].
    + pose proof (Hfit s' eq_refl). lia.
    + exfalso. exact (fit_no_stop s msg st E).
Qed.

(** The statement on the 1 by 2 matrix with two components and one
    iteration: the rank-1 fitter uses it and [fit] returns. *)
Lemma fit_on_a_matrix_not_square_witness :
  exists s', result (fit Inputs.wide_model) = Ok s'.
Proof.
  destruct (fit_on_a_matrix_not_square 1 2 2 Inputs.wide_model wide_model_shape)
    as (s1 & H1 & Hiff & _); [lia|lia|simpl; lia|].
  apply Hiff. vm_compute in H1. injection H1 as <-. reflexivity.
Defined.

(** ** What the dense loss computes *)

Section LossValue.
Context {num : Type} {SC : Scalar num} {EX : Externals num}.
Local Abbreviation dsvd := (svd num (MatrixXd num)).

Lemma omap_map {X Y} (f : X -> option Y) (g : X -> Y) l :
  (forall a, In a l -> f a = Some (g a)) -> omap f l = Some (map g l).
Proof.
  induction l as [|a l IH]; intros H; simpl; [reflexivity|].
  rewrite (H a) by (left; reflexivity). simpl.
  rewrite IH by (intros; apply H; right; assumption). reflexivity.
Qed.

Lemma mapM_map {St X Y} (f : X -> M num St Y) (g : X -> Y) l :
  (forall a, In a l -> result (f a) = Ok (g a)) -> result (mapM f l) = Ok (map g l).
Proof.
  induction l as [|a l IH]; intros H; simpl; [reflexivity|].
  rewrite (result_bind_step _ _ (g a)) by (apply H; left; reflexivity).
  rewrite (result_bind_step _ _ (map g l)) by (apply IH; intros; apply H; right; assumption).
  reflexivity.
Qed.

Lemma col_nth (m : MatrixXd num) j : j < mcols m -> col m j = Some (nth j (mdata m) []).
Proof. unfold col, mcols. intros H. apply nth_error_nth'. exact H. Qed.

Lemma coeff_entry (m : MatrixXd num) i j :
  wf_matrix m -> i < mrows m -> j < mcols m -> coeff m i j = Some (entry m i j).
Proof.
  intros Hwf Hi Hj. unfold coeff, entry. rewrite (col_nth m j Hj). simpl.
  apply nth_error_nth'. rewrite (col_wf m j _ Hwf (col_nth m j Hj)). exact Hi.
Qed.

(** Row [r] of the transpose is column [r]. *)
Lemma row_transpose (m t : MatrixXd num) r :
  wf_matrix m -> transpose m = Some t -> r < mcols m -> row t r = col m r.
Proof.
  intros Hwf Ht Hr. destruct (transpose_shape _ _ Ht) as (Hrt & Hct & Hwt).
  unfold transpose in Ht.
  destruct (omap (row m) (seq 0 (mrows m))) as [rs|] eqn:E; simpl in Ht; [|discriminate].
  injection Ht as <-. simpl in *. unfold row. simpl.
  apply Nat.ltb_lt in Hr. rewrite Hr. apply Nat.ltb_lt in Hr.
  rewrite (col_nth m r Hr).
  assert (Hrs : rs = map (fun i => map (fun c => nth i c nzero) (mdata m)) (seq 0 (mrows m))).
  { rewrite (omap_map (row m) (fun i => map (fun c => nth i c nzero) (mdata m))) in E.
    - injection E as <-. reflexivity.
    - intros i Hi. apply in_seq in Hi. unfold row.
      destruct (Nat.ltb_spec i (mrows m)) as [_|]; [|lia].
      apply omap_map. intros c Hc. apply nth_error_nth'.
      unfold wf_matrix in Hwf. rewrite Forall_forall in Hwf. rewrite (Hwf c Hc). lia. }
  rewrite Hrs.
  rewrite (omap_map _ (fun c : Vector num => nth r c nzero)).
  2: { intros c Hc. apply in_map_iff in Hc. destruct Hc as (i & <- & _).
       apply nth_error_nth'. rewrite length_map. exact Hr. }
  f_equal. rewrite map_map.
  assert (Hlen : length (nth r (mdata m) []) = mrows m).
  { apply (col_wf m r _ Hwf (col_nth m r Hr)). }
  apply nth_ext with (d := nzero) (d' := nzero).
  - rewrite length_map, length_seq. symmetry. exact Hlen.
  - intros i Hi. rewrite length_map, length_seq in Hi.
    rewrite (nth_indep _ nzero (nth r (map (fun c : Vector num => nth 0 c nzero) (mdata m)) nzero))
      by (rewrite length_map, length_seq; exact Hi).
    rewrite (map_nth (fun x => nth r (map (fun c : Vector num => nth x c nzero) (mdata m)) nzero)
                     (seq 0 (mrows m)) 0 i).
    rewrite seq_nth by exact Hi. simpl.
    rewrite (nth_indep _ nzero (nth i [] nzero)) by (rewrite length_map; exact Hr).
    rewrite (map_nth (fun c : Vector num => nth i c nzero) (mdata m) [] r). reflexivity.
Qed.

(** The product of the transpose of [u] by column [i] of [v]. *)
Lemma matvec_transposed n (s : dsvd) u0 i :
  model_of n n n s -> transpose (u s) = Some u0 -> i < n ->
  matvec u0 (nth i (mdata (v s)) []) = Some (map (fun r => transposed_product s r i) (seq 0 n)).
Proof.
  intros (HwA & HrA & HcA & Hwu & Hru & Hcu & Hwv & Hrv & Hcv & Hd) Ht Hi.
  destruct (transpose_shape _ _ Ht) as (Hr0 & Hc0 & Hw0).
  assert (Hvi : col (v s) i = Some (nth i (mdata (v s)) [])) by (apply col_nth; lia).
  pose proof (col_wf _ _ _ Hwv Hvi) as Lvi.
  unfold matvec. replace (mcols u0 =? length (nth i (mdata (v s)) [])) with true
    by (symmetry; apply Nat.eqb_eq; lia).
  replace (mrows u0) with n by lia.
  apply omap_map. intros r Hr. apply in_seq in Hr.
  rewrite (row_transpose (u s) u0 r Hwu Ht) by lia.
  assert (Hur : col (u s) r = Some (nth r (mdata (u s)) [])) by (apply col_nth; lia).
  rewrite Hur. simpl. apply dot_some. rewrite (col_wf _ _ _ Hwu Hur). lia.
Qed.

(** The loop [uv_i(iter) -= A(iter, i)] over the rows from [j] on. *)
Lemma subtract_rows {St} (a : nat -> num) (a_of : nat -> option num) cnt :
  forall j (pre rest : Vector num),
    length pre = j -> length rest = cnt ->
    (forall r, j <= r < j + cnt -> a_of r = Some (a r)) ->
    result (foldM (num := num) (St := St)
                  (fun uv iter =>
                     x <- lift (nth_error uv iter) ;;
                     y <- lift (a_of iter) ;;
                     lift (set_nth uv iter (nsub x y)))
                  (seq j cnt) (pre ++ rest))
    = Ok (pre ++ map (fun p => nsub (fst p) (a (snd p))) (combine rest (seq j cnt))).
Proof.
  induction cnt as [|cnt IH]; intros j pre rest Hpre Hrest Ha.
  - destruct rest; [reflexivity|discriminate].
  - destruct rest as [|x rest]; [discriminate|]. cbn [seq foldM combine map].
    assert (Hx : nth_error (pre ++ x :: rest) j = Some x).
    { rewrite nth_error_app2 by lia. rewrite Hpre, Nat.sub_diag. reflexivity. }
    assert (Hset : forall y, set_nth (pre ++ x :: rest) j y = Some (pre ++ y :: rest)).
    { intros y. subst j. clear. induction pre as [|p pre IHp]; simpl; [reflexivity|].
      rewrite IHp. reflexivity. }
    rewrite (result_bind_step _ _ (pre ++ nsub x (a j) :: rest)).
    2: { rewrite (result_bind_step _ _ x) by (rewrite Hx; reflexivity).
         rewrite (result_bind_step _ _ (a j)) by (rewrite Ha by lia; reflexivity).
         rewrite Hset. reflexivity. }
    replace (pre ++ nsub x (a j) :: rest) with ((pre ++ [nsub x (a j)]) ++ rest)
      by (rewrite <- app_assoc; reflexivity).
    rewrite (IH (S j) (pre ++ [nsub x (a j)]) rest).
    + rewrite <- app_assoc. reflexivity.
    + rewrite length_app. simpl. lia.
    + simpl in Hrest. lia.
    + intros r Hr. apply Ha. lia.
Qed.

Lemma column_loss_dense_value n (s : dsvd) u0 i :
  model_of n n n s -> mask s = false -> mask_zeros s = false ->
  transpose (u s) = Some u0 -> i < n ->
  result (column_loss_dense s u0 i) = Ok (transposed_column_loss s n i).
Proof.
  intros Hs Hm Hz Ht Hi.
  pose proof Hs as (HwA & HrA & HcA & Hwu & Hru & Hcu & Hwv & Hrv & Hcv & Hd).
  unfold column_loss_dense. rewrite Hz.
  rewrite (result_bind_step _ _ (nth i (mdata (v s)) [])).
  2: { rewrite col_nth by lia. reflexivity. }
  rewrite (result_bind_step _ _ (map (fun r => transposed_product s r i) (seq 0 n))).
  2: { rewrite (matvec_transposed n s u0 i Hs Ht Hi). reflexivity. }
  rewrite (result_bind_step _ _
             (map (fun r => nsub (transposed_product s r i) (entry (A s) r i)) (seq 0 n))).
  2: { rewrite HrA.
       pose proof (subtract_rows (St := dsvd) (fun r => entry (A s) r i)
                     (fun r => coeff (A s) r i) n 0 []
                     (map (fun r => transposed_product s r i) (seq 0 n)) eq_refl) as Hsub.
       cbn [app] in Hsub. rewrite Hsub.
       - f_equal. clear. generalize 0 as j.
         induction n as [|n IH]; intros j; [reflexivity|]. simpl. f_equal. apply IH.
       - rewrite length_map, length_seq. reflexivity.
       - intros r Hr. apply coeff_entry; [exact HwA|lia|lia]. }
  unfold zero_masked. rewrite Hm. reflexivity.
Qed.

End LossValue.

(** X23.  What the dense [mse()] returns.  On a well-formed full-rank
    model of an [n] by [n] matrix with no masking, it returns the sum over
    the columns [i] of what the accumulator [losses(i)] held plus the sum
    over the rows [r] of [((u^T v)(r, i) - A(r, i))^2], divided by [n * n]:
    the squared distance of [A] from the product of the transpose of [u] by
    [v], in which [d] does not appear. *)
Theorem mse_is_the_transposed_product_error {num : Type} {SC : Scalar num}
        {EX : Externals num} (n : nat) (s : svd num (MatrixXd num)) :
  model_of n n n s -> mask s = false -> mask_zeros s = false ->
  result (mse_dense s)
  = Ok (ndiv (vsum (map (transposed_column_loss s n) (seq 0 n)))
             (of_Z (Z.of_nat (n * n)))).
Proof.
  intros Hs Hm Hz.
  pose proof Hs as (HwA & HrA & HcA & Hwu & Hru & Hcu & Hwv & Hrv & Hcv & Hd).
  destruct (transpose_some (u s) Hwu) as [u0 Hu0].
  unfold mse_dense.
  rewrite (result_bind_step _ _ u0) by (rewrite Hu0; reflexivity).
  rewrite (result_bind_step _ _ (map (transposed_column_loss s n) (seq 0 n))).
  2: { rewrite Hcv. apply mapM_map. intros i Hi. apply in_seq in Hi.
       apply column_loss_dense_value; try assumption. lia. }
  unfold mse_divisor. rewrite Hm, Hz, Hcv, Hcu. reflexivity.
Qed.

(** The statement on the full-rank model of a 2 by 2 matrix with
    [A = U V^T]: the value is 0.5. *)
Lemma mse_is_the_transposed_product_error_witness :
  result (mse_dense Inputs.exact_model) = Ok 0.5%float.
Proof.
  rewrite (mse_is_the_transposed_product_error 2 Inputs.exact_model exact_model_shape
             eq_refl eq_refl).
  vm_compute. reflexivity.
Defined.
